(** * The $1 unistroke recognizer of obsidian-gesture-commander

    A shallow embedding of [src/gesture-recognizer.ts] (class
    [DollarRecognizer]) and the properties of its normalization pipeline,
    template store and matchers; then of the code around it: the capture
    of strokes ([gesture-capture.ts]), the handling of a finished stroke
    and the reloading of the saved gestures ([main.ts]), and the saving of
    a drawn gesture ([gesture-creation-modal.ts]).

    Numbers are IEEE 754 binary64 values, as JavaScript numbers are: they
    are Rocq's primitive floats, and [+], [-], [*], [/], [Math.sqrt] and
    the comparisons are the primitive operations.  [Math.atan2], [Math.cos],
    [Math.sin], [Math.atan] and [Math.acos] are left to the implementation
    by ECMA-262; the development is parametric in them (record [JSMath]).

    Arrays of points are objects with identity: they live in a heap, so
    that the array a caller hands to [recognize] or [addGesture] and the
    arrays the store holds can be told apart, or be the same one. *)

From Stdlib Require Import ZArith Floats Lia Bool.
From Stdlib Require Uint63.
From stdpp Require Import base option list gmap strings.

Local Open Scope float_scope.

(** ** JavaScript numbers *)

Definition number_of_nat (n : nat) : float :=
  of_uint63 (Uint63.of_Z (Z.of_nat n)).

(** [a >= b] and [a > b] on numbers: false as soon as one side is NaN. *)
Definition geb (a b : float) : bool := b <=? a.
Definition gtb (a b : float) : bool := b <? a.

(** [Math.min] and [Math.max] of two numbers (ECMA-262 21.3.2.25/24): NaN if
    either is NaN, and -0 counts as smaller than +0. *)
Definition Math_min (a b : float) : float :=
  if is_nan a || is_nan b then nan
  else if a <? b then a
  else if b <? a then b
  else match classify a with NZero => a | _ => b end.

Definition Math_max (a b : float) : float :=
  if is_nan a || is_nan b then nan
  else if a <? b then b
  else if b <? a then a
  else match classify a with PZero => a | _ => b end.

Definition Math_abs (a : float) : float := PrimFloat.abs a.
Definition Math_sqrt (a : float) : float := PrimFloat.sqrt a.
Definition Math_PI : float := 0x1.921fb54442d18p+1.
Definition Infinity : float := infinity.

(** The implementation-approximated functions the recognizer calls. *)
Record JSMath := {
  Math_atan2 : float -> float -> float;
  Math_cos : float -> float;
  Math_sin : float -> float;
  Math_atan : float -> float;
  Math_acos : float -> float
}.

(** ** Results of calls

    A call returns a value, throws a [TypeError] (a property read on
    [undefined]), or is still running when the bound on loop iterations
    that the model adds is reached ([OutOfFuel]; the program has no such
    bound). *)
Inductive outcome (A : Type) : Type :=
| Ok (a : A)
| TypeError
| OutOfFuel.
Arguments Ok {A} a.
Arguments TypeError {A}.
Arguments OutOfFuel {A}.

#[global] Instance outcome_ret : MRet outcome := fun A a => Ok a.
#[global] Instance outcome_bind : MBind outcome := fun A B k m =>
  match m with
  | Ok a => k a
  | TypeError => TypeError
  | OutOfFuel => OutOfFuel
  end.

#[global] Instance outcome_fmap : FMap outcome := fun A B f m =>
  match m with
  | Ok a => Ok (f a)
  | TypeError => TypeError
  | OutOfFuel => OutOfFuel
  end.

(** ** Data model *)

Record Point := mkPoint { x : float; y : float }.

Record Rectangle := mkRectangle {
  rect_x : float; rect_y : float; width : float; height : float
}.

(** An array of points, element by element: [Some p] is a point object,
    [None] is [undefined] (or [null]), on which a property read throws.
    Reading past the end yields [undefined]. *)
Abbreviation array := (list (option Point)).

Definition at_ (points : array) (i : nat) : option Point :=
  default None (points !! i).

(** [points.splice(i, 0, q)] *)
Definition splice (points : array) (i : nat) (q : Point) : array :=
  take i points ++ Some q :: drop i points.

(** A [number[]]; reading past the end yields [undefined], which is NaN in
    arithmetic. *)
Definition vget (v : list float) (i : nat) : float := nth i v nan.

(** Constants *)
Definition NUM_POINTS : nat := 64.
Definition SQUARE_SIZE : float := 250.0.
Definition ORIGIN : Point := {| x := 0; y := 0 |}.
Definition DIAGONAL : float :=
  Math_sqrt (SQUARE_SIZE * SQUARE_SIZE + SQUARE_SIZE * SQUARE_SIZE).
Definition HALF_DIAGONAL : float := 0.5 * DIAGONAL.
Definition deg2Rad (d : float) : float := d * Math_PI / 180.0.
Definition ANGLE_RANGE : float := deg2Rad 45.0.
Definition ANGLE_PRECISION : float := deg2Rad 2.0.
Definition PHI : float := 0.5 * (-1.0 + Math_sqrt 5.0).

Arguments SQUARE_SIZE : simpl never.
Arguments DIAGONAL : simpl never.
Arguments HALF_DIAGONAL : simpl never.
Arguments ANGLE_RANGE : simpl never.
Arguments ANGLE_PRECISION : simpl never.
Arguments PHI : simpl never.
Arguments Infinity : simpl never.

(** ** Geometric helpers *)

Definition distance (p1 p2 : Point) : float :=
  let dx := x p2 - x p1 in
  let dy := y p2 - y p1 in
  Math_sqrt (dx * dx + dy * dy).

(** [pathLength]: the loop from [i = 1], holding [points[i - 1]]. *)
Fixpoint pathLength_loop (prev : option Point) (rest : array) (d : float)
  : outcome float :=
  match rest with
  | [] => Ok d
  | cur :: rest' =>
      match prev, cur with
      | Some p1, Some p2 => pathLength_loop cur rest' (d + distance p1 p2)
      | _, _ => TypeError
      end
  end.

Definition pathLength (points : array) : outcome float :=
  match points with
  | [] => Ok 0
  | first :: rest => pathLength_loop first rest 0
  end.

Fixpoint centroid_loop (points : array) (sx sy : float)
  : outcome (float * float) :=
  match points with
  | [] => Ok (sx, sy)
  | None :: _ => TypeError
  | Some point :: rest => centroid_loop rest (sx + x point) (sy + y point)
  end.

Definition centroid (points : array) : outcome Point :=
  '(sx, sy) ← centroid_loop points 0 0;
  let n := number_of_nat (length points) in
  Ok {| x := sx / n; y := sy / n |}.

Fixpoint boundingBox_loop (points : array) (minX maxX minY maxY : float)
  : outcome Rectangle :=
  match points with
  | [] => Ok {| rect_x := minX; rect_y := minY;
                width := maxX - minX; height := maxY - minY |}
  | None :: _ => TypeError
  | Some point :: rest =>
      boundingBox_loop rest
        (Math_min minX (x point)) (Math_max maxX (x point))
        (Math_min minY (y point)) (Math_max maxY (y point))
  end.

Definition boundingBox (points : array) : outcome Rectangle :=
  boundingBox_loop points Infinity (- Infinity) Infinity (- Infinity).

(** [pathDistance]: index [i] runs over [pts1]; [pts2[i]] may be past the
    end of [pts2]. *)
Fixpoint pathDistance_loop (rest1 : array) (pts2 : array) (i : nat) (d : float)
  : outcome float :=
  match rest1 with
  | [] => Ok d
  | e1 :: rest1' =>
      match e1, at_ pts2 i with
      | Some p1, Some p2 => pathDistance_loop rest1' pts2 (S i) (d + distance p1 p2)
      | _, _ => TypeError
      end
  end.

Definition pathDistance (pts1 pts2 : array) : outcome float :=
  d ← pathDistance_loop pts1 pts2 0 0;
  Ok (d / number_of_nat (length pts1)).

(** A [for (const point of points)] loop that pushes one new point per
    element. *)
Fixpoint for_of (f : Point -> Point) (points : array) : outcome array :=
  match points with
  | [] => Ok []
  | None :: _ => TypeError
  | Some point :: rest =>
      newPoints ← for_of f rest;
      Ok (Some (f point) :: newPoints)
  end.

Definition scaleTo (points : array) (size : float) : outcome array :=
  box ← boundingBox points;
  for_of (fun point =>
            {| x := x point * (size / width box);
               y := y point * (size / height box) |}) points.

Definition translateTo (points : array) (pt : Point) : outcome array :=
  c ← centroid points;
  for_of (fun point =>
            {| x := x point + x pt - x c;
               y := y point + y pt - y c |}) points.

Fixpoint vectorize_loop (points : array) (vector : list float) (sum : float)
  : outcome (list float * float) :=
  match points with
  | [] => Ok (vector, sum)
  | None :: _ => TypeError
  | Some point :: rest =>
      vectorize_loop rest (vector ++ [x point; y point])
        (sum + (x point * x point + y point * y point))
  end.

Definition vectorize (points : array) : outcome (list float) :=
  '(vector, sum) ← vectorize_loop points [] 0;
  let magnitude := Math_sqrt sum in
  Ok (map (fun v => v / magnitude) vector).

Definition optimalCosineDistance_step (v1 v2 : list float) (i : nat)
    (ab : float * float) : float * float :=
  (fst ab + (vget v1 i * vget v2 i + vget v1 (i + 1) * vget v2 (i + 1)),
   snd ab + (vget v1 i * vget v2 (i + 1) - vget v1 (i + 1) * vget v2 i)).

(** [for (let i = 0; i < v1.length; i += 2)]: [steps] iterations remain. *)
Fixpoint optimalCosineDistance_loop (steps : nat) (v1 v2 : list float)
    (i : nat) (ab : float * float) : float * float :=
  match steps with
  | O => ab
  | S steps' =>
      optimalCosineDistance_loop steps' v1 v2 (i + 2)
        (optimalCosineDistance_step v1 v2 i ab)
  end.

(** ** The heap and the recognizer's state *)

Definition loc := positive.

Record GestureTemplate := {
  name : string;
  points : loc;
  vector : option (list float)
}.

Record RecognitionResult := {
  res_name : string;
  score : float;
  time : Z
}.

(** [heap]: the point arrays that exist; [templates]: [this.templates]. *)
Record world := {
  heap : gmap loc array;
  templates : list GestureTemplate
}.

Definition deref (h : gmap loc array) (l : loc) : outcome array :=
  match h !! l with
  | Some a => Ok a
  | None => TypeError
  end.

Section Recognizer.

Variable Math : JSMath.

(** The [for] loop of [resample].  [points] is the current content of the
    array the caller passed, which [splice] grows; [distance'] is the local
    variable [distance].  The loop test comes before the fuel test. *)
Fixpoint resample_loop (fuel : nat) (interval : float) (i : nat)
    (points newPoints : array) (distance' : float) : outcome array * array :=
  if negb (i <? length points)%nat then (Ok newPoints, points)
  else
    match fuel with
    | O => (OutOfFuel, points)
    | S fuel' =>
        match at_ points (i - 1), at_ points i with
        | Some p1, Some p2 =>
            let d := distance p1 p2 in
            if geb (distance' + d) interval then
              let qx := x p1 + ((interval - distance') / d) * (x p2 - x p1) in
              let qy := y p1 + ((interval - distance') / d) * (y p2 - y p1) in
              let q := {| x := qx; y := qy |} in
              resample_loop fuel' interval (S i) (splice points i q)
                (newPoints ++ [Some q]) 0
            else
              resample_loop fuel' interval (S i) points newPoints (distance' + d)
        | _, _ => (TypeError, points)
        end
    end.

(** [resample(points, n)]: the result is a new array; the array at [points]
    is left as the splices made it. *)
Definition resample (points : loc) (n : nat) (fuel : nat) (h : gmap loc array)
  : outcome array * gmap loc array :=
  match h !! points with
  | None => (TypeError, h)
  | Some pts =>
      match pathLength pts with
      | Ok len =>
          let interval := len / (number_of_nat n - 1) in
          let '(r, pts') := resample_loop fuel interval 1 pts [at_ pts 0] 0 in
          let h' := <[points := pts']> h in
          match r with
          | Ok newPoints =>
              if (S (length newPoints) =? n)%nat then
                match at_ pts' (length pts' - 1) with
                | Some last =>
                    (Ok (newPoints ++ [Some {| x := x last; y := y last |}]), h')
                | None => (TypeError, h')
                end
              else (Ok newPoints, h')
          | TypeError => (TypeError, h')
          | OutOfFuel => (OutOfFuel, h')
          end
      | TypeError => (TypeError, h)
      | OutOfFuel => (OutOfFuel, h)
      end
  end.

Definition indicativeAngle (points : array) : outcome float :=
  c ← centroid points;
  match at_ points 0 with
  | Some p0 => Ok (Math_atan2 Math (y c - y p0) (x c - x p0))
  | None => TypeError
  end.

Definition rotateBy (points : array) (radians : float) : outcome array :=
  c ← centroid points;
  let cos := Math_cos Math radians in
  let sin := Math_sin Math radians in
  for_of (fun point =>
            {| x := (x point - x c) * cos - (y point - y c) * sin + x c;
               y := (x point - x c) * sin + (y point - y c) * cos + y c |})
         points.

(** Steps 2 to 5 of [createTemplate], on the resampled points. *)
Definition normalize (newPoints : array) : outcome (array * list float) :=
  radians ← indicativeAngle newPoints;
  processedPoints ← rotateBy newPoints (- radians);
  processedPoints ← scaleTo processedPoints SQUARE_SIZE;
  processedPoints ← translateTo processedPoints ORIGIN;
  vector ← vectorize processedPoints;
  Ok (processedPoints, vector).

(** [createTemplate(name, points)]: the template's point array is a new
    array of the heap. *)
Definition createTemplate (name : string) (points : loc) (fuel : nat)
    (h : gmap loc array) : outcome GestureTemplate * gmap loc array :=
  let '(r, h1) := resample points NUM_POINTS fuel h in
  match r ≫= normalize with
  | Ok (processedPoints, vector) =>
      let l := fresh (dom h1) in
      (Ok {| name := name; points := l; vector := Some vector |},
       <[l := processedPoints]> h1)
  | TypeError => (TypeError, h1)
  | OutOfFuel => (OutOfFuel, h1)
  end.

Definition optimalCosineDistance (v1 v2 : list float) : float :=
  let '(a, b) :=
    optimalCosineDistance_loop (Nat.div2 (S (length v1))) v1 v2 0 (0, 0) in
  let angle := Math_atan Math (b / a) in
  Math_acos Math (a * Math_cos Math angle + b * Math_sin Math angle).

Definition distanceAtAngle (h : gmap loc array) (candidatePoints : array)
    (template : GestureTemplate) (radians : float) : outcome float :=
  newPoints ← rotateBy candidatePoints radians;
  pts2 ← deref h (points template);
  pathDistance newPoints pts2.

(** The state of the [while] loop of [distanceAtBestAngle]. *)
Record bracket := {
  br_a : float; br_b : float;
  br_x1 : float; br_f1 : float;
  br_x2 : float; br_f2 : float
}.

(** The [while] loop of [distanceAtBestAngle], [f] being
    [this.distanceAtAngle(points, template, _)]; it returns the state in
    which the loop is left.  The loop test comes before the fuel test. *)
Fixpoint golden_loop (fuel : nat) (f : float -> outcome float)
    (a b x1 f1 x2 f2 threshold : float) : outcome bracket :=
  if negb (gtb (Math_abs (b - a)) threshold)
  then Ok {| br_a := a; br_b := b; br_x1 := x1; br_f1 := f1;
             br_x2 := x2; br_f2 := f2 |}
  else
    match fuel with
    | O => OutOfFuel
    | S fuel' =>
        if f1 <? f2 then
          let b := x2 in
          let x2 := x1 in
          let f2 := f1 in
          let x1 := PHI * a + (1.0 - PHI) * b in
          f1 ← f x1;
          golden_loop fuel' f a b x1 f1 x2 f2 threshold
        else
          let a := x1 in
          let x1 := x2 in
          let f1 := f2 in
          let x2 := (1.0 - PHI) * a + PHI * b in
          f2 ← f x2;
          golden_loop fuel' f a b x1 f1 x2 f2 threshold
    end.

Definition golden_search (fuel : nat) (f : float -> outcome float)
    (a b threshold : float) : outcome bracket :=
  let x1 := PHI * a + (1.0 - PHI) * b in
  f1 ← f x1;
  let x2 := (1.0 - PHI) * a + PHI * b in
  f2 ← f x2;
  golden_loop fuel f a b x1 f1 x2 f2 threshold.

Definition distanceAtBestAngle (fuel : nat) (h : gmap loc array)
    (candidatePoints : array) (template : GestureTemplate)
    (a b threshold : float) : outcome float :=
  final ← golden_search fuel (distanceAtAngle h candidatePoints template)
            a b threshold;
  Ok (Math_min (br_f1 final) (br_f2 final)).

(** The distance [recognize] computes for the stored template [t]. *)
Definition template_distance (fuel : nat) (h : gmap loc array)
    (useProtractor : bool) (candidate t : GestureTemplate) : outcome float :=
  match useProtractor, vector candidate, vector t with
  | true, Some cv, Some tv => Ok (optimalCosineDistance tv cv)
  | _, _, _ =>
      candidatePoints ← deref h (points candidate);
      distanceAtBestAngle fuel h candidatePoints t
        (- ANGLE_RANGE) ANGLE_RANGE ANGLE_PRECISION
  end.

(** The [for] loop of [recognize] over [this.templates], from index [i]. *)
Fixpoint recognize_loop (fuel : nat) (h : gmap loc array)
    (useProtractor : bool) (candidate : GestureTemplate)
    (rest : list GestureTemplate) (i : Z) (bestMatch : Z) (bestDistance : float)
  : outcome (Z * float) :=
  match rest with
  | [] => Ok (bestMatch, bestDistance)
  | t :: rest' =>
      distance ← template_distance fuel h useProtractor candidate t;
      if distance <? bestDistance
      then recognize_loop fuel h useProtractor candidate rest' (i + 1) i distance
      else recognize_loop fuel h useProtractor candidate rest' (i + 1)
             bestMatch bestDistance
  end.

Definition no_match (time : Z) : RecognitionResult :=
  {| res_name := "No match"; score := 0.0; time := time |}.

(** [recognize(points, useProtractor)].  [startTime] and [endTime] are the
    two readings of [Date.now()] the call makes. *)
Definition recognize (points : loc) (useProtractor : bool) (fuel : nat)
    (startTime endTime : Z) (w : world) : outcome RecognitionResult * world :=
  match heap w !! points with
  | None => (TypeError, w)
  | Some pts =>
      if (length pts <? 2)%nat
      then (Ok (no_match (endTime - startTime)), w)
      else
        let '(r, h1) := createTemplate "" points fuel (heap w) in
        let w1 := {| heap := h1; templates := templates w |} in
        (candidate ← r;
         '(bestMatch, bestDistance) ←
            recognize_loop fuel h1 useProtractor candidate (templates w)
              0 (-1) Infinity;
         if (bestMatch =? -1)%Z
         then Ok (no_match (endTime - startTime))
         else
           let score :=
             if useProtractor then 1.0 - bestDistance
             else 1.0 - bestDistance / HALF_DIAGONAL in
           match templates w !! Z.to_nat bestMatch with
           | Some t => Ok {| res_name := name t;
                             score := Math_max 0 score;
                             time := (endTime - startTime)%Z |}
           | None => TypeError
           end,
         w1)
  end.

Definition has_name (n : string) (t : GestureTemplate) : bool :=
  bool_decide (name t = n).

(** [addGesture(name, points)] *)
Definition addGesture (name : string) (points : loc) (fuel : nat) (w : world)
  : outcome nat * world :=
  let '(r, h1) := createTemplate name points fuel (heap w) in
  match r with
  | Ok template =>
      let ts := templates w ++ [template] in
      (Ok (length (List.filter (has_name name) ts)),
       {| heap := h1; templates := ts |})
  | TypeError => (TypeError, {| heap := h1; templates := templates w |})
  | OutOfFuel => (OutOfFuel, {| heap := h1; templates := templates w |})
  end.

(** [loadDefaultTemplates] has an empty body. *)
Definition loadDefaultTemplates (w : world) : world := w.

Definition deleteUserGestures (w : world) : world :=
  loadDefaultTemplates {| heap := heap w; templates := [] |}.

(** [[...new Set(names)]]: the distinct names, in order of first occurrence. *)
Fixpoint spread_set (seen : list string) (names : list string) : list string :=
  match names with
  | [] => seen
  | n :: rest =>
      if bool_decide (n ∈ seen) then spread_set seen rest
      else spread_set (seen ++ [n]) rest
  end.

Definition getTemplateNames (w : world) : list string :=
  spread_set [] (name <$> templates w).

Definition getTemplatesByName (n : string) (w : world) : list GestureTemplate :=
  List.filter (has_name n) (templates w).

Definition removeTemplatesByName (n : string) (w : world) : world :=
  {| heap := heap w;
     templates := List.filter (fun t => negb (has_name n t)) (templates w) |}.

(** [JSON.parse(JSON.stringify(v))] on a number: JSON has no NaN and no
    infinities, [JSON.stringify] writes them as [null], and -0 as [0].  Every
    use the recognizer makes of a coordinate is arithmetic, where [null] reads
    as +0: the copy holds +0 there. *)
Definition json_number (v : float) : float :=
  if is_finite v then (if is_zero v then 0 else v) else 0.

Definition json_point (e : option Point) : option Point :=
  match e with
  | Some p => Some {| x := json_number (x p); y := json_number (y p) |}
  | None => None
  end.

(** [exportTemplates()]: every array of the copy is a new array. *)
Fixpoint exportTemplates_loop (ts : list GestureTemplate) (h : gmap loc array)
  : outcome (list GestureTemplate) * gmap loc array :=
  match ts with
  | [] => (Ok [], h)
  | t :: rest =>
      match h !! points t with
      | None => (TypeError, h)
      | Some pts =>
          let l := fresh (dom h) in
          let copy := {| name := name t; points := l;
                         vector := map json_number <$> vector t |} in
          let '(r, h') := exportTemplates_loop rest (<[l := json_point <$> pts]> h) in
          (copies ← r; Ok (copy :: copies), h')
      end
  end.

Definition exportTemplates (w : world) : outcome (list GestureTemplate) * world :=
  let '(r, h') := exportTemplates_loop (templates w) (heap w) in
  (r, {| heap := h'; templates := templates w |}).

(** What [importTemplates] may find in the [points] field of an entry. *)
Inductive js_points :=
| points_missing            (* undefined, null or another falsy value *)
| points_not_array          (* a truthy value that is no array *)
| points_array (l : loc).

(** An entry of the list given to [importTemplates]; [entry_name] is [None]
    when the name is missing. *)
Record TemplateEntry := {
  entry_name : option string;
  entry_points : js_points
}.

Definition entry_of (t : GestureTemplate) : TemplateEntry :=
  {| entry_name := Some (name t); entry_points := points_array (points t) |}.

(** The callback of [templates.forEach] in [importTemplates]. *)
Definition importTemplates_callback (fuel : nat) (template : TemplateEntry)
    (w : world) : outcome unit * world :=
  match entry_name template, entry_points template with
  | Some n, points_array l =>
      if bool_decide (n = "") then (Ok tt, w)
      else
        let '(r, w') := addGesture n l fuel w in
        (_ ← r; Ok tt, w')
  | _, _ => (Ok tt, w)
  end.

Fixpoint forEach (fuel : nat) (entries : list TemplateEntry) (w : world)
  : outcome unit * world :=
  match entries with
  | [] => (Ok tt, w)
  | template :: rest =>
      match importTemplates_callback fuel template w with
      | (Ok _, w') => forEach fuel rest w'
      | (TypeError, w') => (TypeError, w')
      | (OutOfFuel, w') => (OutOfFuel, w')
      end
  end.

Definition importTemplates (entries : list TemplateEntry) (fuel : nat)
    (w : world) : outcome unit * world :=
  forEach fuel entries
    (loadDefaultTemplates {| heap := heap w; templates := [] |}).

End Recognizer.

(** ** A reference implementation of the implementation-approximated functions

    ECMA-262 fixes the results of these functions at a few arguments only
    ([Math.cos(-0)] is 1, [Math.sin(-0)] is -0, [Math.atan2(+0, x)] is +0
    for [x > 0], [Math.acos] never returns a negative number) and leaves the
    rest to the implementation.  [RefMath.impl] is one implementation, by
    argument reduction and truncated power series; it is used to run the
    recognizer on concrete strokes.  General theorems are stated for every
    [JSMath]. *)
Module RefMath.

Definition half_pi : float := Math_PI / 2.

(** The nearest integer, for arguments below 2^51 in magnitude. *)
Definition nearest (v : float) : float :=
  if v <? 0 then - ((- v + 0x1p52) - 0x1p52) else (v + 0x1p52) - 0x1p52.

Definition sin_series (r : float) : float :=
  let r2 := r * r in
  r * (1 - r2 / 6 * (1 - r2 / 20 * (1 - r2 / 42 * (1 - r2 / 72 *
      (1 - r2 / 110 * (1 - r2 / 156 * (1 - r2 / 210))))))).

Definition cos_series (r : float) : float :=
  let r2 := r * r in
  1 - r2 / 2 * (1 - r2 / 12 * (1 - r2 / 30 * (1 - r2 / 56 *
      (1 - r2 / 90 * (1 - r2 / 132 * (1 - r2 / 182)))))).

(** [v = k * pi/2 + r] with [r] in [-pi/4, pi/4]; the quadrant is
    [k mod 4], as one of -2, -1, 0, 1, 2. *)
Definition reduce (v : float) : float * float :=
  let k := nearest (v / half_pi) in
  (v - k * half_pi, k - 4 * nearest (k / 4)).

Definition sin (v : float) : float :=
  let '(r, q) := reduce v in
  if q =? 1 then cos_series r
  else if q =? -1 then - cos_series r
  else if q =? 0 then sin_series r
  else - sin_series r.

Definition cos (v : float) : float :=
  let '(r, q) := reduce v in
  if q =? 1 then - sin_series r
  else if q =? -1 then sin_series r
  else if q =? 0 then cos_series r
  else - cos_series r.

(** The arctangent series, for [t] of magnitude at most tan(pi/8). *)
Fixpoint atan_series (terms : nat) (k : float) (t2 : float) : float :=
  match terms with
  | O => 1 / k
  | S terms' => 1 / k - t2 * atan_series terms' (k + 2) t2
  end.

Definition atan_small (t : float) : float := t * atan_series 14 1 (t * t).

Definition atan_pos (v : float) : float :=
  if 0x1.3504f333f9de6p+1 <? v then half_pi - atan_small (1 / v)
  else if 0x1.a827999fcef32p-2 <? v
       then Math_PI / 4 + atan_small ((v - 1) / (v + 1))
       else atan_small v.

Definition atan (v : float) : float :=
  if v <? 0 then - atan_pos (- v) else atan_pos v.

Definition atan2 (b a : float) : float :=
  if 0 <? a then atan (b / a)
  else if a <? 0 then
    (if b <? 0 then atan (b / a) - Math_PI else atan (b / a) + Math_PI)
  else if 0 <? b then half_pi
  else if b <? 0 then - half_pi
  else b + a.

Definition acos (v : float) : float :=
  if v =? -1 then Math_PI
  else PrimFloat.abs (2 * atan (PrimFloat.sqrt (1 - v * v) / (1 + v))).

Definition impl : JSMath :=
  {| Math_atan2 := atan2; Math_cos := cos; Math_sin := sin;
     Math_atan := atan; Math_acos := acos |}.

End RefMath.


(** * Properties *)

(** ** What the pipeline does to the heap *)

Lemma resample_loop_more_fuel fuel fuel' interval i pts newPoints d r pts' :
  resample_loop fuel interval i pts newPoints d = (r, pts') ->
  r <> OutOfFuel ->
  (fuel <= fuel')%nat ->
  resample_loop fuel' interval i pts newPoints d = (r, pts').
Proof.
  revert fuel' i pts newPoints d.
  induction fuel as [|fuel IH]; intros fuel' i pts newPoints d Hrun Hr Hle.
  - simpl in Hrun. destruct fuel'; simpl;
      destruct (negb (i <? length pts)%nat); try done;
      inversion Hrun; subst; done.
  - destruct fuel' as [|fuel']; [lia|].
    simpl in *. destruct (negb (i <? length pts)%nat); [done|].
    destruct (at_ pts (i - 1)) as [p1|]; [|done].
    destruct (at_ pts i) as [p2|]; [|done].
    destruct (geb (d + distance p1 p2) interval); apply IH; auto; lia.
Qed.

Lemma resample_heap l n fuel (h : gmap loc array) r h' :
  resample l n fuel h = (r, h') ->
  h' = h \/ exists pts pts', h !! l = Some pts /\ h' = <[l := pts']> h.
Proof.
  unfold resample. intros Hrun.
  destruct (h !! l) as [pts|] eqn:Hl; [|left; by inversion Hrun].
  destruct (pathLength pts) as [len| |]; try (left; by inversion Hrun).
  destruct (resample_loop _ _ _ _ _ _) as [r0 pts'].
  right. exists pts, pts'. split; [done|].
  destruct r0 as [newPoints| |]; try by inversion Hrun.
  destruct (S (length newPoints) =? n)%nat; [|by inversion Hrun].
  destruct (at_ pts' _); by inversion Hrun.
Qed.

Lemma resample_heap_other l n fuel (h : gmap loc array) r h' l' :
  resample l n fuel h = (r, h') -> l' <> l -> h' !! l' = h !! l'.
Proof.
  intros Hrun Hne. apply resample_heap in Hrun as [->|(pts & pts' & _ & ->)].
  - done.
  - by rewrite lookup_insert_ne.
Qed.

Lemma resample_heap_dom l n fuel (h : gmap loc array) r h' l' :
  resample l n fuel h = (r, h') -> is_Some (h !! l') -> is_Some (h' !! l').
Proof.
  intros Hrun Hin. apply resample_heap in Hrun as [->|(pts & pts' & Hl & ->)].
  - done.
  - destruct (decide (l = l')) as [->|Hne].
    + rewrite lookup_insert_eq. eauto.
    + by rewrite lookup_insert_ne.
Qed.

Section HeapEffects.

Variable Math : JSMath.

(** [createTemplate] changes the heap as [resample] does, and adds one
    array, the template's, at an address that was free. *)
Lemma createTemplate_heap nm l fuel (h : gmap loc array) r h' :
  createTemplate Math nm l fuel h = (r, h') ->
  let h1 := (resample l NUM_POINTS fuel h).2 in
  match r with
  | Ok t => h1 !! points t = None /\ name t = nm /\ is_Some (vector t) /\
            exists arr, h' = <[points t := arr]> h1
  | _ => h' = h1
  end.
Proof.
  unfold createTemplate.
  destruct (resample l NUM_POINTS fuel h) as [r0 h1] eqn:Hres. simpl.
  destruct (r0 ≫= normalize Math) as [[processed vec]| |]; intros Hrun;
    inversion Hrun; subst; clear Hrun; simpl; [|done..].
  split; [|eauto].
  apply not_elem_of_dom, is_fresh.
Qed.

Lemma createTemplate_heap_old nm l fuel (h : gmap loc array) r h' l' :
  createTemplate Math nm l fuel h = (r, h') ->
  is_Some (h !! l') ->
  h' !! l' = (resample l NUM_POINTS fuel h).2 !! l'.
Proof.
  intros Hrun Hin. pose proof (createTemplate_heap _ _ _ _ _ _ Hrun) as Hh.
  destruct (resample l NUM_POINTS fuel h) as [r0 h1] eqn:Hres. simpl in *.
  destruct r as [t| |]; try by subst.
  destruct Hh as (Hfree & _ & _ & arr & ->).
  rewrite lookup_insert_ne; [done|]. intros <-.
  eapply resample_heap_dom in Hin; [|done]. rewrite Hfree in Hin.
  by destruct Hin.
Qed.

Lemma createTemplate_heap_other nm l fuel (h : gmap loc array) r h' l' :
  createTemplate Math nm l fuel h = (r, h') ->
  is_Some (h !! l') -> l' <> l ->
  h' !! l' = h !! l'.
Proof.
  intros Hrun Hin Hne. rewrite (createTemplate_heap_old _ _ _ _ _ _ _ Hrun Hin).
  destruct (resample l NUM_POINTS fuel h) as [r0 h1] eqn:Hres. simpl.
  by eapply resample_heap_other.
Qed.

(** [recognize] leaves [this.templates] as it was, and changes the heap as
    [createTemplate] does. *)
Lemma recognize_world l up fuel t0 t1 w r w' :
  recognize Math l up fuel t0 t1 w = (r, w') ->
  templates w' = templates w /\
  (heap w' = heap w \/ heap w' = (createTemplate Math "" l fuel (heap w)).2).
Proof.
  unfold recognize. destruct (heap w !! l) as [pts|]; [|intros [= <- <-]; auto].
  destruct (length pts <? 2)%nat; [intros [= <- <-]; auto|].
  destruct (createTemplate Math "" l fuel (heap w)) as [r0 h1].
  intros [= <- <-]. simpl. auto.
Qed.

End HeapEffects.

Lemma resample_more_fuel l n fuel fuel' (h : gmap loc array) r h' :
  resample l n fuel h = (r, h') ->
  r <> OutOfFuel ->
  (fuel <= fuel')%nat ->
  resample l n fuel' h = (r, h').
Proof.
  unfold resample. intros Hrun Hr Hle.
  destruct (h !! l) as [pts|]; [|done].
  destruct (pathLength pts) as [len| |]; [|done..].
  destruct (resample_loop fuel _ _ _ _ _) as [r0 pts'] eqn:Hloop.
  assert (r0 <> OutOfFuel) as Hr0.
  { intros ->. by inversion Hrun. }
  by rewrite (resample_loop_more_fuel _ _ _ _ _ _ _ _ _ Hloop Hr0 Hle).
Qed.

(** ** Concrete strokes and stores *)

Definition pt (a b : float) : option Point := Some {| x := a; y := b |}.

(** A horizontal stroke of two points, and a corner of three. *)
Definition stroke_line : array := [pt 0 0; pt 10 0].
Definition stroke_corner : array := [pt 0 0; pt 10 0; pt 10 10].

Definition world_of (strokes : list (loc * array)) : world :=
  {| heap := list_to_map strokes; templates := [] |}.

(** ** Strokes of fewer than two points *)

(** C6: for a stroke of fewer than 2 points, [recognize] returns
    [{name: "No match", score: 0}] (with the elapsed time) for both matchers,
    whatever the store holds, and leaves the heap and the store as they
    were: neither the pipeline nor the store is used. *)
Theorem recognize_short_stroke Math (l : loc) useProtractor fuel t0 t1 w pts :
  heap w !! l = Some pts ->
  (length pts < 2)%nat ->
  recognize Math l useProtractor fuel t0 t1 w =
    (Ok {| res_name := "No match"; score := 0; time := t1 - t0 |}, w).
Proof.
  intros Hl Hlen. unfold recognize. rewrite Hl.
  by apply Nat.ltb_lt in Hlen as ->.
Qed.

Lemma recognize_short_stroke_witness :
  let w := {| heap := {[ 1%positive := [pt 3 4] ]};
              templates := [ {| name := "a"; points := 1%positive;
                                vector := None |} ] |} in
  recognize RefMath.impl 1%positive true 0 5 9 w =
    (Ok {| res_name := "No match"; score := 0; time := 4 |}, w).
Proof.
  intros w. apply (recognize_short_stroke RefMath.impl 1%positive true 0%nat
                     5%Z 9%Z w [pt 3 4]).
  - reflexivity.
  - simpl. lia.
Defined.

(** ** [importTemplates] and an empty point list *)

Definition entry_empty_points : TemplateEntry :=
  {| entry_name := Some "a"; entry_points := points_array 1%positive |}.
Definition entry_corner : TemplateEntry :=
  {| entry_name := Some "b"; entry_points := points_array 2%positive |}.

(** C3, at the failing input: an entry whose [points] is the empty array
    passes the test of [importTemplates] (an empty array is truthy),
    [resample] returns [[undefined]] for it and [centroid] throws a
    TypeError; the import is aborted, and the valid entry that follows is
    not imported, though alone it is. *)
Theorem importTemplates_empty_points_throws Math fuel :
  let w := world_of [(1%positive, []); (2%positive, stroke_corner)] in
  (importTemplates Math [entry_empty_points; entry_corner] fuel w).1 = TypeError /\
  templates (importTemplates Math [entry_empty_points; entry_corner] fuel w).2 = [] /\
  (importTemplates RefMath.impl [entry_corner] (100 + fuel) w).1 = Ok tt /\
  name <$> templates (importTemplates RefMath.impl [entry_corner] (100 + fuel) w).2
    = ["b"].
Proof.
  intros w. repeat split; destruct fuel; vm_compute; reflexivity.
Qed.

(** ** The array the caller passes *)

(** C2, at the failing input: [recognize] and [addGesture], given the
    two-point stroke [(0,0), (10,0)], leave the caller's array with 65
    points: [resample] splices its 63 interpolated points into the array it
    was handed, for every implementation of the [Math] functions and both
    matchers. *)
Theorem recognize_splices_into_the_callers_array Math useProtractor fuel t0 t1 :
  let w := world_of [(1%positive, stroke_line)] in
  length <$> heap w !! 1%positive = Some 2%nat /\
  length <$> heap (recognize Math 1%positive useProtractor (64 + fuel) t0 t1 w).2
               !! 1%positive = Some 65%nat /\
  length <$> heap (addGesture Math "line" 1%positive (64 + fuel) w).2
               !! 1%positive = Some 65%nat.
Proof.
  intros w. repeat split; destruct fuel; vm_compute; reflexivity.
Qed.

(** ** [recognize] and the store *)

(** [recognize] leaves [this.templates] as it is, and the point array of
    every stored template as it is, except the array it was given. *)
Lemma recognize_frame Math l useProtractor fuel t0 t1 w r w' :
  recognize Math l useProtractor fuel t0 t1 w = (r, w') ->
  templates w' = templates w /\
  forall t, t ∈ templates w -> is_Some (heap w !! points t) ->
            points t <> l ->
            heap w' !! points t = heap w !! points t.
Proof.
  intros Hrun. apply recognize_world in Hrun as [Hts Hheap].
  split; [done|]. intros t _ Hin Hne.
  destruct Hheap as [->| ->]; [done|].
  destruct (createTemplate Math "" l fuel (heap w)) as [r0 h1] eqn:Hct.
  by eapply createTemplate_heap_other.
Qed.

(** The store that [addGesture("a", [(0,0), (10,0), (10,10)])] builds. *)
Definition store_corner : world :=
  (addGesture RefMath.impl "a" 1%positive 100
     (world_of [(1%positive, stroke_corner)])).2.

(** C10, at the failing input: the stroke given to [recognize] is the
    point array of the stored template itself (as [getTemplatesByName]
    returns it); the stored array holds 64 points before the call and 126
    after it. *)
Theorem recognize_splices_into_the_store :
  (points <$> getTemplatesByName "a" store_corner) = [2%positive] /\
  length <$> heap store_corner !! 2%positive = Some 64%nat /\
  (res_name <$> (recognize RefMath.impl 2%positive false 200 0 1 store_corner).1)
    = Ok "a" /\
  length <$> heap (recognize RefMath.impl 2%positive false 200 0 1 store_corner).2
               !! 2%positive = Some 126%nat.
Proof.
  repeat split; vm_compute; reflexivity.
Qed.

(** ** The number of points of a template *)

(** Every element is a point object. *)
Abbreviation objects := (Forall (@is_Some Point)).

Lemma for_of_ok f points :
  objects points ->
  exists r, for_of f points = Ok r /\ length r = length points /\ objects r.
Proof.
  induction 1 as [|e rest [p ->] _ (r & Hr & Hlen & Hobj)]; simpl.
  - exists []. by repeat split.
  - rewrite Hr. simpl. exists (Some (f p) :: r). repeat split.
    + simpl. by rewrite Hlen.
    + constructor; [eauto|done].
Qed.

Lemma for_of_inv f points r :
  for_of f points = Ok r ->
  length r = length points /\ objects r /\ objects points.
Proof.
  revert r. induction points as [|[p|] rest IH]; simpl; intros r Hr.
  - inversion Hr. by repeat split.
  - destruct (for_of f rest) as [r'| |]; simpl in Hr; [|done..].
    inversion Hr; subst. destruct (IH r' eq_refl) as (Hlen & Hobj & Hobj').
    repeat split; [simpl; by rewrite Hlen|constructor; eauto..].
  - done.
Qed.

Lemma centroid_loop_ok points sx sy :
  objects points -> exists s, centroid_loop points sx sy = Ok s.
Proof.
  intros Hobj. revert sx sy.
  induction Hobj as [|e rest [p ->] _ IH]; simpl; eauto.
Qed.

Lemma centroid_ok points : objects points -> exists c, centroid points = Ok c.
Proof.
  intros Hobj. unfold centroid.
  destruct (centroid_loop_ok points 0 0 Hobj) as [[sx sy] ->]. simpl. eauto.
Qed.

Lemma boundingBox_ok points :
  objects points -> exists box, boundingBox points = Ok box.
Proof.
  intros Hobj. unfold boundingBox.
  generalize Infinity, (- Infinity). intros a b.
  generalize a at 1, b at 1. revert a b.
  induction Hobj as [|e rest [p ->] _ IH]; simpl; eauto.
Qed.

Lemma vectorize_ok points :
  objects points -> exists v, vectorize points = Ok v.
Proof.
  unfold vectorize. generalize (@nil float), 0.
  intros v s Hobj. revert v s.
  assert (forall v s, exists vs, vectorize_loop points v s = Ok vs) as Hloop.
  { induction Hobj as [|e rest [p ->] _ IH]; simpl; eauto. }
  intros v s. destruct (Hloop v s) as [[v' s'] ->]. simpl. eauto.
Qed.

Lemma scaleTo_ok points size :
  objects points ->
  exists r, scaleTo points size = Ok r /\ length r = length points /\ objects r.
Proof.
  intros Hobj. unfold scaleTo.
  destruct (boundingBox_ok _ Hobj) as [box ->]. simpl. by apply for_of_ok.
Qed.

Lemma translateTo_ok points p :
  objects points ->
  exists r, translateTo points p = Ok r /\ length r = length points /\ objects r.
Proof.
  intros Hobj. unfold translateTo.
  destruct (centroid_ok _ Hobj) as [c ->]. simpl. by apply for_of_ok.
Qed.

Lemma scaleTo_inv points size r :
  scaleTo points size = Ok r -> length r = length points /\ objects r.
Proof.
  unfold scaleTo. destruct (boundingBox points); simpl; [|done..].
  intros (? & ? & _)%for_of_inv. done.
Qed.

Lemma translateTo_inv points p r :
  translateTo points p = Ok r -> length r = length points /\ objects r.
Proof.
  unfold translateTo. destruct (centroid points); simpl; [|done..].
  intros (? & ? & _)%for_of_inv. done.
Qed.

Section PointCount.

Variable Math : JSMath.

Lemma rotateBy_ok points radians :
  objects points ->
  exists r, rotateBy Math points radians = Ok r /\
            length r = length points /\ objects r.
Proof.
  intros Hobj. unfold rotateBy.
  destruct (centroid_ok _ Hobj) as [c ->]. simpl. by apply for_of_ok.
Qed.

Lemma rotateBy_inv points radians r :
  rotateBy Math points radians = Ok r -> length r = length points /\ objects r.
Proof.
  unfold rotateBy. destruct (centroid points); simpl; [|done..].
  intros (? & ? & _)%for_of_inv. done.
Qed.

Lemma indicativeAngle_ok points :
  objects points -> points <> [] ->
  exists radians, indicativeAngle Math points = Ok radians.
Proof.
  intros Hobj Hne. unfold indicativeAngle.
  destruct (centroid_ok _ Hobj) as [c ->]. simpl.
  destruct Hobj as [|e rest [p0 ->] _]; [done|]. simpl. eauto.
Qed.

Lemma normalize_ok newPoints :
  objects newPoints -> newPoints <> [] ->
  exists processed vec,
    normalize Math newPoints = Ok (processed, vec) /\
    length processed = length newPoints /\ objects processed.
Proof.
  intros Hobj Hne. unfold normalize.
  destruct (indicativeAngle_ok _ Hobj Hne) as [radians ->]. simpl.
  destruct (rotateBy_ok _ (- radians) Hobj) as (rotated & -> & Hlen1 & Hobj1).
  simpl.
  destruct (scaleTo_ok _ SQUARE_SIZE Hobj1) as (scaled & -> & Hlen2 & Hobj2).
  simpl.
  destruct (translateTo_ok _ ORIGIN Hobj2) as (moved & -> & Hlen3 & Hobj3).
  simpl.
  destruct (vectorize_ok _ Hobj3) as [v ->]. simpl.
  exists moved, v. repeat split; [congruence|done].
Qed.

Lemma normalize_length newPoints processed vec :
  normalize Math newPoints = Ok (processed, vec) ->
  length processed = length newPoints /\ objects processed.
Proof.
  unfold normalize.
  destruct (indicativeAngle Math newPoints) as [radians| |]; simpl; [|done..].
  destruct (rotateBy _ _ _) as [rotated| |] eqn:Hrot; simpl; [|done..].
  destruct (scaleTo rotated _) as [scaled| |] eqn:Hsc; simpl; [|done..].
  destruct (translateTo scaled _) as [moved| |] eqn:Htr; simpl; [|done..].
  destruct (vectorize moved) as [v| |]; simpl; [|done..].
  intros [= <- <-].
  apply rotateBy_inv in Hrot as [<- _].
  apply scaleTo_inv in Hsc as [<- _].
  by apply translateTo_inv in Htr as [<- ?].
Qed.

End PointCount.

Lemma at_objects (points : array) i :
  objects points -> (i < length points)%nat -> is_Some (at_ points i).
Proof.
  intros Hobj Hi. unfold at_.
  destruct (lookup_lt_is_Some_2 points i Hi) as [e He]. rewrite He. simpl.
  by eapply Forall_lookup_1 in Hobj.
Qed.

Lemma splice_objects (points : array) i q :
  objects points -> objects (splice points i q).
Proof.
  intros Hobj. unfold splice. apply Forall_app. split.
  - by apply Forall_take.
  - constructor; [eauto|by apply Forall_drop].
Qed.

Lemma splice_length (points : array) i q :
  (i <= length points)%nat -> length (splice points i q) = S (length points).
Proof.
  intros Hi. unfold splice.
  rewrite length_app, length_take. simpl. rewrite length_drop. lia.
Qed.

Lemma pathLength_loop_objects prev rest d len :
  pathLength_loop prev rest d = Ok len -> rest <> [] ->
  is_Some prev /\ objects rest.
Proof.
  revert prev d. induction rest as [|cur rest' IH]; [done|].
  intros prev d Hrun _. simpl in Hrun.
  destruct prev as [p1|]; [|done]. destruct cur as [p2|]; [|done].
  split; [eauto|]. destruct rest' as [|e rest''].
  - repeat constructor. eauto.
  - apply IH in Hrun as [_ ?]; [|done]. constructor; eauto.
Qed.

Lemma pathLength_objects points len :
  pathLength points = Ok len -> (2 <= length points)%nat -> objects points.
Proof.
  destruct points as [|first [|second rest]]; simpl; try lia.
  intros Hrun _.
  apply (pathLength_loop_objects first (second :: rest)) in Hrun as [? ?];
    [|done].
  by constructor.
Qed.

(** What the main loop of [resample] returns: the points it was given
    stay, and whatever it adds, to either array, is a point object. *)
Lemma resample_loop_inv fuel interval i points newPoints d r points' :
  resample_loop fuel interval i points newPoints d = (Ok r, points') ->
  (exists added, r = newPoints ++ added /\ objects added /\
                 (added <> [] -> (i < length points)%nat)) /\
  (objects points -> objects points') /\
  (length points <= length points')%nat.
Proof.
  revert i points newPoints d.
  induction fuel as [|fuel IH]; intros i points newPoints d; simpl.
  - destruct (i <? length points)%nat eqn:Hi; simpl; [done|].
    intros [= <- <-]. split; [|done]. exists []. by rewrite app_nil_r.
  - destruct (i <? length points)%nat eqn:Hi; simpl.
    2:{ intros [= <- <-]. split; [|done]. exists []. by rewrite app_nil_r. }
    apply Nat.ltb_lt in Hi.
    destruct (at_ points (i - 1)) as [p1|]; [|done].
    destruct (at_ points i) as [p2|]; [|done].
    destruct (geb _ interval); intros Hrun; apply IH in Hrun
      as ((added & -> & Hadded & _) & Hobj & Hlen).
    + rewrite splice_length in Hlen by lia. split; [|split].
      * eexists (_ :: added). rewrite <- app_assoc. split; [done|].
        split; [constructor; eauto|done].
      * intros Hpts. by apply Hobj, splice_objects.
      * lia.
    + split; [|done]. exists added. done.
Qed.

(** The number of points the main loop of [resample] leaves in
    [newPoints], the first point included. *)
Definition resample_emitted (fuel : nat) (points : array) : outcome nat :=
  len ← pathLength points;
  length <$> (resample_loop fuel (len / (number_of_nat NUM_POINTS - 1)) 1
                points [at_ points 0] 0).1.

Lemma resample_emitted_inv fuel (h : gmap loc array) l points k :
  h !! l = Some points ->
  resample_emitted fuel points = Ok k ->
  (2 <= k)%nat ->
  exists newPoints h1,
    resample l NUM_POINTS fuel h = (Ok newPoints, h1) /\
    objects newPoints /\
    length newPoints = (if (k =? 63)%nat then 64 else k)%nat.
Proof.
  intros Hl Hem Hk. unfold resample_emitted in Hem. unfold resample.
  rewrite Hl. destruct (pathLength points) as [len| |] eqn:Hlen; [|done..].
  simpl in Hem.
  destruct (resample_loop _ _ _ _ _ _) as [r points'] eqn:Hloop.
  destruct r as [newPoints| |]; [|done..]. simpl in Hem.
  injection Hem as <-.
  apply resample_loop_inv in Hloop
    as ((added & -> & Hadded & Hiter) & Hobj & Hgrow).
  rewrite length_app in *. simpl in *.
  assert (1 < length points)%nat as Hpts.
  { apply Hiter. destruct added; [simpl in Hk; lia|done]. }
  assert (objects points) as Hobjs by (eapply pathLength_objects; [done|lia]).
  assert (objects (at_ points 0 :: added)) as Hnew.
  { constructor; [|done]. apply at_objects; [done|lia]. }
  destruct (length added =? 62)%nat eqn:H62.
  - apply Nat.eqb_eq in H62.
    destruct (at_objects points' (length points' - 1)) as [last ->];
      [auto|lia|].
    eexists _, _. split; [done|]. split.
    + inversion Hnew; subst. constructor; [done|].
      apply Forall_app. split; [done|]. repeat constructor. eauto.
    + simpl. rewrite length_app. simpl. lia.
  - eexists _, _. by repeat split.
Qed.

(** The point count of a template follows the number [k] of points the main
    loop of [resample] emits: with [k] = N-1 the last point of the working
    sequence is appended, which makes N = 64, and otherwise the template has
    [k] points; rotation, scaling and translation keep the count.  This
    holds for every name and every implementation of the [Math]
    functions. *)
Lemma createTemplate_point_count Math nm l fuel (h : gmap loc array) pts k :
  h !! l = Some pts ->
  resample_emitted fuel pts = Ok k ->
  (2 <= k)%nat ->
  exists t h' arr,
    createTemplate Math nm l fuel h = (Ok t, h') /\
    h' !! points t = Some arr /\
    length arr = (if (k =? 63)%nat then 64 else k)%nat.
Proof.
  intros Hl Hem Hk.
  destruct (resample_emitted_inv fuel h l pts k Hl Hem Hk)
    as (newPoints & h1 & Hres & Hobj & Hlen).
  destruct (normalize_ok Math newPoints Hobj)
    as (processed & vec & Hnorm & Hcount & _).
  { intros ->. simpl in Hlen. destruct (k =? 63)%nat; lia. }
  unfold createTemplate. rewrite Hres. simpl. rewrite Hnorm.
  eexists _, _, processed. split; [done|]. simpl.
  rewrite lookup_insert_eq. split; [done|]. by rewrite Hcount.
Qed.

(** C4: the template of a stroke of at least 2 points does not always have
    N = 64 points, whatever the [Math] functions are.  For two coincident
    points the path length is 0, the interval is 0, the one point the loop
    emits is (0/0) * 0 = NaN, and the template has 2 points.  For the two
    distinct points (2^52, 0) and (2^52 + 32, 0) every interpolated point
    is rounded to the next integer, the loop is through after 32 of them,
    and the template has 33 points. *)
Theorem createTemplate_fewer_points Math nm :
  (exists t h' arr,
     createTemplate Math nm 1%positive 100
       {[ 1%positive := [pt 5 5; pt 5 5] ]} = (Ok t, h') /\
     h' !! points t = Some arr /\ length arr = 2%nat) /\
  (exists t h' arr,
     createTemplate Math nm 1%positive 100
       {[ 1%positive := [pt 4503599627370496 0; pt 4503599627370528 0] ]} = (Ok t, h') /\
     h' !! points t = Some arr /\ length arr = 33%nat).
Proof.
  split.
  - apply (createTemplate_point_count Math nm 1%positive 100%nat
             {[ 1%positive := [pt 5 5; pt 5 5] ]} [pt 5 5; pt 5 5] 2%nat);
      [reflexivity|vm_compute; reflexivity|lia].
  - apply (createTemplate_point_count Math nm 1%positive 100%nat
             {[ 1%positive := [pt 4503599627370496 0; pt 4503599627370528 0] ]}
             [pt 4503599627370496 0; pt 4503599627370528 0] 33%nat);
      [reflexivity|vm_compute; reflexivity|lia].
Qed.

(** ** IEEE 754 facts about the primitive operations *)

Section IEEE.

(** NaN and the infinities, on the specification side. *)
Definition SFnonfinite (s : spec_float) : bool :=
  match s with
  | S754_nan | S754_infinity _ => true
  | _ => false
  end.

Lemma SFcompare_refl s m e :
  SFcompare (S754_finite s m e) (S754_finite s m e) = Some Eq.
Proof.
  pose proof (Z.compare_refl e) as He.
  pose proof (Pos.compare_cont_refl m Eq) as Hm.
  simpl. destruct s; simpl; by rewrite He, Hm.
Qed.

Lemma SFcompare_antisym u v :
  SFcompare v u = CompOpp <$> SFcompare u v.
Proof.
  destruct u as [[]|[]| |[] m e], v as [[]|[]| |[] m' e']; try reflexivity.
  all: simpl.
  all: pose proof (Z.compare_antisym e e') as He.
  all: pose proof (Pos.compare_cont_antisym m m' Eq) as Hm; simpl in Hm.
  all: rewrite He, <- Hm.
  all: by destruct (e ?= e')%Z, (Pos.compare_cont Eq m m').
Qed.

Lemma ltb_irrefl v : (v <? v) = false.
Proof.
  rewrite FloatAxioms.ltb_spec. unfold SFltb.
  destruct (Prim2SF v) as [[]|[]| |s m e]; try done.
  by rewrite SFcompare_refl.
Qed.

Lemma leb_not_gtb u v : (u <=? v) = true -> gtb u v = false.
Proof.
  unfold gtb. rewrite FloatAxioms.leb_spec, FloatAxioms.ltb_spec.
  unfold SFleb, SFltb. rewrite (SFcompare_antisym (Prim2SF u)).
  by destruct (SFcompare (Prim2SF u) (Prim2SF v)) as [[]|].
Qed.

Lemma is_nan_spec f :
  is_nan f = match Prim2SF f with S754_nan => true | _ => false end.
Proof.
  unfold is_nan. rewrite FloatAxioms.eqb_spec. unfold SFeqb.
  destruct (Prim2SF f) as [s|s| |s m e]; try done; try by destruct s.
  by rewrite SFcompare_refl.
Qed.

Lemma is_finite_spec f : is_finite f = negb (SFnonfinite (Prim2SF f)).
Proof.
  unfold is_finite, is_infinity. rewrite is_nan_spec, FloatAxioms.eqb_spec, abs_spec.
  by destruct (Prim2SF f) as [s|s| |s m e].
Qed.

Lemma eqb_zero_spec f :
  (f =? 0) = true -> exists s, Prim2SF f = S754_zero s.
Proof.
  rewrite FloatAxioms.eqb_spec. unfold SFeqb.
  destruct (Prim2SF f) as [s|[]| |[] m e]; simpl; eauto; done.
Qed.

(** [SQUARE_SIZE / 0] is an infinity. *)
Lemma SQUARE_SIZE_div_zero z s :
  Prim2SF z = S754_zero s -> Prim2SF (SQUARE_SIZE / z) = S754_infinity s.
Proof. intros Hz. rewrite div_spec, Hz. reflexivity. Qed.

(** A product with an infinity is an infinity or NaN. *)
Lemma mul_infinity v i s :
  Prim2SF i = S754_infinity s -> is_finite (v * i) = false.
Proof.
  intros Hi. rewrite is_finite_spec, mul_spec, Hi.
  by destruct (Prim2SF v).
Qed.

(** Adding to, or subtracting from, an infinity or NaN gives one. *)
Lemma add_nonfinite v a : is_finite v = false -> is_finite (v + a) = false.
Proof.
  rewrite !is_finite_spec, add_spec.
  destruct (Prim2SF v) as [s|s| |s m e]; try done;
    destruct (Prim2SF a) as [s'|s'| |s' m' e']; try done; by destruct s, s'.
Qed.

Lemma sub_nonfinite v a : is_finite v = false -> is_finite (v - a) = false.
Proof.
  rewrite !is_finite_spec, sub_spec.
  destruct (Prim2SF v) as [s|s| |s m e]; try done;
    destruct (Prim2SF a) as [s'|s'| |s' m' e']; try done; by destruct s, s'.
Qed.

End IEEE.

(** ** Scaling a stroke whose bounding box has no extent *)

Inductive axis := X_axis | Y_axis.

Definition extent (a : axis) (box : Rectangle) : float :=
  match a with X_axis => width box | Y_axis => height box end.

Definition coordinate (a : axis) (p : Point) : float :=
  match a with X_axis => x p | Y_axis => y p end.

(** The bounding box [scaleTo] computes inside [createTemplate]: that of
    the resampled and rotated points. *)
Definition rotated_box (Math : JSMath) (l : loc) (fuel : nat)
    (h : gmap loc array) : outcome Rectangle :=
  newPoints ← (resample l NUM_POINTS fuel h).1;
  radians ← indicativeAngle Math newPoints;
  rotated ← rotateBy Math newPoints (- radians);
  boundingBox rotated.

Definition zero_extent (a : axis) (box : outcome Rectangle) : bool :=
  match box with
  | Ok box => extent a box =? 0
  | _ => false
  end.

(** Every element is a point whose coordinate on [a] is NaN or infinite. *)
Definition nonfinite_on (a : axis) (points : array) : Prop :=
  Forall (fun e => exists p, e = Some p /\ is_finite (coordinate a p) = false)
         points.

Lemma for_of_Forall (P Q : Point -> Prop) f points r :
  (forall p, P p -> Q (f p)) ->
  Forall (fun e => forall p, e = Some p -> P p) points ->
  for_of f points = Ok r ->
  Forall (fun e => exists q, e = Some q /\ Q q) r.
Proof.
  intros Hf. revert r. induction points as [|[p|] rest IH]; simpl;
    intros r Hall Hr.
  - inversion Hr. constructor.
  - destruct (for_of f rest) as [r'| |]; simpl in Hr; [|done..].
    inversion Hr; subst. inversion Hall; subst.
    constructor; eauto.
  - done.
Qed.

Lemma scaleTo_zero_extent a points box scaled :
  boundingBox points = Ok box ->
  (extent a box =? 0) = true ->
  scaleTo points SQUARE_SIZE = Ok scaled ->
  nonfinite_on a scaled.
Proof.
  intros Hbox [s Hz]%eqb_zero_spec. unfold scaleTo. rewrite Hbox. simpl.
  apply (for_of_Forall (fun _ => True)); [|by apply Forall_true].
  intros p _. destruct a; simpl in *;
    eapply mul_infinity, SQUARE_SIZE_div_zero, Hz.
Qed.

Lemma translateTo_nonfinite a points p moved :
  nonfinite_on a points ->
  translateTo points p = Ok moved ->
  nonfinite_on a moved.
Proof.
  intros Hnf. unfold translateTo. destruct (centroid points) as [c| |];
    simpl; [|done..].
  apply (for_of_Forall (fun q => is_finite (coordinate a q) = false)).
  - intros q Hq. destruct a; simpl in *; by apply sub_nonfinite, add_nonfinite.
  - eapply Forall_impl; [exact Hnf|]. simpl.
    intros e (q & -> & Hq) q' [= <-]. done.
Qed.

(** C1 (amended): [scaleTo] divides by the extent of the bounding box
    without a guard.  When the bounding box of the rotated points has zero
    width (height), [createTemplate] returns a template all of whose x (y)
    coordinates are NaN or infinite, for every implementation of the [Math]
    functions. *)
Theorem createTemplate_zero_extent Math a nm l fuel (h : gmap loc array) :
  zero_extent a (rotated_box Math l fuel h) = true ->
  exists t h' arr,
    createTemplate Math nm l fuel h = (Ok t, h') /\
    h' !! points t = Some arr /\ arr <> [] /\ nonfinite_on a arr.
Proof.
  unfold rotated_box, createTemplate, normalize.
  destruct (resample l NUM_POINTS fuel h) as [r h1]. simpl.
  destruct r as [newPoints| |]; simpl; [|done..].
  destruct (indicativeAngle Math newPoints) as [radians| |] eqn:Hangle;
    simpl; [|done..].
  destruct (rotateBy Math newPoints (- radians)) as [rotated| |] eqn:Hrot;
    simpl; [|done..].
  destruct (boundingBox rotated) as [box| |] eqn:Hbox; simpl; [|done..].
  intros Hzero.
  pose proof (rotateBy_inv _ _ _ _ Hrot) as [Hlen1 Hobj1].
  destruct (scaleTo_ok _ SQUARE_SIZE Hobj1) as (scaled & Hsc & Hlen2 & Hobj2).
  destruct (translateTo_ok _ ORIGIN Hobj2) as (moved & Htr & Hlen3 & Hobj3).
  destruct (vectorize_ok _ Hobj3) as [v Hv].
  rewrite Hsc. simpl. rewrite Htr. simpl. rewrite Hv. simpl.
  eexists _, _, moved. split; [done|]. simpl. rewrite lookup_insert_eq.
  split; [done|]. split.
  - intros ->. simpl in *.
    assert (newPoints = []) as -> by (destruct newPoints; simpl in *; [done|lia]).
    unfold indicativeAngle in Hangle.
    destruct (centroid []); simpl in Hangle; done.
  - eapply translateTo_nonfinite; [|done].
    by eapply scaleTo_zero_extent.
Qed.

Definition heap_line : gmap loc array := {[ 1%positive := stroke_line ]}.

Lemma createTemplate_zero_extent_witness :
  exists t h' arr,
    createTemplate RefMath.impl "line" 1%positive 100 heap_line = (Ok t, h') /\
    h' !! points t = Some arr /\ arr <> [] /\ nonfinite_on Y_axis arr.
Proof.
  apply (createTemplate_zero_extent RefMath.impl Y_axis "line" 1%positive
           100%nat heap_line).
  vm_compute. reflexivity.
Defined.

(** C1, as stated, fails for the horizontal stroke [(0,0), (10,0)]: the
    rotated points have a bounding box of height 0, [scaleTo] computes
    [0 * (250 / 0)], and every y coordinate of the stored template is NaN. *)
Lemma addGesture_horizontal_line_stores_NaN :
  let w := (addGesture RefMath.impl "line" 1%positive 100
              {| heap := heap_line; templates := [] |}).2 in
  zero_extent Y_axis (rotated_box RefMath.impl 1%positive 100 heap_line) = true /\
  points <$> templates w = [2%positive] /\
  fmap (M := list) (fun e => match e with
                             | Some p => is_nan (y p)
                             | None => false
                             end) <$> heap w !! 2%positive
    = Some (replicate 64 true).
Proof.
  repeat split; vm_compute; reflexivity.
Qed.

(** ** The golden-section search *)

Lemma golden_loop_eq fuel f a b x1 f1 x2 f2 threshold :
  golden_loop fuel f a b x1 f1 x2 f2 threshold =
  if negb (gtb (Math_abs (b - a)) threshold)
  then Ok {| br_a := a; br_b := b; br_x1 := x1; br_f1 := f1;
             br_x2 := x2; br_f2 := f2 |}
  else
    match fuel with
    | O => OutOfFuel
    | S fuel' =>
        if f1 <? f2 then
          f1' ← f (PHI * a + (1.0 - PHI) * x2);
          golden_loop fuel' f a x2 (PHI * a + (1.0 - PHI) * x2) f1' x1 f1
            threshold
        else
          f2' ← f ((1.0 - PHI) * x1 + PHI * b);
          golden_loop fuel' f x1 b x2 f2 ((1.0 - PHI) * x1 + PHI * b) f2'
            threshold
    end.
Proof. by destruct fuel. Qed.

(** A bracket whose two interior points both round to [a] is never left:
    the two evaluations are equal, [a] is assigned [x1], which is [a]. *)
Lemma golden_loop_stuck f a b v threshold fuel :
  gtb (Math_abs (b - a)) threshold = true ->
  (1.0 - PHI) * a + PHI * b = a ->
  f a = Ok v ->
  golden_loop fuel f a b a v a v threshold = OutOfFuel.
Proof.
  intros Hwide Hx2 Hf. induction fuel as [|fuel IH];
    rewrite golden_loop_eq, Hwide; cbn [negb]; [done|].
  by rewrite ltb_irrefl, Hx2, Hf.
Qed.

(** C9, as stated, fails: for the bracket [1, 1 + 2^-52] and the positive
    threshold 2^-54, [distanceAtBestAngle] returns for no number of
    iterations, whatever the points, the template and the [Math] functions
    are. *)
Lemma distanceAtBestAngle_stuck_bracket :
  let a := 1 in
  let b := 0x1.0000000000001p+0 in
  let threshold := 0x1p-54 in
  (a <? b) = true /\ (0 <? threshold) = true /\
  forall Math fuel h candidatePoints template d,
    distanceAtBestAngle Math fuel h candidatePoints template a b threshold
      <> Ok d.
Proof.
  cbv zeta. split; [done|]. split; [done|].
  intros Math fuel h pts tpl d. unfold distanceAtBestAngle, golden_search.
  change (PHI * 1 + (1.0 - PHI) * 0x1.0000000000001p+0) with 1.
  change ((1.0 - PHI) * 1 + PHI * 0x1.0000000000001p+0) with 1.
  destruct (distanceAtAngle Math h pts tpl 1) as [v| |] eqn:Hf; [|done..].
  cbn [mbind outcome_bind]. by rewrite golden_loop_stuck.
Qed.

(** [settles n a b x1 x2 threshold]: from this bracket the loop test fails
    after exactly [n] more iterations, whichever way the comparisons of the
    evaluations go. *)
Fixpoint settles (n : nat) (a b x1 x2 threshold : float) : bool :=
  match n with
  | O => Math_abs (b - a) <=? threshold
  | S n' =>
      gtb (Math_abs (b - a)) threshold
      && settles n' a x2 (PHI * a + (1.0 - PHI) * x2) x1 threshold
      && settles n' x1 b x2 ((1.0 - PHI) * x1 + PHI * b) threshold
  end.

Section GoldenSection.

Variable f : float -> outcome float.
Variable threshold : float.
Hypothesis f_returns : forall v, f v <> OutOfFuel.

Lemma golden_loop_settles n fuel a b x1 f1 x2 f2 :
  settles n a b x1 x2 threshold = true ->
  (n <= fuel)%nat ->
  match golden_loop fuel f a b x1 f1 x2 f2 threshold with
  | Ok s => (Math_abs (br_b s - br_a s) <=? threshold) = true
  | TypeError => True
  | OutOfFuel => False
  end.
Proof.
  revert fuel a b x1 f1 x2 f2.
  induction n as [|n IH]; intros fuel a b x1 f1 x2 f2 Hn Hfuel;
    rewrite golden_loop_eq; cbn [settles] in Hn.
  - by rewrite (leb_not_gtb _ _ Hn).
  - apply andb_prop in Hn as [[Hwide Hlt]%andb_prop Hge].
    destruct fuel as [|fuel]; [lia|]. rewrite Hwide. cbn [negb].
    destruct (f1 <? f2).
    + pose proof (f_returns (PHI * a + (1.0 - PHI) * x2)) as Hf.
      destruct (f _) as [f1'| |]; [|done..].
      apply IH; [done|lia].
    + pose proof (f_returns ((1.0 - PHI) * x1 + PHI * b)) as Hf.
      destruct (f _) as [f2'| |]; [|done..].
      apply IH; [done|lia].
Qed.

(** The values kept are the evaluations at the interior points kept. *)
Lemma golden_loop_evaluations fuel a b x1 f1 x2 f2 s :
  golden_loop fuel f a b x1 f1 x2 f2 threshold = Ok s ->
  f x1 = Ok f1 -> f x2 = Ok f2 ->
  gtb (Math_abs (br_b s - br_a s)) threshold = false /\
  f (br_x1 s) = Ok (br_f1 s) /\ f (br_x2 s) = Ok (br_f2 s).
Proof.
  revert a b x1 f1 x2 f2.
  induction fuel as [|fuel IH]; intros a b x1 f1 x2 f2;
    rewrite golden_loop_eq;
    destruct (gtb (Math_abs (b - a)) threshold) eqn:Hwide; cbn [negb];
    try done; try (intros [= <-]; by cbn).
  destruct (f1 <? f2).
  - destruct (f (PHI * a + (1.0 - PHI) * x2)) as [f1'| |] eqn:Hf; [|done..].
    intros Hs H1 H2. by eapply IH.
  - destruct (f ((1.0 - PHI) * x1 + PHI * b)) as [f2'| |] eqn:Hf; [|done..].
    intros Hs H1 H2. by eapply IH.
Qed.

End GoldenSection.

(** The evaluation at an angle has no unbounded loop. *)
Lemma centroid_returns points : centroid points <> OutOfFuel.
Proof.
  unfold centroid.
  assert (forall sx sy, centroid_loop points sx sy <> OutOfFuel) as Hloop.
  { induction points as [|[p|] rest IH]; simpl; intros sx sy; try done. }
  specialize (Hloop 0 0). by destruct (centroid_loop points 0 0) as [[]| |].
Qed.

Lemma for_of_returns g points : for_of g points <> OutOfFuel.
Proof.
  induction points as [|[p|] rest IH]; simpl; try done.
  by destruct (for_of g rest).
Qed.

Lemma pathDistance_returns pts1 pts2 : pathDistance pts1 pts2 <> OutOfFuel.
Proof.
  unfold pathDistance.
  assert (forall i d, pathDistance_loop pts1 pts2 i d <> OutOfFuel) as Hloop.
  { induction pts1 as [|[p|] rest IH]; simpl; intros i d; try done.
    by destruct (at_ pts2 i). }
  specialize (Hloop 0%nat 0). by destruct (pathDistance_loop pts1 pts2 0 0).
Qed.

Lemma distanceAtAngle_returns Math h candidatePoints template radians :
  distanceAtAngle Math h candidatePoints template radians <> OutOfFuel.
Proof.
  unfold distanceAtAngle, rotateBy, deref.
  pose proof (centroid_returns candidatePoints) as Hc.
  destruct (centroid candidatePoints) as [c| |]; simpl; [|done..].
  match goal with |- context [for_of ?g ?l] =>
    pose proof (for_of_returns g l) as Hfor; destruct (for_of g l) end;
    simpl; [|done..].
  destruct (h !! points template); simpl; [|done].
  apply pathDistance_returns.
Qed.

(** C9 (amended): for the bracket [-45 deg, +45 deg] and the threshold of
    2 deg, the only ones [recognize] passes, the golden-section search stops
    after 8 iterations, whatever the points, the template and the [Math]
    functions are.  It then leaves a bracket no wider than the threshold,
    the two values it keeps are the evaluations at the two interior points it
    keeps, and [distanceAtBestAngle] returns [Math.min] of them; or it throws,
    when an evaluation throws. *)
Theorem distanceAtBestAngle_terminates Math h candidatePoints template fuel :
  (8 <= fuel)%nat ->
  let f := distanceAtAngle Math h candidatePoints template in
  let result := distanceAtBestAngle Math fuel h candidatePoints template
                  (- ANGLE_RANGE) ANGLE_RANGE ANGLE_PRECISION in
  match golden_search fuel f (- ANGLE_RANGE) ANGLE_RANGE ANGLE_PRECISION with
  | Ok s =>
      (Math_abs (br_b s - br_a s) <=? ANGLE_PRECISION) = true /\
      f (br_x1 s) = Ok (br_f1 s) /\ f (br_x2 s) = Ok (br_f2 s) /\
      result = Ok (Math_min (br_f1 s) (br_f2 s))
  | TypeError => result = TypeError
  | OutOfFuel => False
  end.
Proof.
  intros Hfuel f result. subst result. unfold distanceAtBestAngle.
  fold f. unfold golden_search.
  destruct (f (PHI * - ANGLE_RANGE + (1.0 - PHI) * ANGLE_RANGE))
    as [f1| |] eqn:H1; cbn [mbind outcome_bind];
    [|done|by apply distanceAtAngle_returns in H1].
  destruct (f ((1.0 - PHI) * - ANGLE_RANGE + PHI * ANGLE_RANGE))
    as [f2| |] eqn:H2; cbn [mbind outcome_bind];
    [|done|by apply distanceAtAngle_returns in H2].
  pose proof (golden_loop_settles f ANGLE_PRECISION
                (distanceAtAngle_returns Math h candidatePoints template)
                8 fuel (- ANGLE_RANGE) ANGLE_RANGE
                (PHI * - ANGLE_RANGE + (1.0 - PHI) * ANGLE_RANGE) f1
                ((1.0 - PHI) * - ANGLE_RANGE + PHI * ANGLE_RANGE) f2) as Hstop.
  destruct (golden_loop fuel f _ _ _ _ _ _ _) as [s| |] eqn:Hloop;
    cbn [mbind outcome_bind]; [|done|].
  - destruct (golden_loop_evaluations f ANGLE_PRECISION _ _ _ _ _ _ _ _
                Hloop H1 H2) as (_ & Hx1 & Hx2).
    split; [|done]. apply Hstop; [|done]. vm_compute. reflexivity.
  - apply Hstop; [|done]. vm_compute. reflexivity.
Qed.

Lemma distanceAtBestAngle_terminates_witness :
  let h := heap store_corner in
  let template := {| name := "a"; points := 2%positive; vector := None |} in
  let f := distanceAtAngle RefMath.impl h stroke_corner template in
  let result := distanceAtBestAngle RefMath.impl 8 h stroke_corner template
                  (- ANGLE_RANGE) ANGLE_RANGE ANGLE_PRECISION in
  match golden_search 8 f (- ANGLE_RANGE) ANGLE_RANGE ANGLE_PRECISION with
  | Ok s =>
      (Math_abs (br_b s - br_a s) <=? ANGLE_PRECISION) = true /\
      f (br_x1 s) = Ok (br_f1 s) /\ f (br_x2 s) = Ok (br_f2 s) /\
      result = Ok (Math_min (br_f1 s) (br_f2 s))
  | TypeError => result = TypeError
  | OutOfFuel => False
  end.
Proof.
  apply (distanceAtBestAngle_terminates RefMath.impl (heap store_corner)
           stroke_corner
           {| name := "a"; points := 2%positive; vector := None |} 8%nat).
  lia.
Defined.

(** ** The order of numbers *)

Lemma SFcompare_lt_trans u v w c :
  SFcompare u v = Some c -> c <> Gt ->
  SFcompare v w = Some Lt ->
  SFcompare u w = Some Lt.
Proof.
  destruct u as [[]|[]| |[] m1 e1], v as [[]|[]| |[] m2 e2],
           w as [[]|[]| |[] m3 e3]; simpl; try done;
    try (intros [= <-]; done).
  all: change (Pos.compare_cont Eq) with Pos.compare.
  all: destruct (Z.compare_spec e1 e2), (Z.compare_spec e2 e3),
         (Z.compare_spec e1 e3); try lia; subst; simpl; try done;
       try (intros [= <-]; done).
  all: destruct (Pos.compare_spec m1 m2), (Pos.compare_spec m2 m3),
         (Pos.compare_spec m1 m3); try lia; subst; simpl; try done;
       try (intros [= <-]; done).
Qed.

Lemma ltb_compare u v :
  (u <? v) = true <-> SFcompare (Prim2SF u) (Prim2SF v) = Some Lt.
Proof.
  rewrite FloatAxioms.ltb_spec. unfold SFltb.
  by destruct (SFcompare _ _) as [[]|].
Qed.

Lemma leb_compare u v :
  (u <=? v) = true <->
  exists c, SFcompare (Prim2SF u) (Prim2SF v) = Some c /\ c <> Gt.
Proof.
  rewrite FloatAxioms.leb_spec. unfold SFleb.
  destruct (SFcompare _ _) as [[]|]; split; try done; eauto;
    intros (c & [= <-] & ?); done.
Qed.

Lemma ltb_trans u v w :
  (u <? v) = true -> (v <? w) = true -> (u <? w) = true.
Proof.
  rewrite !ltb_compare. intros Huv Hvw.
  by eapply SFcompare_lt_trans.
Qed.

Lemma leb_ltb_trans u v w :
  (u <=? v) = true -> (v <? w) = true -> (u <? w) = true.
Proof.
  rewrite leb_compare, !ltb_compare. intros (c & Huv & Hc) Hvw.
  by eapply SFcompare_lt_trans.
Qed.

Lemma ltb_leb u v : (u <? v) = true -> (u <=? v) = true.
Proof. rewrite ltb_compare, leb_compare. eauto. Qed.

Lemma ltb_not_leb u v : (u <? v) = true -> (v <=? u) = false.
Proof.
  intros Hlt. apply not_true_is_false. intros Hle.
  pose proof (leb_ltb_trans _ _ _ Hle Hlt) as Hvv.
  by rewrite ltb_irrefl in Hvv.
Qed.

Lemma eqb_leb u v : (u =? v) = true -> (u <=? v) = true.
Proof.
  rewrite FloatAxioms.eqb_spec, FloatAxioms.leb_spec. unfold SFeqb, SFleb.
  by destruct (SFcompare _ _) as [[]|].
Qed.

Lemma SFcompare_number u v :
  u <> S754_nan -> v <> S754_nan -> is_Some (SFcompare u v).
Proof.
  destruct u as [[]|[]| |[] m e], v as [[]|[]| |[] m' e']; simpl;
    try done; eauto.
Qed.

(** Two numbers, each below some bound, compare one way or the other. *)
Lemma not_leb_ltb u v bu bv :
  (u <? bu) = true -> (v <? bv) = true ->
  (u <=? v) = false -> (v <? u) = true.
Proof.
  rewrite !ltb_compare. intros Hu Hv.
  rewrite FloatAxioms.leb_spec. unfold SFleb.
  rewrite (SFcompare_antisym (Prim2SF u) (Prim2SF v)).
  destruct (SFcompare_number (Prim2SF u) (Prim2SF v)) as [c Hc].
  - intros Hnan. by rewrite Hnan in Hu.
  - intros Hnan. by rewrite Hnan in Hv.
  - rewrite Hc. by destruct c.
Qed.

(** ** The best match *)

(** The [for] loop of [recognize], on the distances alone. *)
Fixpoint best_from (ds : list float) (i bestMatch : Z) (bestDistance : float)
  : Z * float :=
  match ds with
  | [] => (bestMatch, bestDistance)
  | d :: ds' =>
      if d <? bestDistance then best_from ds' (i + 1) i d
      else best_from ds' (i + 1) bestMatch bestDistance
  end.

(** [d], at index [k], is the first least distance of [ds]: no distance is
    below it, and every earlier one is above it (or NaN). *)
Definition first_minimum (ds : list float) (k : nat) (d : float) : Prop :=
  ds !! k = Some d /\
  forall j dj, ds !! j = Some dj ->
    (dj <? d) = false /\ ((j < k)%nat -> (dj <=? d) = false).

Lemma best_from_spec ds i bestMatch bestDistance :
  let '(bm, bd) := best_from ds i bestMatch bestDistance in
  (bm = bestMatch /\ bd = bestDistance /\
   forall j dj, ds !! j = Some dj -> (dj <? bestDistance) = false) \/
  (exists k, bm = (i + Z.of_nat k)%Z /\ (bd <? bestDistance) = true /\
             first_minimum ds k bd).
Proof.
  revert i bestMatch bestDistance.
  induction ds as [|d ds IH]; intros i bestMatch bestDistance; simpl.
  { left. by repeat split. }
  destruct (d <? bestDistance) eqn:Hd.
  - specialize (IH (i + 1)%Z i d).
    destruct (best_from ds (i + 1) i d) as [bm bd].
    right. destruct IH as [(-> & -> & Hrest)|(k & -> & Hlt & Hk & Hmin)].
    + exists 0%nat. split; [lia|]. split; [done|]. split; [done|].
      intros [|j] dj Hj; simpl in Hj.
      * injection Hj as ->. split; [apply ltb_irrefl|lia].
      * split; [by eapply Hrest|lia].
    + exists (S k). split; [lia|]. split; [by eapply ltb_trans|].
      split; [done|]. intros [|j] dj Hj; simpl in Hj.
      * injection Hj as ->. pose proof (ltb_not_leb _ _ Hlt) as Hle.
        split; [|done]. destruct (dj <? bd) eqn:Hlt'; [|done].
        by rewrite (ltb_leb _ _ Hlt') in Hle.
      * destruct (Hmin j dj Hj) as [? Hbefore]. split; [done|].
        intros ?. apply Hbefore. lia.
  - specialize (IH (i + 1)%Z bestMatch bestDistance).
    destruct (best_from ds (i + 1) bestMatch bestDistance) as [bm bd].
    destruct IH as [(-> & -> & Hrest)|(k & -> & Hlt & Hk & Hmin)].
    + left. repeat split. intros [|j] dj Hj; simpl in Hj.
      * by injection Hj as ->.
      * by eapply Hrest.
    + right. exists (S k). split; [lia|]. split; [done|]. split; [done|].
      intros [|j] dj Hj; simpl in Hj.
      * injection Hj as ->.
        assert ((dj <=? bd) = false) as Hle.
        { apply not_true_is_false. intros Hle.
          by rewrite (leb_ltb_trans _ _ _ Hle Hlt) in Hd. }
        split; [|done]. destruct (dj <? bd) eqn:Hlt'; [|done].
        by rewrite (ltb_leb _ _ Hlt') in Hle.
      * destruct (Hmin j dj Hj) as [? Hbefore]. split; [done|].
        intros ?. apply Hbefore. lia.
Qed.

Section BestMatch.

Variable Math : JSMath.

(** The distances [recognize] computes, one per stored template. *)
Fixpoint distances (fuel : nat) (h : gmap loc array) (useProtractor : bool)
    (candidate : GestureTemplate) (ts : list GestureTemplate)
  : outcome (list float) :=
  match ts with
  | [] => Ok []
  | t :: rest =>
      d ← template_distance Math fuel h useProtractor candidate t;
      ds ← distances fuel h useProtractor candidate rest;
      Ok (d :: ds)
  end.

Lemma recognize_loop_distances fuel h up candidate ts i bestMatch bestDistance :
  recognize_loop Math fuel h up candidate ts i bestMatch bestDistance =
  (ds ← distances fuel h up candidate ts;
   Ok (best_from ds i bestMatch bestDistance)).
Proof.
  revert i bestMatch bestDistance.
  induction ts as [|t rest IH]; intros i bestMatch bestDistance; [done|].
  cbn [recognize_loop distances].
  destruct (template_distance Math fuel h up candidate t) as [d| |];
    cbn [mbind outcome_bind]; [|done..].
  destruct (d <? bestDistance) eqn:Hd; rewrite IH;
    destruct (distances fuel h up candidate rest) as [ds| |];
    cbn [mbind outcome_bind best_from]; by rewrite ?Hd.
Qed.

(** C7 (amended): when [recognize] returns a result, either no stored
    template is at a
    distance below [Infinity] (each distance is NaN or [Infinity]) and the
    result is "No match", or the name returned is that of the first
    template at the least distance: its distance is a number below
    [Infinity], no template is closer, every template stored before it is
    strictly farther, and among templates at the same distance the one
    added first wins.  There is one such template only: a template whose
    distance is NaN is never the one returned. *)
Theorem recognize_first_minimum l useProtractor fuel startTime endTime w pts r :
  heap w !! l = Some pts ->
  (2 <= length pts)%nat ->
  (recognize Math l useProtractor fuel startTime endTime w).1 = Ok r ->
  exists candidate h1 ds,
    createTemplate Math "" l fuel (heap w) = (Ok candidate, h1) /\
    distances fuel h1 useProtractor candidate (templates w) = Ok ds /\
    ((r = no_match (endTime - startTime) /\
      forall j dj, ds !! j = Some dj -> (dj <? Infinity) = false) \/
     (exists k t d,
        templates w !! k = Some t /\ res_name r = name t /\
        ds !! k = Some d /\ (d <? Infinity) = true /\
        (forall j dj, ds !! j = Some dj -> (dj <? d) = false) /\
        (forall j dj, ds !! j = Some dj -> (j < k)%nat -> (dj <=? d) = false) /\
        (forall j dj, ds !! j = Some dj -> (dj =? d) = true -> (k <= j)%nat) /\
        (forall k' d',
           ds !! k' = Some d' -> (d' <? Infinity) = true ->
           (forall j dj, ds !! j = Some dj -> (dj <? d') = false) ->
           (forall j dj, ds !! j = Some dj -> (j < k')%nat ->
                         (dj <=? d') = false) ->
           k' = k))).
Proof.
  intros Hl Hlen. unfold recognize. rewrite Hl.
  replace (length pts <? 2)%nat with false
    by (symmetry; apply Nat.ltb_ge; lia).
  destruct (createTemplate Math "" l fuel (heap w)) as [rc h1].
  destruct rc as [candidate| |]; cbn [fst mbind outcome_bind];
    [|intros [=]..].
  rewrite recognize_loop_distances.
  destruct (distances fuel h1 useProtractor candidate (templates w))
    as [ds| |] eqn:Hds; cbn [mbind outcome_bind]; [|intros [=]..].
  pose proof (best_from_spec ds 0 (-1) Infinity) as Hbest.
  destruct (best_from ds 0 (-1) Infinity) as [bm bd].
  intros Hr. exists candidate, h1, ds. split; [done|]. split; [done|].
  destruct Hbest as [(-> & -> & Hnone)|(k & -> & Hlt & Hk & Hmin)].
  - left. simpl in Hr. by injection Hr as <-.
  - right. change (0 + Z.of_nat k)%Z with (Z.of_nat k) in Hr.
    destruct (Z.eqb_spec (Z.of_nat k) (-1)) as [|_]; [lia|].
    rewrite Nat2Z.id in Hr.
    destruct (templates w !! k) as [t|] eqn:Ht; [|done].
    injection Hr as <-. exists k, t, bd.
    split; [done|]. split; [done|]. split; [done|]. split; [done|].
    split; [intros j dj Hj; by destruct (Hmin j dj Hj)|].
    split; [intros j dj Hj; by destruct (Hmin j dj Hj)|].
    split.
    + intros j dj Hj Heq. destruct (decide (k <= j)%nat); [done|].
      destruct (Hmin j dj Hj) as [_ Hbefore].
      rewrite (eqb_leb _ _ Heq) in Hbefore. discriminate Hbefore. lia.
    + intros k' d' Hk' Hlt' Hleast' Hbefore'.
      destruct (Nat.lt_trichotomy k' k) as [Hless|[->|Hmore]]; [|done|].
      * destruct (Hmin k' d' Hk') as [_ Hbefore].
        pose proof (not_leb_ltb _ _ _ _ Hlt' Hlt (Hbefore Hless)) as Hbelow.
        by rewrite (Hleast' k bd Hk) in Hbelow.
      * pose proof (not_leb_ltb _ _ _ _ Hlt Hlt' (Hbefore' k bd Hk Hmore))
          as Hbelow.
        destruct (Hmin k' d' Hk') as [Hleast _]. by rewrite Hleast in Hbelow.
Qed.

End BestMatch.

(** The store after [addGesture("A", s)] and [addGesture("B", s')], [s] and
    [s'] being two arrays with the points of [stroke_corner]; a third such
    array is at address 3. *)
Definition store_AB : world :=
  let w0 := world_of [(1%positive, stroke_corner); (2%positive, stroke_corner);
                      (3%positive, stroke_corner)] in
  let w1 := (addGesture RefMath.impl "A" 1%positive 100 w0).2 in
  (addGesture RefMath.impl "B" 2%positive 100 w1).2.

Definition result_AB : RecognitionResult :=
  match (recognize RefMath.impl 3%positive false 100 0 1 store_AB).1 with
  | Ok r => r
  | _ => no_match 0
  end.

Lemma recognize_first_minimum_witness :
  name <$> templates store_AB = ["A"; "B"] /\
  res_name result_AB = "A" /\
  exists candidate h1 ds,
    createTemplate RefMath.impl "" 3%positive 100 (heap store_AB)
      = (Ok candidate, h1) /\
    distances RefMath.impl 100 h1 false candidate (templates store_AB) = Ok ds /\
    ((result_AB = no_match (1 - 0) /\
      forall j dj, ds !! j = Some dj -> (dj <? Infinity) = false) \/
     (exists k t d,
        templates store_AB !! k = Some t /\ res_name result_AB = name t /\
        ds !! k = Some d /\ (d <? Infinity) = true /\
        (forall j dj, ds !! j = Some dj -> (dj <? d) = false) /\
        (forall j dj, ds !! j = Some dj -> (j < k)%nat -> (dj <=? d) = false) /\
        (forall j dj, ds !! j = Some dj -> (dj =? d) = true -> (k <= j)%nat) /\
        (forall k' d',
           ds !! k' = Some d' -> (d' <? Infinity) = true ->
           (forall j dj, ds !! j = Some dj -> (dj <? d') = false) ->
           (forall j dj, ds !! j = Some dj -> (j < k')%nat ->
                         (dj <=? d') = false) ->
           k' = k))).
Proof.
  split; [vm_compute; reflexivity|]. split; [vm_compute; reflexivity|].
  apply (recognize_first_minimum RefMath.impl 3%positive false 100%nat 0%Z 1%Z
           store_AB stroke_corner result_AB).
  - vm_compute. reflexivity.
  - simpl. lia.
  - vm_compute. reflexivity.
Defined.

(** The store after [addGesture("A", s)] and [addGesture("B", s')], [s] and
    [s'] being two arrays with the points of the horizontal stroke
    [stroke_line]; a third such array is at address 3. *)
Definition store_lines : world :=
  let w0 := world_of [(1%positive, stroke_line); (2%positive, stroke_line);
                      (3%positive, stroke_line)] in
  let w1 := (addGesture RefMath.impl "A" 1%positive 100 w0).2 in
  (addGesture RefMath.impl "B" 2%positive 100 w1).2.

(** C7, the claim as it stood: two templates of identical geometry, A added
    before B, and a query identical to both.  The stroke is horizontal, its
    templates hold NaN (C1), the two distances are NaN, and the name
    returned is not "A": the result is "No match", with either matcher. *)
Lemma recognize_identical_lines_no_match :
  name <$> templates store_lines = ["A"; "B"] /\
  (recognize RefMath.impl 3%positive false 100 0 1 store_lines).1
  = Ok (no_match 1) /\
  (recognize RefMath.impl 3%positive true 100 0 1 store_lines).1
  = Ok (no_match 1).
Proof. repeat split; vm_compute; reflexivity. Qed.

(** ** Arrays of point objects never make the pipeline throw *)

Lemma pathLength_ok points : objects points -> exists len, pathLength points = Ok len.
Proof.
  destruct points as [|first rest]; simpl; [eauto|].
  intros Hobj. inversion Hobj as [|? ? Hfirst Hrest]; subst. clear Hobj.
  generalize 0. revert first Hfirst.
  induction Hrest as [|cur rest [p2 ->] _ IH]; intros first [p1 ->] d; simpl;
    eauto.
Qed.

Lemma resample_loop_array fuel interval i points newPoints d :
  objects points ->
  let run := resample_loop fuel interval i points newPoints d in
  run.1 <> TypeError /\ objects run.2 /\ (length points <= length run.2)%nat.
Proof.
  revert i points newPoints d.
  induction fuel as [|fuel IH]; intros i points newPoints d Hobj; simpl.
  - by destruct (i <? length points)%nat.
  - destruct (i <? length points)%nat eqn:Hi; simpl; [|done].
    apply Nat.ltb_lt in Hi.
    destruct (at_objects points (i - 1) Hobj) as [p1 ->]; [lia|].
    destruct (at_objects points i Hobj) as [p2 ->]; [lia|].
    destruct (geb _ interval).
    + match goal with |- context [splice points i ?q] =>
        destruct (IH (S i) (splice points i q)
                     (newPoints ++ [Some q]) 0 (splice_objects _ _ _ Hobj))
          as (? & ? & Hlen) end.
      rewrite splice_length in Hlen by lia. repeat split; [done..|lia].
    + by apply IH.
Qed.

(** [l] holds a non-empty array of point objects. *)
Definition good_array (h : gmap loc array) (l : loc) : Prop :=
  exists arr, h !! l = Some arr /\ arr <> [] /\ objects arr.

Lemma resample_good l n fuel (h : gmap loc array) r h' :
  good_array h l ->
  resample l n fuel h = (r, h') ->
  r <> TypeError /\
  (forall l', good_array h l' -> good_array h' l') /\
  (forall newPoints, r = Ok newPoints -> newPoints <> [] /\ objects newPoints).
Proof.
  intros (pts & Hl & Hne & Hobj). unfold resample. rewrite Hl.
  destruct (pathLength_ok pts Hobj) as [len ->].
  pose proof (resample_loop_array fuel (len / (number_of_nat n - 1)) 1 pts
                [at_ pts 0] 0 Hobj) as Hrun.
  destruct (resample_loop _ _ _ _ _ _) as [r0 pts'] eqn:Hloop.
  simpl in Hrun. destruct Hrun as (Hr0 & Hobj' & Hlen).
  assert (pts' <> []) as Hne'.
  { destruct pts; [done|]. destruct pts'; simpl in *; [lia|done]. }
  assert (forall l', good_array h l' -> good_array (<[l:=pts']> h) l') as Hgood.
  { intros l' (arr & Hl' & ? & ?). destruct (decide (l = l')) as [<-|Hneq].
    - exists pts'. by rewrite lookup_insert_eq.
    - exists arr. by rewrite lookup_insert_ne. }
  destruct r0 as [newPoints| |]; [|done|intros [= <- <-]; by repeat split].
  apply resample_loop_inv in Hloop as ((added & -> & Hadded & _) & _ & _).
  assert (objects ([at_ pts 0] ++ added)) as Hnew.
  { apply Forall_app. split; [|done]. repeat constructor.
    apply at_objects; [done|]. destruct pts; [done|simpl; lia]. }
  destruct (S (length ([at_ pts 0] ++ added)) =? n)%nat.
  - destruct (at_objects pts' (length pts' - 1) Hobj') as [last ->].
    { destruct pts'; [done|simpl; lia]. }
    intros [= <- <-]. split; [done|]. split; [done|].
    intros ? [= <-]. split; [done|].
    inversion Hnew; subst. constructor; [done|].
    apply Forall_app. split; [done|]. repeat constructor. eauto.
  - intros [= <- <-]. split; [done|]. split; [done|].
    intros ? [= <-]. done.
Qed.

Lemma createTemplate_good Math nm l fuel (h : gmap loc array) r h' :
  good_array h l ->
  createTemplate Math nm l fuel h = (r, h') ->
  r <> TypeError /\
  (forall l', good_array h l' -> good_array h' l') /\
  (forall t, r = Ok t -> name t = nm /\ good_array h' (points t)).
Proof.
  intros Hgood. unfold createTemplate.
  destruct (resample l NUM_POINTS fuel h) as [r0 h1] eqn:Hres.
  destruct (resample_good _ _ _ _ _ _ Hgood Hres) as (Hr0 & Hkeep & Hnew).
  destruct r0 as [newPoints| |]; [|done|intros [= <- <-]; by repeat split].
  destruct (Hnew newPoints eq_refl) as [Hne Hobj].
  destruct (normalize_ok Math newPoints Hobj Hne)
    as (processed & vec & Hnorm & Hlen & Hobj').
  cbn [mbind outcome_bind]. rewrite Hnorm. intros [= <- <-].
  split; [done|]. split.
  - intros l' Hl'. apply Hkeep in Hl' as (arr & Hl' & ? & ?).
    exists arr. rewrite lookup_insert_ne; [done|].
    intros Heq. pose proof (is_fresh (dom h1)) as Hfresh.
    rewrite Heq in Hfresh. apply Hfresh, elem_of_dom. eauto.
  - intros t [= <-]. split; [done|]. exists processed. simpl.
    rewrite lookup_insert_eq. split; [done|]. split; [|done].
    intros ->. simpl in Hlen. by destruct newPoints.
Qed.

(** Every stored template has its array, non-empty and of point objects. *)
Definition store_ok (w : world) : Prop :=
  Forall (fun t => good_array (heap w) (points t)) (templates w).

Lemma addGesture_good Math nm l fuel w r w' :
  good_array (heap w) l ->
  addGesture Math nm l fuel w = (r, w') ->
  r <> TypeError /\
  (forall l', good_array (heap w) l' -> good_array (heap w') l') /\
  (store_ok w -> store_ok w') /\
  match r with
  | Ok _ => name <$> templates w' = (name <$> templates w) ++ [nm]
  | _ => templates w' = templates w
  end.
Proof.
  intros Hgood. unfold addGesture.
  destruct (createTemplate Math nm l fuel (heap w)) as [r0 h1] eqn:Hct.
  destruct (createTemplate_good _ _ _ _ _ _ _ Hgood Hct) as (Hr0 & Hkeep & Hnew).
  assert (store_ok w -> Forall (fun t => good_array h1 (points t)) (templates w))
    as Hstore.
  { intros Hok. eapply Forall_impl; [exact Hok|]. intros t. apply Hkeep. }
  destruct r0 as [t| |]; intros [= <- <-]; simpl; try done.
  destruct (Hnew t eq_refl) as [Hname Hpts].
  split; [done|]. split; [done|]. split.
  - intros Hok. apply Forall_app. split; [auto|]. by repeat constructor.
  - rewrite fmap_app. simpl. by rewrite Hname.
Qed.

(** ** Export followed by import *)

Lemma exportTemplates_loop_spec ts (h : gmap loc array) :
  Forall (fun t => good_array h (points t)) ts ->
  exists copies h',
    exportTemplates_loop ts h = (Ok copies, h') /\
    name <$> copies = name <$> ts /\
    (forall l, is_Some (h !! l) -> h' !! l = h !! l) /\
    Forall (fun c => h !! points c = None /\ good_array h' (points c)) copies.
Proof.
  revert h. induction ts as [|t rest IH]; intros h Hts; simpl.
  { exists [], h. by repeat split. }
  inversion Hts as [|? ? (pts & Hpts & Hne & Hobj) Hrest]; subst.
  rewrite Hpts. set (l := fresh (dom h)).
  assert (h !! l = None) as Hl by apply not_elem_of_dom, is_fresh.
  set (h2 := <[l := json_point <$> pts]> h).
  assert (forall l', is_Some (h !! l') -> h2 !! l' = h !! l') as Hkeep.
  { intros l' Hl'. unfold h2. rewrite lookup_insert_ne; [done|].
    intros <-. rewrite Hl in Hl'. by destruct Hl'. }
  destruct (IH h2) as (copies & h' & -> & Hnames & Hold & Hcopies).
  { eapply Forall_impl; [exact Hrest|]. intros t' (arr & Ht' & ? & ?).
    exists arr. rewrite Hkeep; eauto. }
  eexists _, h'. split; [done|]. split; [|split].
  - rewrite !fmap_cons. cbn [name]. by rewrite Hnames.
  - intros l' Hl'. rewrite <- (Hkeep l' Hl'). apply Hold.
    rewrite Hkeep; done.
  - constructor.
    + simpl. split; [done|]. exists (json_point <$> pts).
      rewrite Hold; [|unfold h2; rewrite lookup_insert_eq; eauto].
      unfold h2. rewrite lookup_insert_eq. split; [done|]. split.
      * by destruct pts.
      * apply Forall_fmap. eapply Forall_impl; [exact Hobj|].
        intros e [p ->]. simpl. eauto.
    + eapply Forall_impl; [exact Hcopies|]. intros c [Hnone Hgood].
      split; [|done]. destruct (h !! points c) eqn:Hc; [|done].
      rewrite <- Hkeep in Hc by eauto. congruence.
Qed.

(** A valid entry: a non-empty name, and the array of a non-empty list of
    point objects. *)
Definition valid_entry (h : gmap loc array) (e : TemplateEntry) : Prop :=
  exists n l, e = {| entry_name := Some n; entry_points := points_array l |} /\
              n <> "" /\ good_array h l.

Lemma forEach_valid Math fuel entries w :
  Forall (valid_entry (heap w)) entries ->
  store_ok w ->
  let run := forEach Math fuel entries w in
  run.1 <> TypeError /\
  (run.1 = Ok tt ->
   store_ok run.2 /\
   name <$> templates run.2
     = (name <$> templates w) ++ omap entry_name entries).
Proof.
  revert w. induction entries as [|e rest IH]; intros w Hvalid Hok; simpl.
  { split; [done|]. intros _. by rewrite app_nil_r. }
  inversion Hvalid as [|? ? (n & l & -> & Hn & Hl) Hrest]; subst.
  unfold importTemplates_callback. simpl.
  rewrite bool_decide_eq_false_2 by done.
  destruct (addGesture Math n l fuel w) as [r w'] eqn:Hadd.
  destruct (addGesture_good _ _ _ _ _ _ _ Hl Hadd)
    as (Hr & Hkeep & Hstore & Hnames).
  destruct r as [count| |]; simpl; [|done..].
  destruct (IH w') as [Hrun Hresult]; [|by apply Hstore|].
  { eapply Forall_impl; [exact Hrest|].
    intros e (n' & l' & -> & ? & ?). exists n', l'. eauto. }
  split; [done|]. intros Hfin. destruct (Hresult Hfin) as [? ->].
  split; [done|]. by rewrite Hnames, <- app_assoc.
Qed.

(** [importTemplates(exportTemplates())] *)
Definition roundTrip (Math : JSMath) (fuel : nat) (w : world)
  : outcome unit * world :=
  let '(r, w1) := exportTemplates w in
  match r with
  | Ok snapshot => importTemplates Math (entry_of <$> snapshot) fuel w1
  | TypeError => (TypeError, w1)
  | OutOfFuel => (OutOfFuel, w1)
  end.

Lemma getTemplatesByName_names n ts1 ts2 :
  name <$> ts1 = name <$> ts2 ->
  name <$> List.filter (has_name n) ts1 = name <$> List.filter (has_name n) ts2.
Proof.
  revert ts2. induction ts1 as [|t1 ts1 IH]; intros [|t2 ts2];
    rewrite ?fmap_cons, ?fmap_nil; try done.
  intros [= Hname Hrest]. cbn [List.filter]. specialize (IH ts2 Hrest).
  assert (has_name n t1 = has_name n t2) as ->
    by (unfold has_name; by rewrite Hname).
  destruct (has_name n t2); rewrite ?fmap_cons; congruence.
Qed.

(** X15: for a store whose templates all have a non-empty name,
    [importTemplates(exportTemplates())] never throws and, when it
    returns, leaves [getTemplateNames()] unchanged and, for every name,
    [getTemplatesByName] with as many templates as before, under the same
    names (their points are derived anew by the pipeline from the exported
    points).  The arrays of the snapshot are new arrays: none is an array
    that existed before, and the arrays that existed are left as they
    were. *)
Theorem export_import_round_trip Math fuel w :
  store_ok w ->
  Forall (fun t => name t <> "") (templates w) ->
  let run := roundTrip Math fuel w in
  run.1 <> TypeError /\
  (run.1 = Ok tt ->
   getTemplateNames run.2 = getTemplateNames w /\
   (forall n, name <$> getTemplatesByName n run.2
              = name <$> getTemplatesByName n w) /\
   store_ok run.2) /\
  exists snapshot w1,
    exportTemplates w = (Ok snapshot, w1) /\
    templates w1 = templates w /\
    name <$> snapshot = name <$> templates w /\
    (forall l, is_Some (heap w !! l) -> heap w1 !! l = heap w !! l) /\
    Forall (fun c => heap w !! points c = None /\
                     good_array (heap w1) (points c)) snapshot.
Proof.
  intros Hok Hnamed. unfold roundTrip, exportTemplates.
  destruct (exportTemplates_loop_spec (templates w) (heap w) Hok)
    as (snapshot & h' & Hexport & Hnames & Hold & Hcopies).
  rewrite Hexport. cbn zeta.
  assert (omap entry_name (entry_of <$> snapshot) = name <$> templates w)
    as Hentries.
  { rewrite <- Hnames. clear. induction snapshot as [|c rest IH]; [done|].
    rewrite !fmap_cons. cbn [omap list_omap entry_of entry_name].
    by rewrite <- IH. }
  pose proof (forEach_valid Math fuel (entry_of <$> snapshot)
                {| heap := h'; templates := [] |}) as Himport.
  unfold importTemplates, loadDefaultTemplates. simpl heap.
  destruct Himport as [Hthrow Hresult].
  { apply Forall_fmap, Forall_lookup_2. intros i c Hi. simpl.
    destruct (Forall_lookup_1 _ _ _ _ Hcopies Hi) as [_ Hgood].
    exists (name c), (points c). split; [done|]. split; [|done].
    assert ((name <$> templates w) !! i = Some (name c)) as Ht.
    { rewrite <- Hnames, list_lookup_fmap, Hi. done. }
    rewrite list_lookup_fmap in Ht.
    destruct (templates w !! i) as [t|] eqn:Hti; [|done].
    injection Ht as <-. by eapply (Forall_lookup_1 _ _ _ _ Hnamed). }
  { constructor. }
  split; [done|]. split.
  - intros Hfin. destruct (Hresult Hfin) as [Hstore Hall]. simpl in Hall.
    rewrite Hentries in Hall. split; [|split; [|done]].
    + unfold getTemplateNames. by rewrite Hall.
    + intros n. by apply getTemplatesByName_names.
  - exists snapshot, {| heap := h'; templates := templates w |}. done.
Qed.

Lemma store_AB_ok : store_ok store_AB.
Proof.
  unfold store_AB. cbv zeta.
  set (w0 := world_of _).
  assert (forall l, (l = 1 \/ l = 2)%positive -> good_array (heap w0) l) as Hgood.
  { intros l [-> | ->]; exists stroke_corner;
      (split; [reflexivity|split; [done|repeat constructor; eauto]]). }
  destruct (addGesture_good RefMath.impl "A" 1%positive 100 w0 _ _
              (Hgood _ (or_introl eq_refl)) (surjective_pairing _))
    as (_ & Hkeep & Hstore & _).
  destruct (addGesture_good RefMath.impl "B" 2%positive 100 _ _ _
              (Hkeep _ (Hgood _ (or_intror eq_refl))) (surjective_pairing _))
    as (_ & _ & Hstore' & _).
  apply Hstore', Hstore. constructor.
Qed.

Lemma export_import_round_trip_witness :
  let run := roundTrip RefMath.impl 200 store_AB in
  run.1 = Ok tt /\
  getTemplateNames store_AB = ["A"; "B"] /\
  (run.1 <> TypeError /\
   (run.1 = Ok tt ->
    getTemplateNames run.2 = getTemplateNames store_AB /\
    (forall n, name <$> getTemplatesByName n run.2
               = name <$> getTemplatesByName n store_AB) /\
    store_ok run.2) /\
   exists snapshot w1,
     exportTemplates store_AB = (Ok snapshot, w1) /\
     templates w1 = templates store_AB /\
     name <$> snapshot = name <$> templates store_AB /\
     (forall l, is_Some (heap store_AB !! l) ->
                heap w1 !! l = heap store_AB !! l) /\
     Forall (fun c => heap store_AB !! points c = None /\
                      good_array (heap w1) (points c)) snapshot).
Proof.
  split; [vm_compute; reflexivity|]. split; [vm_compute; reflexivity|].
  apply (export_import_round_trip RefMath.impl 200%nat store_AB).
  - exact store_AB_ok.
  - assert (name <$> templates store_AB = ["A"; "B"]) as Hnames
      by (vm_compute; reflexivity).
    destruct (templates store_AB) as [|a [|b [|c rest]]]; try done.
    injection Hnames as Ha Hb. repeat constructor; congruence.
Defined.

(** The store after [addGesture("", [(0,0), (10,0), (10,10)])]. *)
Definition store_unnamed : world :=
  (addGesture RefMath.impl "" 1%positive 100
     (world_of [(1%positive, stroke_corner)])).2.

(** A template of empty name, which [addGesture] accepts, does not survive
    the round trip: [importTemplates] skips the exported entry, and
    [getTemplateNames()] changes from [[""]] to [[]]. *)
Lemma round_trip_drops_the_empty_name :
  let run := roundTrip RefMath.impl 200 store_unnamed in
  getTemplateNames store_unnamed = [""] /\
  length (getTemplatesByName "" store_unnamed) = 1%nat /\
  run.1 = Ok tt /\
  getTemplateNames run.2 = [] /\
  length (getTemplatesByName "" run.2) = 0%nat.
Proof.
  repeat split; vm_compute; reflexivity.
Qed.

(** The points of the [i]-th stored template. *)
Definition stored_points (w : world) (i : nat) : array :=
  match templates w !! i with
  | Some t => default [] (heap w !! points t)
  | None => []
  end.

(** The store [w] and a new array with the points of [stroke_corner] at
    address 100, for [recognize]. *)
Definition with_stroke (w : world) : world :=
  {| heap := <[100%positive := stroke_corner]> (heap w);
     templates := templates w |}.

(** C8, at the store that [addGesture("a", [(0,0), (10,0), (10,10)])]
    builds: [importTemplates(exportTemplates())] returns, and the template
    "a" it leaves is not the one exported.  [importTemplates] puts the
    exported points, which are the outcome of the pipeline, through the
    pipeline again, and that moves them: the first point by more than 3
    units along x, the point of index 31 by more than 15 units along y, in
    the square of side 250.  For the stroke the template was made of,
    [recognize] gives a score above 0.99 before the round trip and below
    0.96 after it. *)
Theorem round_trip_moves_the_points :
  let run := roundTrip RefMath.impl 200 store_corner in
  let score_of w :=
    score <$> (recognize RefMath.impl 100%positive false 300 0 1
                 (with_stroke w)).1 in
  run.1 = Ok tt /\
  getTemplateNames run.2 = getTemplateNames store_corner /\
  length (stored_points store_corner 0) = 64%nat /\
  length (stored_points run.2 0) = 64%nat /\
  match at_ (stored_points store_corner 0) 0, at_ (stored_points run.2 0) 0 with
  | Some p, Some q => (x q + 3 <? x p) = true
  | _, _ => False
  end /\
  match at_ (stored_points store_corner 0) 31, at_ (stored_points run.2 0) 31
  with
  | Some p, Some q => (y p + 15 <? y q) = true
  | _, _ => False
  end /\
  match score_of store_corner, score_of run.2 with
  | Ok before, Ok after =>
      (0x1.fae147ae147aep-1 <? before) = true /\
      (after <? 0x1.eb851eb851eb8p-1) = true
  | _, _ => False
  end.
Proof.
  cbv zeta.
  split; [vm_compute; reflexivity|]. split; [vm_compute; reflexivity|].
  split; [vm_compute; reflexivity|]. split; [vm_compute; reflexivity|].
  split; [vm_compute; reflexivity|]. split; [vm_compute; reflexivity|].
  vm_compute. split; reflexivity.
Qed.

(** * Further properties of the code *)

(** ** Rounding to binary64, on the specification side *)

Section Rounding.

Local Open Scope Z_scope.

Lemma digits2_pos_spec p :
  2 ^ (Zpos (digits2_pos p) - 1) <= Zpos p < 2 ^ Zpos (digits2_pos p).
Proof.
  induction p as [p IH|p IH|]; simpl digits2_pos; [| |simpl; lia].
  - rewrite Pos2Z.inj_succ.
    replace (Z.succ (Zpos (digits2_pos p)) - 1) with (Z.succ (Zpos (digits2_pos p) - 1)) by lia.
    rewrite !Z.pow_succ_r by lia. lia.
  - rewrite Pos2Z.inj_succ.
    replace (Z.succ (Zpos (digits2_pos p)) - 1) with (Z.succ (Zpos (digits2_pos p) - 1)) by lia.
    rewrite !Z.pow_succ_r by lia. lia.
Qed.

Lemma Zdigits2_le m k : 0 <= m -> 0 <= k -> m < 2 ^ k -> Zdigits2 m <= k.
Proof.
  intros Hm Hk Hlt. destruct m as [|p|p]; simpl; [lia| |lia].
  pose proof (digits2_pos_spec p) as [Hlo _].
  destruct (Z_le_gt_dec (Zpos (digits2_pos p)) k) as [|Hgt]; [done|].
  assert (2 ^ k <= 2 ^ (Zpos (digits2_pos p) - 1)) by (apply Z.pow_le_mono_r; lia).
  lia.
Qed.

Lemma Zdigits2_lt m : 0 <= m -> m < 2 ^ Zdigits2 m.
Proof.
  intros Hm. destruct m as [|p|p]; simpl; [lia| |lia].
  apply digits2_pos_spec.
Qed.

Lemma shr_1_m mrs : 0 <= shr_m mrs -> shr_m (shr_1 mrs) = shr_m mrs / 2.
Proof.
  destruct mrs as [m r s]. simpl. intros Hm.
  destruct m as [|[p|p|]|p]; cbn [shr_m]; try lia; try done.
  - change (Zpos p = Zpos p~1 / 2). rewrite Pos2Z.inj_xI.
    apply Z.div_unique with 1; lia.
  - change (Zpos p = Zpos p~0 / 2). rewrite Pos2Z.inj_xO.
    apply Z.div_unique with 0; lia.
Qed.

Lemma iter_pos_shr_1_m n mrs :
  0 <= shr_m mrs ->
  shr_m (SpecFloat.iter_pos shr_1 n mrs) = shr_m mrs / 2 ^ Zpos n.
Proof.
  revert mrs. induction n as [n IH|n IH|]; intros mrs Hm.
  - change (SpecFloat.iter_pos shr_1 n~1 mrs)
      with (SpecFloat.iter_pos shr_1 n (SpecFloat.iter_pos shr_1 n (shr_1 mrs))).
    assert (0 <= shr_m (shr_1 mrs)) as H1.
    { rewrite shr_1_m by done. apply Z.div_pos; lia. }
    assert (0 <= shr_m (SpecFloat.iter_pos shr_1 n (shr_1 mrs))) as H2.
    { rewrite IH by done. apply Z.div_pos; lia. }
    rewrite IH, IH, shr_1_m by done.
    rewrite !Z.div_div by lia. f_equal.
    assert (Zpos n~1 = 1 + Zpos n + Zpos n) as -> by (rewrite Pos2Z.inj_xI; lia).
    rewrite !Z.pow_add_r by lia. lia.
  - change (SpecFloat.iter_pos shr_1 n~0 mrs)
      with (SpecFloat.iter_pos shr_1 n (SpecFloat.iter_pos shr_1 n mrs)).
    assert (0 <= shr_m (SpecFloat.iter_pos shr_1 n mrs)) as H2.
    { rewrite IH by done. apply Z.div_pos; lia. }
    rewrite IH, IH by done. rewrite Z.div_div by lia. f_equal.
    assert (Zpos n~0 = Zpos n + Zpos n) as -> by (rewrite Pos2Z.inj_xO; lia).
    by rewrite Z.pow_add_r by lia.
  - change (SpecFloat.iter_pos shr_1 1 mrs) with (shr_1 mrs).
    rewrite shr_1_m by done. done.
Qed.

Lemma shr_record_of_loc_m m l : shr_m (shr_record_of_loc m l) = m.
Proof. by destruct l as [|[]]. Qed.

Lemma shr_spec mrs e n :
  0 <= shr_m mrs -> 0 <= n ->
  shr_m (shr mrs e n).1 = shr_m mrs / 2 ^ n /\ (shr mrs e n).2 = e + n.
Proof.
  intros Hm Hn. destruct n as [|p|p]; simpl; [|split; [|done]|lia].
  - rewrite Z.div_1_r. lia.
  - by apply iter_pos_shr_1_m.
Qed.

Lemma shr_nonpos mrs e n : n <= 0 -> shr mrs e n = (mrs, e).
Proof. destruct n; simpl; [done|lia|done]. Qed.

Lemma shr_nonneg mrs e n : 0 <= shr_m mrs -> 0 <= shr_m (shr mrs e n).1.
Proof.
  intros Hm. destruct n as [|p|p]; simpl; try done.
  rewrite iter_pos_shr_1_m by done. apply Z.div_pos; lia.
Qed.

Lemma round_nearest_even_bounds m l :
  m <= round_nearest_even m l <= m + 1.
Proof. destruct l as [|[]]; simpl; try destruct (Z.even m); lia. Qed.

(** The result of rounding a non-negative mantissa carries the sign given. *)
Lemma binary_round_aux_sign sx mx ex lx :
  0 <= mx ->
  let r := binary_round_aux prec emax sx mx ex lx in
  r = S754_zero sx \/ (exists m e, r = S754_finite sx m e) \/
  r = S754_infinity sx.
Proof.
  intros Hmx. unfold binary_round_aux, shr_fexp.
  set (first := shr (shr_record_of_loc mx lx) ex _).
  assert (0 <= shr_m first.1) as H1.
  { apply shr_nonneg. by rewrite shr_record_of_loc_m. }
  destruct first as [mrs' e']. simpl in H1.
  set (m2 := round_nearest_even (shr_m mrs') (loc_of_shr_record mrs')).
  assert (0 <= m2) as H2.
  { pose proof (round_nearest_even_bounds (shr_m mrs') (loc_of_shr_record mrs')).
    unfold m2. lia. }
  set (second := shr (shr_record_of_loc m2 loc_Exact) e' _).
  assert (0 <= shr_m second.1) as H3.
  { apply shr_nonneg. by rewrite shr_record_of_loc_m. }
  destruct second as [mrs'' e'']. simpl in H3. cbv zeta.
  destruct (shr_m mrs'') as [|p|p]; [auto| |lia].
  destruct (e'' <=? emax - prec); eauto.
Qed.

Definition SF_one : spec_float := S754_finite false 4503599627370496 (-52).

Lemma fexp_eq k : fexp prec emax k = Z.max (k - 53) (-1074).
Proof. reflexivity. Qed.

Lemma binary_round_aux_le_one mx ex t :
  0 <= mx ->
  t = fexp prec emax (Zdigits2 mx + ex) ->
  ex <= t -> t <= -53 ->
  SFleb (binary_round_aux prec emax false mx ex loc_Exact) SF_one = true.
Proof.
  intros Hmx Ht Hex Ht53.
  assert (-1074 <= t) as Hlow by (rewrite Ht, fexp_eq; lia).
  assert (Zdigits2 mx + ex - 53 <= t) as Hdig by (rewrite Ht, fexp_eq; lia).
  unfold binary_round_aux, shr_fexp. rewrite <- Ht.
  destruct (shr_spec (shr_record_of_loc mx loc_Exact) ex (t - ex))
    as [Hm1 He1]; [by rewrite shr_record_of_loc_m|lia|].
  rewrite shr_record_of_loc_m in Hm1.
  destruct (shr _ ex (t - ex)) as [mrs' e']. simpl in Hm1, He1.
  assert (e' = t) as -> by lia.
  assert (0 <= shr_m mrs' < 2 ^ 53) as Hb1.
  { rewrite Hm1. split; [apply Z.div_pos; lia|].
    apply Z.div_lt_upper_bound; [lia|].
    rewrite <- Z.pow_add_r by lia.
    pose proof (Zdigits2_lt mx Hmx) as Hlt.
    assert (0 <= Zdigits2 mx) by (destruct mx; simpl; lia).
    assert (2 ^ Zdigits2 mx <= 2 ^ (t - ex + 53))
      by (apply Z.pow_le_mono_r; lia).
    lia. }
  set (m2 := round_nearest_even (shr_m mrs') (loc_of_shr_record mrs')).
  assert (0 <= m2 <= 2 ^ 53) as Hb2.
  { pose proof (round_nearest_even_bounds (shr_m mrs') (loc_of_shr_record mrs')).
    unfold m2. lia. }
  clearbody m2. clear Hm1 Hb1.
  destruct (Z.eq_dec m2 (2 ^ 53)) as [->|Hne].
  - change (Zdigits2 (2 ^ 53)) with 54.
    rewrite fexp_eq. replace (Z.max (54 + t - 53) (-1074) - t) with 1 by lia.
    simpl. replace (t + 1 <=? emax - prec) with true
      by (symmetry; apply Z.leb_le; unfold emax, prec; lia).
    unfold SFleb, SF_one. simpl.
    destruct (Z.compare_spec (t + 1) (-52)); try done. lia.
  - assert (Zdigits2 m2 <= 53) as Hd2 by (apply Zdigits2_le; lia).
    rewrite shr_nonpos by (rewrite fexp_eq; lia).
    rewrite shr_record_of_loc_m.
    destruct m2 as [|p|p]; [done| |lia].
    replace (t <=? emax - prec) with true
      by (symmetry; apply Z.leb_le; unfold emax, prec; lia).
    unfold SFleb, SF_one, SFcompare.
    destruct (Z.compare_spec t (-52)); try done; lia.
Qed.

Lemma Pos_iter_xO p k : Zpos (Pos.iter xO p k) = Zpos p * 2 ^ Zpos k.
Proof.
  induction k as [|k IH] using Pos.peano_ind.
  - simpl. lia.
  - rewrite Pos.iter_succ, Pos2Z.inj_xO, IH, Pos2Z.inj_succ, Z.pow_succ_r by lia.
    lia.
Qed.

Lemma digits2_pos_iter_xO p k :
  Zpos (digits2_pos (Pos.iter xO p k)) = Zpos (digits2_pos p) + Zpos k.
Proof.
  induction k as [|k IH] using Pos.peano_ind.
  - simpl. lia.
  - rewrite Pos.iter_succ. simpl digits2_pos. rewrite Pos2Z.inj_succ, IH. lia.
Qed.

Lemma binary_round_le_one p ez :
  ez <= -52 -> Zpos p < 2 ^ (- ez) ->
  SFleb (binary_round prec emax false p ez) SF_one = true.
Proof.
  intros Hez Hp. unfold binary_round.
  assert (Zpos (digits2_pos p) <= - ez) as Hd
    by (apply (Zdigits2_le (Zpos p)); lia).
  set (t := fexp prec emax (Zpos (digits2_pos p) + ez)).
  assert (t <= -53) as Ht by (unfold t; rewrite fexp_eq; lia).
  unfold shl_align. destruct (t - ez) as [|k|k] eqn:Hk.
  - apply (binary_round_aux_le_one _ _ t); [lia|done|lia|done].
  - apply (binary_round_aux_le_one _ _ t); [lia|done|lia|done].
  - apply (binary_round_aux_le_one _ _ t); [lia| |lia|done].
    simpl Zdigits2. rewrite digits2_pos_iter_xO. unfold t. f_equal. lia.
Qed.

End Rounding.

(** ** Numbers that are not negative *)

(** Not below zero: a zero of either sign, a positive number, +Infinity,
    or NaN. *)
Definition SFnn (s : spec_float) : bool :=
  match s with
  | S754_infinity true | S754_finite true _ _ => false
  | _ => true
  end.

(** Not negative and not -0: what a count or a positive constant is. *)
Definition SFplus (s : spec_float) : bool :=
  match s with
  | S754_zero false | S754_infinity false | S754_finite false _ _ => true
  | S754_nan => true
  | _ => false
  end.

Lemma ltb_zero_spec v : (v <? 0) = negb (SFnn (Prim2SF v)).
Proof.
  rewrite FloatAxioms.ltb_spec. unfold SFltb.
  by destruct (Prim2SF v) as [[]|[]| |[] m e].
Qed.

Lemma binary_round_aux_sign_or_nan sx mx ex lx :
  match binary_round_aux prec emax sx mx ex lx with
  | S754_nan => True
  | S754_zero s | S754_infinity s | S754_finite s _ _ => s = sx
  end.
Proof.
  unfold binary_round_aux.
  destruct (shr_fexp prec emax mx ex lx) as [mrs' e'].
  destruct (shr_fexp prec emax _ e' loc_Exact) as [mrs'' e''].
  destruct (shr_m mrs'') as [|p|p]; try done.
  by destruct (e'' <=? emax - prec)%Z.
Qed.

Lemma binary_round_aux_plus mx ex lx :
  SFplus (binary_round_aux prec emax false mx ex lx) = true.
Proof.
  pose proof (binary_round_aux_sign_or_nan false mx ex lx) as H.
  destruct (binary_round_aux prec emax false mx ex lx); try done; by subst.
Qed.

Lemma SFplus_nn s : SFplus s = true -> SFnn s = true.
Proof. by destruct s as [[]|[]| |[] m e]. Qed.

Lemma binary_round_plus m e :
  SFplus (binary_round prec emax false m e) = true.
Proof.
  unfold binary_round. destruct (shl_align _ _ _) as [mz ez].
  apply binary_round_aux_plus.
Qed.

Lemma SFsqrt_nn s : SFnn (SF64sqrt s) = true.
Proof.
  destruct s as [[]|[]| |[] m e]; try done.
  unfold SF64sqrt, SFsqrt.
  destruct (SFsqrt_core_binary prec emax (Z.pos m) e) as [[mz ez] lz].
  apply SFplus_nn, binary_round_aux_plus.
Qed.

Lemma SFadd_nn a b : SFnn a = true -> SFnn b = true -> SFnn (SF64add a b) = true.
Proof.
  destruct a as [[]|[]| |[] ma ea], b as [[]|[]| |[] mb eb]; try done.
  intros _ _. unfold SF64add, SFadd, cond_Zopp, binary_normalize.
  simpl Z.add. apply SFplus_nn, binary_round_plus.
Qed.

Lemma SFdiv_nn a b : SFnn a = true -> SFplus b = true -> SFnn (SF64div a b) = true.
Proof.
  destruct a as [[]|[]| |[] ma ea], b as [[]|[]| |[] mb eb]; try done.
  intros _ _. unfold SF64div, SFdiv.
  destruct (SFdiv_core_binary prec emax (Z.pos ma) ea (Z.pos mb) eb)
    as [[mz ez] lz].
  apply SFplus_nn, binary_round_aux_plus.
Qed.

Definition not_negative (v : float) : Prop := (v <? 0) = false.

Lemma not_negative_spec v : not_negative v <-> SFnn (Prim2SF v) = true.
Proof.
  unfold not_negative. rewrite ltb_zero_spec.
  by destruct (SFnn (Prim2SF v)).
Qed.

Lemma sqrt_not_negative v : not_negative (Math_sqrt v).
Proof. apply not_negative_spec. unfold Math_sqrt. rewrite sqrt_spec. apply SFsqrt_nn. Qed.

Lemma add_not_negative a b :
  not_negative a -> not_negative b -> not_negative (a + b).
Proof.
  rewrite !not_negative_spec, add_spec. apply SFadd_nn.
Qed.

Lemma number_of_nat_plus n : SFplus (Prim2SF (number_of_nat n)) = true.
Proof.
  unfold number_of_nat. rewrite of_uint63_spec.
  pose proof (Uint63.to_Z_bounded (Uint63.of_Z (Z.of_nat n))) as [Hlo _].
  destruct (Uint63.to_Z _) as [|p|p]; simpl; [done| |lia].
  apply binary_round_plus.
Qed.

Lemma div_not_negative a b :
  not_negative a -> SFplus (Prim2SF b) = true -> not_negative (a / b).
Proof.
  rewrite !not_negative_spec, div_spec. apply SFdiv_nn.
Qed.

Lemma Math_min_not_negative a b :
  not_negative a -> not_negative b -> not_negative (Math_min a b).
Proof.
  intros Ha Hb. unfold Math_min.
  destruct (is_nan a || is_nan b); [done|].
  destruct (a <? b); [done|]. destruct (b <? a); [done|].
  by destruct (classify a).
Qed.

Lemma distance_not_negative p q : not_negative (distance p q).
Proof. apply sqrt_not_negative. Qed.

(** ** [1 - q] is at most 1 *)

Lemma SFleb_negative s :
  match s with
  | S754_zero _ | S754_infinity true | S754_finite true _ _ => True
  | _ => False
  end ->
  SFleb s SF_one = true.
Proof. by destruct s as [[]|[]| |[] m e]. Qed.

Lemma shl_align_one ez :
  (ez <= -52)%Z ->
  Z.pos (shl_align 4503599627370496 (-52) ez).1 = (2 ^ (- ez))%Z.
Proof.
  intros Hez. unfold shl_align.
  destruct (ez - -52)%Z as [|k|k] eqn:Hk; simpl fst; try lia.
  - replace ez with (-52)%Z by lia. reflexivity.
  - rewrite Pos_iter_xO.
    replace (- ez)%Z with (52 + Z.pos k)%Z by lia.
    rewrite Z.pow_add_r by lia. reflexivity.
Qed.

Lemma SFsub_one_le q :
  SFnn q = true -> q <> S754_nan ->
  SFleb (SF64sub SF_one q) SF_one = true.
Proof.
  destruct q as [[]|[]| |[] m e]; try done. intros _ _.
  unfold SF64sub, SFsub, SF_one, cond_Zopp.
  set (ez := Z.min (-52) e).
  assert (ez <= -52)%Z as Hez by (unfold ez; lia).
  pose proof (shl_align_one ez Hez) as Hone.
  set (mx := (shl_align 4503599627370496 (-52) ez).1) in *.
  set (my := (shl_align m e ez).1).
  unfold binary_normalize.
  destruct (Z.pos mx - Z.pos my)%Z as [|p|p] eqn:Hdiff.
  - done.
  - apply binary_round_le_one; [done|]. lia.
  - unfold binary_round. destruct (shl_align p ez _) as [mz ez2].
    apply SFleb_negative.
    destruct (binary_round_aux_sign true (Z.pos mz) ez2 loc_Exact)
      as [->|[(m' & e' & ->)| ->]]; [lia|done..].
Qed.

Lemma one_spec : Prim2SF 1 = SF_one.
Proof. reflexivity. Qed.

Lemma is_nan_false_spec v : is_nan v = false <-> Prim2SF v <> S754_nan.
Proof.
  rewrite is_nan_spec. by destruct (Prim2SF v).
Qed.

Lemma leb_not_nan u v : (u <=? v) = true -> is_nan u = false.
Proof.
  rewrite FloatAxioms.leb_spec, is_nan_spec. unfold SFleb.
  by destruct (Prim2SF u).
Qed.

Lemma ltb_not_nan u v : (u <? v) = true -> is_nan u = false.
Proof. intros H. eapply leb_not_nan, ltb_leb, H. Qed.

Lemma one_minus_le_one q :
  not_negative q -> is_nan q = false -> (1 - q <=? 1) = true.
Proof.
  rewrite not_negative_spec, is_nan_false_spec.
  rewrite FloatAxioms.leb_spec, sub_spec, one_spec. apply SFsub_one_le.
Qed.

(** Dividing a number that is not negative, nor NaN, nor infinite, by a
    positive one gives a number that is not negative nor NaN. *)
Lemma SFdiv_core_nonneg m1 e1 m2 e2 :
  (0 <= (SFdiv_core_binary prec emax (Z.pos m1) e1 (Z.pos m2) e2).1.1)%Z.
Proof.
  unfold SFdiv_core_binary.
  set (s := (_ - _ - _)%Z).
  set (m' := match s with Z.pos _ => Z.shiftl (Z.pos m1) s | 0%Z => Z.pos m1
                        | Z.neg _ => 0%Z end).
  assert (0 <= m')%Z as Hm'.
  { unfold m'. destruct s; try lia. apply Z.shiftl_nonneg. lia. }
  pose proof (Z.div_pos m' (Z.pos m2) Hm' ltac:(lia)) as Hq.
  unfold Z.div in Hq. by destruct (Z.div_eucl m' (Z.pos m2)) as [q r].
Qed.

Lemma div_positive_finite d c m e :
  Prim2SF c = S754_finite false m e ->
  not_negative d -> (d <? Infinity) = true ->
  not_negative (d / c) /\ is_nan (d / c) = false.
Proof.
  intros Hc Hd Hfin.
  rewrite not_negative_spec in *. rewrite is_nan_false_spec.
  rewrite FloatAxioms.ltb_spec in Hfin. unfold SFltb in Hfin.
  rewrite div_spec, Hc.
  destruct (Prim2SF d) as [[]|[]| |[] md ed]; try done.
  unfold SF64div, SFdiv. simpl xorb.
  pose proof (SFdiv_core_nonneg md ed m e) as Hq.
  destruct (SFdiv_core_binary prec emax (Z.pos md) ed (Z.pos m) e)
    as [[mz ez] lz]. simpl in Hq.
  destruct (binary_round_aux_sign false mz ez lz Hq)
    as [->|[(m' & e' & ->)| ->]]; done.
Qed.

Lemma Math_max_zero_range s :
  (s <=? 1) = true ->
  (0 <=? Math_max 0 s) = true /\ (Math_max 0 s <=? 1) = true.
Proof.
  intros Hs. unfold Math_max. rewrite (leb_not_nan _ _ Hs).
  change (is_nan 0 || false) with false. cbv iota.
  destruct (0 <? s) eqn:Hpos; [by split; [apply ltb_leb|]|].
  destruct (s <? 0); done.
Qed.

Lemma score_range q :
  not_negative q -> is_nan q = false ->
  (0 <=? Math_max 0 (1 - q)) = true /\ (Math_max 0 (1 - q) <=? 1) = true.
Proof. intros. by apply Math_max_zero_range, one_minus_le_one. Qed.

(** ** Distances are not negative, scores lie between 0 and 1 *)

Lemma pathDistance_not_negative pts1 pts2 r :
  pathDistance pts1 pts2 = Ok r -> not_negative r.
Proof.
  unfold pathDistance.
  assert (forall i d r', not_negative d ->
            pathDistance_loop pts1 pts2 i d = Ok r' -> not_negative r')
    as Hloop.
  { induction pts1 as [|[p1|] rest IH]; simpl; intros i d r' Hd; try done.
    - by intros [= <-].
    - destruct (at_ pts2 i) as [p2|]; [|done].
      apply IH, add_not_negative; [done|apply distance_not_negative]. }
  destruct (pathDistance_loop pts1 pts2 0 0) as [d| |] eqn:Hd; [|done..].
  cbn [mbind outcome_bind]. intros [= <-].
  apply div_not_negative; [|apply number_of_nat_plus].
  eapply Hloop; [|done]. reflexivity.
Qed.

Lemma pathLength_not_negative points r :
  pathLength points = Ok r -> not_negative r.
Proof.
  destruct points as [|first rest]; simpl; [intros [= <-]; reflexivity|].
  assert (not_negative 0) as H0 by reflexivity. revert H0. generalize 0.
  revert first. induction rest as [|cur rest IH]; simpl; intros first d Hd.
  - by intros [= <-].
  - destruct first as [p1|]; [|done]. destruct cur as [p2|]; [|done].
    apply IH, add_not_negative; [done|apply distance_not_negative].
Qed.

Section ScoreRange.

Variable Math : JSMath.
Hypothesis acos_not_negative : forall v, not_negative (Math_acos Math v).

Lemma distanceAtAngle_not_negative h candidatePoints template radians r :
  distanceAtAngle Math h candidatePoints template radians = Ok r ->
  not_negative r.
Proof.
  unfold distanceAtAngle.
  destruct (rotateBy Math candidatePoints radians) as [newPoints| |];
    cbn [mbind outcome_bind]; [|done..].
  destruct (deref h (points template)) as [pts2| |];
    cbn [mbind outcome_bind]; [|done..].
  apply pathDistance_not_negative.
Qed.

Lemma distanceAtBestAngle_not_negative fuel h candidatePoints template a b
    threshold d :
  distanceAtBestAngle Math fuel h candidatePoints template a b threshold
    = Ok d ->
  not_negative d.
Proof.
  unfold distanceAtBestAngle, golden_search.
  set (f := distanceAtAngle Math h candidatePoints template).
  destruct (f (PHI * a + (1.0 - PHI) * b)) as [f1| |] eqn:H1;
    cbn [mbind outcome_bind]; [|done..].
  destruct (f ((1.0 - PHI) * a + PHI * b)) as [f2| |] eqn:H2;
    cbn [mbind outcome_bind]; [|done..].
  destruct (golden_loop fuel f a b _ f1 _ f2 threshold) as [s| |] eqn:Hloop;
    cbn [mbind outcome_bind]; [|done..].
  intros [= <-].
  destruct (golden_loop_evaluations f threshold _ _ _ _ _ _ _ _ Hloop H1 H2)
    as (_ & Hx1 & Hx2).
  apply Math_min_not_negative; by eapply distanceAtAngle_not_negative.
Qed.

Lemma template_distance_not_negative fuel h useProtractor candidate t d :
  template_distance Math fuel h useProtractor candidate t = Ok d ->
  not_negative d.
Proof.
  unfold template_distance.
  assert (forall r,
    (candidatePoints ← deref h (points candidate);
     distanceAtBestAngle Math fuel h candidatePoints t
       (- ANGLE_RANGE) ANGLE_RANGE ANGLE_PRECISION) = Ok r ->
    not_negative r) as Hangular.
  { intros r. destruct (deref h (points candidate)) as [cp| |];
      cbn [mbind outcome_bind]; [|done..].
    apply distanceAtBestAngle_not_negative. }
  destruct useProtractor; [|apply Hangular].
  destruct (vector candidate) as [cv|]; [|apply Hangular].
  destruct (vector t) as [tv|]; [|apply Hangular].
  intros [= <-]. unfold optimalCosineDistance.
  destruct (optimalCosineDistance_loop _ _ _ _ _) as [a b].
  apply acos_not_negative.
Qed.

Lemma distances_not_negative fuel h useProtractor candidate ts ds :
  distances Math fuel h useProtractor candidate ts = Ok ds ->
  Forall not_negative ds.
Proof.
  revert ds. induction ts as [|t rest IH]; intros ds; cbn [distances].
  - intros [= <-]. constructor.
  - destruct (template_distance Math fuel h useProtractor candidate t)
      as [d| |] eqn:Hd; cbn [mbind outcome_bind]; [|done..].
    destruct (distances Math fuel h useProtractor candidate rest)
      as [ds'| |]; cbn [mbind outcome_bind]; [|done..].
    intros [= <-]. constructor; [|by apply IH].
    by eapply template_distance_not_negative.
Qed.

(** X1: for every result [recognize] returns, for every stroke, every store
    and both matchers, the score is a number between 0 and 1. *)
Theorem recognize_score_range l useProtractor fuel startTime endTime w r :
  (recognize Math l useProtractor fuel startTime endTime w).1 = Ok r ->
  (0 <=? score r) = true /\ (score r <=? 1) = true.
Proof.
  unfold recognize. destruct (heap w !! l) as [pts|]; [|done].
  destruct (length pts <? 2)%nat; [by intros [= <-]|].
  destruct (createTemplate Math "" l fuel (heap w)) as [rc h1].
  destruct rc as [candidate| |]; cbn [fst mbind outcome_bind]; [|done..].
  rewrite recognize_loop_distances.
  destruct (distances Math fuel h1 useProtractor candidate (templates w))
    as [ds| |] eqn:Hds; cbn [mbind outcome_bind]; [|done..].
  pose proof (best_from_spec ds 0 (-1) Infinity) as Hbest.
  destruct (best_from ds 0 (-1) Infinity) as [bm bd].
  destruct Hbest as [(-> & -> & _)|(k & -> & Hlt & Hk & _)].
  - by intros [= <-].
  - change (0 + Z.of_nat k)%Z with (Z.of_nat k).
    destruct (Z.eqb_spec (Z.of_nat k) (-1)) as [|_]; [lia|].
    destruct (templates w !! Z.to_nat (Z.of_nat k)) as [t|]; [|done].
    intros [= <-]. cbn [score].
    assert (not_negative bd) as Hnn.
    { apply distances_not_negative in Hds.
      by eapply (Forall_lookup_1 _ _ _ _ Hds). }
    pose proof (ltb_not_nan _ _ Hlt) as Hnan.
    destruct useProtractor.
    + by apply score_range.
    + assert (exists m e, Prim2SF HALF_DIAGONAL = S754_finite false m e)
        as (m & e & Hc) by (eexists _, _; vm_compute; reflexivity).
      destruct (div_positive_finite bd HALF_DIAGONAL m e Hc Hnn Hlt).
      by apply score_range.
Qed.

(** The score of a result is 0, or [Math.max(0, 1 - q)] for a number [q]
    that is not negative. *)
Lemma recognize_score_cases l useProtractor fuel startTime endTime w r :
  (recognize Math l useProtractor fuel startTime endTime w).1 = Ok r ->
  score r = 0 \/
  exists q, not_negative q /\ is_nan q = false /\
            score r = Math_max 0 (1 - q).
Proof.
  unfold recognize. destruct (heap w !! l) as [pts|]; [|done].
  destruct (length pts <? 2)%nat; [intros [= <-]; by left|].
  destruct (createTemplate Math "" l fuel (heap w)) as [rc h1].
  destruct rc as [candidate| |]; cbn [fst mbind outcome_bind]; [|done..].
  rewrite recognize_loop_distances.
  destruct (distances Math fuel h1 useProtractor candidate (templates w))
    as [ds| |] eqn:Hds; cbn [mbind outcome_bind]; [|done..].
  pose proof (best_from_spec ds 0 (-1) Infinity) as Hbest.
  destruct (best_from ds 0 (-1) Infinity) as [bm bd].
  destruct Hbest as [(-> & -> & _)|(k & -> & Hlt & Hk & _)].
  - intros [= <-]. by left.
  - change (0 + Z.of_nat k)%Z with (Z.of_nat k).
    destruct (Z.eqb_spec (Z.of_nat k) (-1)) as [|_]; [lia|].
    destruct (templates w !! Z.to_nat (Z.of_nat k)) as [t|]; [|done].
    intros [= <-]. cbn [score]. right.
    assert (not_negative bd) as Hnn.
    { apply distances_not_negative in Hds.
      by eapply (Forall_lookup_1 _ _ _ _ Hds). }
    pose proof (ltb_not_nan _ _ Hlt) as Hnan.
    destruct useProtractor; [by exists bd|].
    assert (exists m e, Prim2SF HALF_DIAGONAL = S754_finite false m e)
      as (m & e & Hc) by (eexists _, _; vm_compute; reflexivity).
    destruct (div_positive_finite bd HALF_DIAGONAL m e Hc Hnn Hlt).
    by exists (bd / HALF_DIAGONAL).
Qed.

(** C5: for every result [recognize] returns, for every stroke, every store
    and both matchers, the score lies in the interval from 0 to 1: it is
    not below 0, not above 1, and not NaN.  [Math.acos] is taken to return
    no negative number (its results are NaN or lie between +0 and pi). *)
Theorem recognize_score_unit_interval l useProtractor fuel startTime endTime
    w r :
  (recognize Math l useProtractor fuel startTime endTime w).1 = Ok r ->
  (0 <=? score r) = true /\ (score r <=? 1) = true /\
  is_nan (score r) = false.
Proof.
  intros Hr.
  assert ((0 <=? score r) = true /\ (score r <=? 1) = true) as [Hlow Hhigh].
  { destruct (recognize_score_cases _ _ _ _ _ _ _ Hr)
      as [->|(q & Hnn & Hnan & ->)]; [done|].
    by apply score_range. }
  split; [done|]. split; [done|]. by eapply leb_not_nan.
Qed.

End ScoreRange.

Lemma RefMath_acos_not_negative v : not_negative (Math_acos RefMath.impl v).
Proof.
  unfold not_negative. simpl. unfold RefMath.acos.
  destruct (v =? -1); [reflexivity|].
  rewrite ltb_zero_spec, abs_spec.
  by destruct (Prim2SF _) as [[]|[]| |[] m e].
Qed.

Lemma recognize_score_range_witness :
  res_name result_AB = "A" /\
  (0 <=? score result_AB) = true /\ (score result_AB <=? 1) = true.
Proof.
  split; [vm_compute; reflexivity|].
  apply (recognize_score_range RefMath.impl RefMath_acos_not_negative
           3%positive false 100%nat 0%Z 1%Z store_AB result_AB).
  vm_compute. reflexivity.
Defined.

Lemma recognize_score_unit_interval_witness :
  (recognize RefMath.impl 3%positive false 100 0 1 store_AB).1 = Ok result_AB /\
  (0 <=? score result_AB) = true /\ (score result_AB <=? 1) = true /\
  is_nan (score result_AB) = false.
Proof.
  split; [vm_compute; reflexivity|].
  apply (recognize_score_unit_interval RefMath.impl RefMath_acos_not_negative
           3%positive false 100%nat 0%Z 1%Z store_AB result_AB).
  vm_compute. reflexivity.
Defined.

(** ** The template store *)

Lemma has_name_true n t : has_name n t = true <-> name t = n.
Proof. unfold has_name. by rewrite bool_decide_eq_true. Qed.

Lemma getTemplatesByName_app n ts1 ts2 :
  List.filter (has_name n) (ts1 ++ ts2)
  = List.filter (has_name n) ts1 ++ List.filter (has_name n) ts2.
Proof. apply List.filter_app. Qed.

(** X2: [addGesture] appends one template, under the name given, and returns
    how many templates of that name the store then holds; the templates of
    the other names are as before. *)
Theorem addGesture_appends Math nm l fuel w count :
  (addGesture Math nm l fuel w).1 = Ok count ->
  let w' := (addGesture Math nm l fuel w).2 in
  exists t,
    templates w' = templates w ++ [t] /\ name t = nm /\
    count = S (length (getTemplatesByName nm w)) /\
    getTemplatesByName nm w' = getTemplatesByName nm w ++ [t] /\
    forall other, other <> nm ->
      getTemplatesByName other w' = getTemplatesByName other w.
Proof.
  unfold addGesture.
  destruct (createTemplate Math nm l fuel (heap w)) as [r h1] eqn:Hct.
  pose proof (createTemplate_heap _ _ _ _ _ _ _ Hct) as Hshape.
  destruct r as [t| |]; [|done..]. destruct Hshape as (_ & Hname & _).
  cbn [fst snd]. intros [= <-]. exists t. cbn [templates].
  unfold getTemplatesByName. cbn [templates].
  rewrite !getTemplatesByName_app. cbn [List.filter].
  assert (has_name nm t = true) as -> by by apply has_name_true.
  split; [done|]. split; [done|]. split.
  { rewrite length_app. simpl. lia. }
  split; [done|]. intros other Hother.
  rewrite getTemplatesByName_app. cbn [List.filter].
  assert (has_name other t = false) as ->.
  { apply not_true_is_false. rewrite has_name_true. congruence. }
  by rewrite app_nil_r.
Qed.

Lemma addGesture_appends_witness :
  name <$> getTemplatesByName "A" store_AB = ["A"] /\
  let w' := (addGesture RefMath.impl "A" 3%positive 100 store_AB).2 in
  exists t,
    templates w' = templates store_AB ++ [t] /\ name t = "A" /\
    2%nat = S (length (getTemplatesByName "A" store_AB)) /\
    getTemplatesByName "A" w' = getTemplatesByName "A" store_AB ++ [t] /\
    forall other, other <> "A" ->
      getTemplatesByName other w' = getTemplatesByName other store_AB.
Proof.
  split; [vm_compute; reflexivity|].
  apply (addGesture_appends RefMath.impl "A" 3%positive 100%nat store_AB 2%nat).
  vm_compute. reflexivity.
Defined.

(** X3: [removeTemplatesByName] leaves no template of that name, keeps the
    templates of every other name, in order, touches no array, and does
    nothing when no template has the name. *)
Theorem removeTemplatesByName_spec n w :
  getTemplatesByName n (removeTemplatesByName n w) = [] /\
  (forall other, other <> n ->
     getTemplatesByName other (removeTemplatesByName n w)
     = getTemplatesByName other w) /\
  heap (removeTemplatesByName n w) = heap w /\
  (getTemplatesByName n w = [] -> removeTemplatesByName n w = w) /\
  removeTemplatesByName n (removeTemplatesByName n w)
  = removeTemplatesByName n w.
Proof.
  unfold getTemplatesByName, removeTemplatesByName. cbn [templates heap].
  destruct w as [h ts]. cbn [templates heap].
  split; [|split; [|split; [done|split]]].
  - induction ts as [|t ts IH]; [done|]. cbn [List.filter].
    destruct (has_name n t) eqn:Ht; cbn [negb]; [done|].
    cbn [List.filter]. by rewrite Ht.
  - intros other Hother. induction ts as [|t ts IH]; [done|].
    cbn [List.filter]. destruct (has_name n t) eqn:Ht; cbn [negb].
    + assert (has_name other t = false) as ->; [|done].
      apply not_true_is_false. rewrite has_name_true.
      apply has_name_true in Ht. congruence.
    + cbn [List.filter]. by rewrite IH.
  - intros Hnone. f_equal. induction ts as [|t ts IH]; [done|].
    cbn [List.filter] in *. destruct (has_name n t); [done|].
    cbn [negb]. by rewrite IH.
  - f_equal. induction ts as [|t ts IH]; [done|]. cbn [List.filter].
    destruct (has_name n t) eqn:Ht; cbn [negb]; [done|].
    cbn [List.filter]. rewrite Ht. cbn [negb]. by rewrite IH.
Qed.

(** [spread_set]: what was seen stays in front, nothing is repeated, and
    every name is there. *)
Lemma spread_set_spec seen names :
  NoDup seen ->
  NoDup (spread_set seen names) /\
  (forall n, n ∈ spread_set seen names <-> n ∈ seen \/ n ∈ names) /\
  seen `prefix_of` spread_set seen names.
Proof.
  revert seen. induction names as [|n names IH]; intros seen Hseen; simpl.
  { split; [done|]. split; [|done]. intros n. rewrite elem_of_nil. tauto. }
  destruct (bool_decide (n ∈ seen)) eqn:Hn.
  - apply bool_decide_eq_true in Hn.
    destruct (IH seen Hseen) as (Hnd & Hin & Hpre).
    split; [done|]. split; [|done].
    intros m. rewrite Hin, elem_of_cons. intuition (subst; auto).
  - apply bool_decide_eq_false in Hn.
    destruct (IH (seen ++ [n])) as (Hnd & Hin & Hpre).
    { apply NoDup_app. split; [done|]. split; [|apply NoDup_singleton].
      intros m Hm ->%list_elem_of_singleton. done. }
    split; [done|]. split.
    + intros m. rewrite Hin, elem_of_app, list_elem_of_singleton, elem_of_cons.
      tauto.
    + etrans; [|exact Hpre]. by apply prefix_app_r.
Qed.

(** X4: [getTemplateNames] lists every name that has a template, once. *)
Theorem getTemplateNames_spec w :
  NoDup (getTemplateNames w) /\
  forall n, n ∈ getTemplateNames w <-> getTemplatesByName n w <> [].
Proof.
  unfold getTemplateNames, getTemplatesByName.
  destruct (spread_set_spec [] (name <$> templates w)) as (Hnd & Hin & _);
    [constructor|].
  split; [done|]. intros n. rewrite Hin, elem_of_nil, list_elem_of_fmap.
  split.
  - intros [[]|(t & -> & Ht)]. intros Hnone.
    assert (t ∈ List.filter (has_name (name t)) (templates w)) as Hmem.
    { apply list_elem_of_In, List.filter_In. split; [by apply list_elem_of_In|].
      by apply has_name_true. }
    rewrite Hnone in Hmem. by apply elem_of_nil in Hmem.
  - intros Hsome. right.
    destruct (List.filter (has_name n) (templates w)) as [|t rest] eqn:Hf;
      [done|].
    assert (List.In t (List.filter (has_name n) (templates w))) as Hmem
      by (rewrite Hf; by left).
    apply List.filter_In in Hmem as [Ht Hname].
    exists t. split; [symmetry; by apply has_name_true|by apply list_elem_of_In].
Qed.

(** ** Import *)

(** The test [template.name && template.points && Array.isArray(...)]. *)
Definition importable (e : TemplateEntry) : bool :=
  match entry_name e, entry_points e with
  | Some n, points_array _ => negb (bool_decide (n = ""))
  | _, _ => false
  end.

Lemma forEach_importable Math fuel entries w :
  forEach Math fuel entries w
  = forEach Math fuel (List.filter importable entries) w.
Proof.
  revert w. induction entries as [|e entries IH]; intros w; [done|].
  cbn [List.filter]. unfold importable at 1.
  destruct e as [[n|] [| |l]]; cbn [entry_name entry_points];
    try (cbn [forEach]; unfold importTemplates_callback;
         cbn [entry_name entry_points]; by rewrite IH).
  destruct (bool_decide (n = "")) eqn:Hn; cbn [negb].
  - cbn [forEach]. unfold importTemplates_callback.
    cbn [entry_name entry_points]. rewrite Hn. by rewrite IH.
  - cbn [forEach].
    destruct (importTemplates_callback Math fuel _ w) as [[| |] w']; done.
Qed.

(** X5: [importTemplates] replaces the store: the templates held before have no
    influence on the outcome, and neither have the entries without a name,
    with an empty name, without points, or whose points are no array. *)
Theorem importTemplates_skips Math entries fuel w :
  importTemplates Math entries fuel w
  = importTemplates Math (List.filter importable entries) fuel
      (deleteUserGestures w) /\
  (List.filter importable entries = [] ->
   importTemplates Math entries fuel w = (Ok tt, deleteUserGestures w)).
Proof.
  assert (importTemplates Math entries fuel w
          = importTemplates Math (List.filter importable entries) fuel
              (deleteUserGestures w)) as Heq.
  { unfold importTemplates, deleteUserGestures, loadDefaultTemplates.
    cbn [heap templates]. apply forEach_importable. }
  split; [done|]. intros Hnone. rewrite Heq, Hnone. reflexivity.
Qed.

(** ** Recognition against an empty store *)

(** X6: with no template in the store, as after [deleteUserGestures], every
    result of [recognize] is [{name: "No match", score: 0}], for both
    matchers. *)
Theorem recognize_empty_store Math l useProtractor fuel startTime endTime w r :
  templates w = [] ->
  (recognize Math l useProtractor fuel startTime endTime w).1 = Ok r ->
  r = no_match (endTime - startTime).
Proof.
  intros Hempty. unfold recognize. rewrite Hempty.
  destruct (heap w !! l) as [pts|]; [|done].
  destruct (length pts <? 2)%nat; [by intros [= <-]|].
  destruct (createTemplate Math "" l fuel (heap w)) as [[c| |] h1];
    cbn [fst mbind outcome_bind recognize_loop]; try done.
  change (-1 =? -1)%Z with true. cbv iota. by intros [= <-].
Qed.

Lemma recognize_empty_store_witness :
  let w := deleteUserGestures store_AB in
  let r := {| res_name := "No match"; score := 0; time := 7 |} in
  getTemplateNames w = [] /\ r = no_match (7 - 0).
Proof.
  intros w r. split; [reflexivity|].
  apply (recognize_empty_store RefMath.impl 3%positive false 100%nat 0%Z 7%Z w r).
  - reflexivity.
  - vm_compute. reflexivity.
Defined.

(** ** Point counts in [pathDistance] *)

Lemma pathDistance_loop_short rest1 pts2 i d :
  objects rest1 -> (i <= length pts2 < i + length rest1)%nat ->
  pathDistance_loop rest1 pts2 i d = TypeError.
Proof.
  intros Hobj. revert i d.
  induction Hobj as [|e rest1 [p1 ->] _ IH]; intros i d Hlen; simpl in *; [lia|].
  unfold at_. destruct (pts2 !! i) as [[p2|]|] eqn:Hi; cbn [default]; [|done..].
  apply lookup_lt_Some in Hi. apply IH. lia.
Qed.

Lemma pathDistance_loop_long rest1 pts2 i d :
  objects rest1 -> objects pts2 -> (i + length rest1 <= length pts2)%nat ->
  exists r, pathDistance_loop rest1 pts2 i d = Ok r.
Proof.
  intros Hobj Hobj2. revert i d.
  induction Hobj as [|e rest1 [p1 ->] _ IH]; intros i d Hlen; simpl in *;
    [by eexists|].
  destruct (pts2 !! i) as [e2|] eqn:Hi.
  - destruct (proj1 (Forall_lookup _ _) Hobj2 _ _ Hi) as [p2 ->].
    unfold at_. rewrite Hi. cbn [default]. apply IH. lia.
  - apply lookup_ge_None in Hi. lia.
Qed.

(** X7: [pathDistance(pts1, pts2)] walks the indices of [pts1]: it throws when
    [pts2] has fewer points, and returns a number when [pts2] has at least
    as many. *)
Theorem pathDistance_point_counts pts1 pts2 :
  objects pts1 ->
  ((length pts2 < length pts1)%nat -> pathDistance pts1 pts2 = TypeError) /\
  (objects pts2 -> (length pts1 <= length pts2)%nat ->
   exists d, pathDistance pts1 pts2 = Ok d).
Proof.
  intros Hobj. unfold pathDistance. split.
  - intros Hlen. rewrite pathDistance_loop_short; [done..|]. lia.
  - intros Hobj2 Hlen.
    destruct (pathDistance_loop_long pts1 pts2 0 0 Hobj Hobj2) as [r ->];
      [simpl; lia|]. by eexists.
Qed.

Lemma pathDistance_point_counts_witness :
  ((length stroke_line < length stroke_corner)%nat ->
   pathDistance stroke_corner stroke_line = TypeError) /\
  (objects stroke_line -> (length stroke_corner <= length stroke_line)%nat ->
   exists d, pathDistance stroke_corner stroke_line = Ok d).
Proof.
  apply (pathDistance_point_counts stroke_corner stroke_line).
  repeat constructor; eauto.
Defined.

(** ** What [resample] does to the array it is given *)

Lemma splice_sublist points i q : points `sublist_of` splice points i q.
Proof.
  unfold splice. rewrite <- (take_drop i points) at 1.
  apply sublist_app; [done|]. by apply sublist_cons.
Qed.

Lemma resample_loop_splices fuel interval i points newPoints d :
  let run := resample_loop fuel interval i points newPoints d in
  points `sublist_of` run.2 /\
  forall r, run.1 = Ok r ->
    exists added, r = newPoints ++ added /\
                  length run.2 = (length points + length added)%nat.
Proof.
  revert i points newPoints d.
  induction fuel as [|fuel IH]; intros i points newPoints d; cbn [resample_loop].
  - destruct (negb (i <? length points)%nat); cbn [fst snd].
    + split; [done|]. intros r [= <-]. exists []. rewrite app_nil_r.
      split; [done|]. simpl. lia.
    + split; [done|]. done.
  - destruct (negb (i <? length points)%nat); cbn [fst snd].
    { split; [done|]. intros r [= <-]. exists []. rewrite app_nil_r.
      split; [done|]. simpl. lia. }
    destruct (at_ points (i - 1)) as [p1|]; [|by split].
    destruct (at_ points i) as [p2|]; [|by split].
    destruct (geb _ interval).
    + match goal with
      | |- context [resample_loop fuel interval (S i) (splice points i ?q)
                      (newPoints ++ [Some ?q]) ?d0] =>
          destruct (IH (S i) (splice points i q) (newPoints ++ [Some q]) d0)
            as [Hsub Hcount]
      end.
      split; [etrans; [apply splice_sublist|exact Hsub]|].
      intros r Hr. destruct (Hcount r Hr) as (added & -> & Hlen).
      eexists (_ :: added). rewrite <- app_assoc. split; [done|].
      rewrite Hlen. unfold splice.
      rewrite length_app, length_take. simpl. rewrite length_drop. lia.
    + apply IH.
Qed.

(** X8: [resample] inserts the points it interpolates into the array it was
    given: afterwards that array still holds its points, in order, and as
    many more as the main loop emitted (all the returned points but the
    first, and but the last when the last was topped up); the other arrays
    are as before. *)
Theorem resample_grows_the_array l n fuel (h : gmap loc array) pts newPoints :
  h !! l = Some pts ->
  (resample l n fuel h).1 = Ok newPoints ->
  let h' := (resample l n fuel h).2 in
  (exists pts',
      h' !! l = Some pts' /\ pts `sublist_of` pts' /\
      at_ newPoints 0 = at_ pts 0 /\
      ((length pts' + 1 = length pts + length newPoints)%nat \/
       (length newPoints = n /\
        (length pts' + 2 = length pts + length newPoints)%nat))) /\
  forall l', l' <> l -> h' !! l' = h !! l'.
Proof.
  intros Hl Hrun h'.
  split; [|intros l' Hne; subst h';
           by eapply resample_heap_other; [apply surjective_pairing|]].
  subst h'. revert Hrun. unfold resample. rewrite Hl.
  destruct (pathLength pts) as [len| |]; [|done..].
  pose proof (resample_loop_splices fuel (len / (number_of_nat n - 1)) 1 pts
                [at_ pts 0] 0) as [Hsub Hcount].
  destruct (resample_loop _ _ _ _ _ _) as [r pts']. cbn [fst snd] in *.
  destruct r as [loopPoints| |]; [|done..].
  destruct (Hcount _ eq_refl) as (added & -> & Hlen).
  destruct (S (length ([at_ pts 0] ++ added)) =? n)%nat eqn:Hn.
  - destruct (at_ pts' (length pts' - 1)) as [last|]; [|done].
    cbn [fst snd]. intros [= <-]. exists pts'. rewrite lookup_insert_eq.
    split; [done|]. split; [done|]. split; [done|]. right.
    apply Nat.eqb_eq in Hn. simpl in *. rewrite !length_app in *. simpl in *. lia.
  - cbn [fst snd]. intros [= <-]. exists pts'. rewrite lookup_insert_eq.
    split; [done|]. split; [done|]. split; [done|]. left.
    simpl in *. lia.
Qed.

Lemma resample_grows_the_array_witness :
  let h : gmap loc array := {[ 1%positive := stroke_line ]} in
  let run := resample 1%positive NUM_POINTS 100 h in
  exists newPoints,
    run.1 = Ok newPoints /\ length newPoints = 64%nat /\
    length <$> run.2 !! 1%positive = Some 65%nat /\
    (exists pts',
        run.2 !! 1%positive = Some pts' /\ stroke_line `sublist_of` pts' /\
        at_ newPoints 0 = at_ stroke_line 0 /\
        ((length pts' + 1 = length stroke_line + length newPoints)%nat \/
         (length newPoints = NUM_POINTS /\
          (length pts' + 2 = length stroke_line + length newPoints)%nat))) /\
    forall l', l' <> 1%positive -> run.2 !! l' = h !! l'.
Proof.
  intros h run. eexists. split; [vm_compute; reflexivity|].
  split; [reflexivity|]. split; [vm_compute; reflexivity|].
  apply (resample_grows_the_array 1%positive NUM_POINTS 100%nat h stroke_line);
    [reflexivity|vm_compute; reflexivity].
Defined.

(** ** The template [createTemplate] builds *)

Lemma vectorize_loop_length points vector sum v s :
  vectorize_loop points vector sum = Ok (v, s) ->
  length v = (length vector + 2 * length points)%nat.
Proof.
  revert vector sum.
  induction points as [|[p|] points IH]; intros vector sum; simpl; [| |done].
  - intros [= <- _]. lia.
  - intros H%IH. rewrite length_app in H. simpl in H. lia.
Qed.

Lemma vectorize_length points v :
  vectorize points = Ok v -> length v = (2 * length points)%nat.
Proof.
  unfold vectorize.
  destruct (vectorize_loop points [] 0) as [[vec sum]| |] eqn:H; simpl;
    [|done..].
  intros [= <-]. rewrite length_map. apply vectorize_loop_length in H.
  simpl in H. lia.
Qed.

Lemma normalize_vector Math newPoints processed vec :
  normalize Math newPoints = Ok (processed, vec) ->
  vectorize processed = Ok vec.
Proof.
  unfold normalize.
  destruct (indicativeAngle Math newPoints) as [radians| |]; simpl; [|done..].
  destruct (rotateBy _ _ _) as [rotated| |]; simpl; [|done..].
  destruct (scaleTo rotated _) as [scaled| |]; simpl; [|done..].
  destruct (translateTo scaled _) as [moved| |]; simpl; [|done..].
  destruct (vectorize moved) as [v| |] eqn:Hv; simpl; [|done..].
  by intros [= <- <-].
Qed.

Lemma resample_first l n fuel (h : gmap loc array) newPoints h' :
  resample l n fuel h = (Ok newPoints, h') -> newPoints <> [].
Proof.
  unfold resample. destruct (h !! l) as [pts|]; [|done].
  destruct (pathLength pts) as [len| |]; [|done..].
  pose proof (resample_loop_splices fuel (len / (number_of_nat n - 1)) 1 pts
                [at_ pts 0] 0) as [_ Hcount].
  destruct (resample_loop _ _ _ _ _ _) as [r pts']. cbn [fst snd] in *.
  destruct r as [loopPoints| |]; [|done..].
  destruct (Hcount _ eq_refl) as (added & -> & _).
  destruct (_ =? n)%nat; [destruct (at_ pts' _); [|done]|];
    intros [= <- _]; done.
Qed.

Lemma createTemplate_shape Math nm l fuel (h : gmap loc array) t h' :
  createTemplate Math nm l fuel h = (Ok t, h') ->
  name t = nm /\ h !! points t = None /\
  exists arr v,
    h' !! points t = Some arr /\ vector t = Some v /\
    objects arr /\ arr <> [] /\ length v = (2 * length arr)%nat.
Proof.
  intros Hrun.
  assert (h !! points t = None) as Hnew.
  { pose proof (createTemplate_heap Math _ _ _ _ _ _ Hrun) as (Hfree & _).
    destruct (h !! points t) eqn:Hold; [|done].
    destruct (resample l NUM_POINTS fuel h) as [r0 h1] eqn:Hres.
    eapply resample_heap_dom in Hres; [|by rewrite Hold].
    cbn [snd] in Hfree. rewrite Hfree in Hres. by destruct Hres. }
  revert Hrun. unfold createTemplate.
  destruct (resample l NUM_POINTS fuel h) as [r0 h1] eqn:Hres.
  destruct r0 as [newPoints| |]; cbn [mbind outcome_bind]; [|done..].
  destruct (normalize Math newPoints) as [[processed vec]| |] eqn:Hnorm;
    [|done..].
  intros [= <- <-]. cbn [name points vector] in *.
  split; [done|]. split; [done|]. exists processed, vec.
  rewrite lookup_insert_eq.
  destruct (normalize_length _ _ _ _ Hnorm) as [Hlen Hobj].
  split; [done|]. split; [done|]. split; [done|]. split.
  - apply resample_first in Hres. destruct processed; [|done].
    destruct newPoints; done.
  - apply vectorize_length. by eapply normalize_vector.
Qed.

(** X9: the template built by [createTemplate] has the name given, a non-empty
    array of point objects that did not exist before, and a vector of two
    numbers per point. *)
Theorem createTemplate_template Math nm l fuel (h : gmap loc array) t :
  (createTemplate Math nm l fuel h).1 = Ok t ->
  let h' := (createTemplate Math nm l fuel h).2 in
  name t = nm /\ h !! points t = None /\
  exists arr v,
    h' !! points t = Some arr /\ vector t = Some v /\
    objects arr /\ arr <> [] /\ length v = (2 * length arr)%nat.
Proof.
  intros Hrun h'. apply (createTemplate_shape Math nm l fuel h t h').
  subst h'. rewrite <- Hrun. apply surjective_pairing.
Qed.

Lemma createTemplate_template_witness :
  let h : gmap loc array := {[ 1%positive := stroke_corner ]} in
  let run := createTemplate RefMath.impl "corner" 1%positive 100 h in
  exists t,
    run.1 = Ok t /\
    length <$> run.2 !! points t = Some 64%nat /\
    length <$> vector t = Some 128%nat /\
    name t = "corner" /\ h !! points t = None /\
    exists arr v,
      run.2 !! points t = Some arr /\ vector t = Some v /\
      objects arr /\ arr <> [] /\ length v = (2 * length arr)%nat.
Proof.
  intros h run. eexists. split; [vm_compute; reflexivity|].
  split; [vm_compute; reflexivity|]. split; [vm_compute; reflexivity|].
  apply (createTemplate_template RefMath.impl "corner" 1%positive 100%nat h).
  vm_compute. reflexivity.
Defined.

(** ** Stored templates of fewer points than the stroke's template *)

Section ShorterTemplate.

Variable Math : JSMath.

Lemma distanceAtBestAngle_returns fuel h candidatePoints template :
  (8 <= fuel)%nat ->
  distanceAtBestAngle Math fuel h candidatePoints template
    (- ANGLE_RANGE) ANGLE_RANGE ANGLE_PRECISION <> OutOfFuel.
Proof.
  intros Hfuel. unfold distanceAtBestAngle, golden_search.
  set (f := distanceAtAngle Math h candidatePoints template).
  destruct (f (PHI * - ANGLE_RANGE + (1.0 - PHI) * ANGLE_RANGE))
    as [f1| |] eqn:H1; cbn [mbind outcome_bind];
    [|done|by apply distanceAtAngle_returns in H1].
  destruct (f ((1.0 - PHI) * - ANGLE_RANGE + PHI * ANGLE_RANGE))
    as [f2| |] eqn:H2; cbn [mbind outcome_bind];
    [|done|by apply distanceAtAngle_returns in H2].
  pose proof (golden_loop_settles f ANGLE_PRECISION
                (distanceAtAngle_returns Math h candidatePoints template)
                8 fuel (- ANGLE_RANGE) ANGLE_RANGE
                (PHI * - ANGLE_RANGE + (1.0 - PHI) * ANGLE_RANGE) f1
                ((1.0 - PHI) * - ANGLE_RANGE + PHI * ANGLE_RANGE) f2) as Hstop.
  destruct (golden_loop fuel f _ _ _ _ _ _ _) as [s| |];
    cbn [mbind outcome_bind]; [done..|].
  exfalso. apply Hstop; [|done]. vm_compute. reflexivity.
Qed.

Lemma template_distance_returns fuel h candidate t :
  (8 <= fuel)%nat ->
  template_distance Math fuel h false candidate t <> OutOfFuel.
Proof.
  intros Hfuel. unfold template_distance, deref.
  destruct (h !! points candidate) as [cand|]; cbn [mbind outcome_bind];
    [|done].
  by apply distanceAtBestAngle_returns.
Qed.

Lemma template_distance_shorter fuel (h : gmap loc array) candidate t cand arr :
  h !! points candidate = Some cand -> objects cand ->
  h !! points t = Some arr -> (length arr < length cand)%nat ->
  template_distance Math fuel h false candidate t = TypeError.
Proof.
  intros Hcand Hobj Harr Hlen. unfold template_distance, deref.
  rewrite Hcand. cbn [mbind outcome_bind].
  assert (forall radians, distanceAtAngle Math h cand t radians = TypeError)
    as Hthrows.
  { intros radians. unfold distanceAtAngle.
    destruct (rotateBy_ok Math cand radians Hobj)
      as (rotated & -> & Hrot & Hobj').
    cbn [mbind outcome_bind]. unfold deref. rewrite Harr.
    cbn [mbind outcome_bind]. unfold pathDistance.
    rewrite pathDistance_loop_short; [done..|]. lia. }
  unfold distanceAtBestAngle, golden_search. cbv zeta.
  rewrite !Hthrows. reflexivity.
Qed.

Lemma recognize_loop_throws fuel h candidate t rest i bestMatch bestDistance :
  (8 <= fuel)%nat -> t ∈ rest ->
  template_distance Math fuel h false candidate t = TypeError ->
  recognize_loop Math fuel h false candidate rest i bestMatch bestDistance
  = TypeError.
Proof.
  intros Hfuel Hin Hthrows. revert i bestMatch bestDistance.
  induction rest as [|t' rest IH]; intros i bestMatch bestDistance;
    [by apply elem_of_nil in Hin|].
  cbn [recognize_loop].
  destruct (template_distance Math fuel h false candidate t') as [d| |] eqn:Hd;
    cbn [mbind outcome_bind]; [|done|by apply template_distance_returns in Hd].
  apply elem_of_cons in Hin as [->|Hin]; [congruence|].
  destruct (d <? bestDistance); by apply IH.
Qed.

End ShorterTemplate.

(** X10: with the angular matcher, [recognize] throws as soon as the store holds
    a template of fewer points than the template made of the stroke:
    [pathDistance] reads the stored points at the indices of the stroke's. *)
Theorem recognize_shorter_template Math l fuel startTime endTime w pts
    candidate cand t arr :
  (8 <= fuel)%nat ->
  heap w !! l = Some pts -> (2 <= length pts)%nat ->
  let made := createTemplate Math "" l fuel (heap w) in
  made.1 = Ok candidate ->
  made.2 !! points candidate = Some cand ->
  t ∈ templates w ->
  made.2 !! points t = Some arr ->
  (length arr < length cand)%nat ->
  (recognize Math l false fuel startTime endTime w).1 = TypeError.
Proof.
  intros Hfuel Hl Hpts made Hmade Hcand Hin Harr Hlen.
  unfold recognize. rewrite Hl.
  destruct (length pts <? 2)%nat eqn:Hshort;
    [apply Nat.ltb_lt in Hshort; lia|].
  subst made. destruct (createTemplate Math "" l fuel (heap w)) as [r h1] eqn:Hct.
  cbn [fst snd] in *. subst r. cbn [mbind outcome_bind].
  destruct (createTemplate_shape _ _ _ _ _ _ _ Hct)
    as (_ & _ & cand' & v & Hcand' & _ & Hobj & _).
  rewrite Hcand in Hcand'. injection Hcand' as <-.
  rewrite (recognize_loop_throws Math fuel h1 candidate t); [done..|].
  by eapply template_distance_shorter.
Qed.

Definition stroke_dot : array := [pt 5 5; pt 5 5].

Definition store_dot : world :=
  (addGesture RefMath.impl "dot" 1%positive 100
     (world_of [(1%positive, stroke_dot); (2%positive, stroke_corner)])).2.

Lemma recognize_shorter_template_witness :
  let made := createTemplate RefMath.impl "" 2%positive 100 (heap store_dot) in
  exists candidate cand t arr,
    made.1 = Ok candidate /\
    made.2 !! points candidate = Some cand /\
    templates store_dot = [t] /\
    made.2 !! points t = Some arr /\
    length arr = 2%nat /\ length cand = 64%nat /\
    (recognize RefMath.impl 2%positive false 100 0 1 store_dot).1 = TypeError.
Proof.
  intros made. eexists _, _, _, _.
  split; [vm_compute; reflexivity|]. split; [vm_compute; reflexivity|].
  split; [vm_compute; reflexivity|]. split; [vm_compute; reflexivity|].
  split; [reflexivity|]. split; [reflexivity|].
  eapply (recognize_shorter_template RefMath.impl 2%positive 100%nat 0%Z 1%Z
            store_dot stroke_corner).
  - lia.
  - vm_compute. reflexivity.
  - simpl. lia.
  - vm_compute. reflexivity.
  - vm_compute. reflexivity.
  - assert (templates store_dot = [(_ : GestureTemplate)]) as ->
      by (vm_compute; reflexivity).
    apply list_elem_of_singleton. reflexivity.
  - vm_compute. reflexivity.
  - simpl. lia.
Defined.

(** ** The vector matcher *)




(** ** What [recognize] and [addGesture] leave in place *)

(** X12: when the stroke is not one of the stored point arrays, [recognize]
    leaves the store as it was: the same templates with the same points. *)
Theorem recognize_keeps_the_store Math l useProtractor fuel startTime endTime w :
  Forall (fun t => points t <> l /\ is_Some (heap w !! points t))
         (templates w) ->
  let w' := (recognize Math l useProtractor fuel startTime endTime w).2 in
  templates w' = templates w /\
  Forall (fun t => heap w' !! points t = heap w !! points t) (templates w').
Proof.
  intros Hstore w'.
  destruct (recognize_frame Math l useProtractor fuel startTime endTime w
              _ _ (surjective_pairing _)) as [Hts Hframe].
  fold w' in Hts, Hframe. split; [done|]. rewrite Hts.
  apply Forall_forall. intros t Ht.
  destruct (proj1 (Forall_forall _ _) Hstore t Ht) as [Hne Hsome].
  by apply Hframe.
Qed.

Lemma recognize_keeps_the_store_witness :
  let w' := (recognize RefMath.impl 3%positive false 100 0 1 store_AB).2 in
  length <$> heap store_AB !! 3%positive = Some 3%nat /\
  length <$> heap w' !! 3%positive = Some 66%nat /\
  templates w' = templates store_AB /\
  Forall (fun t => heap w' !! points t = heap store_AB !! points t)
         (templates w').
Proof.
  intros w'. split; [vm_compute; reflexivity|].
  split; [vm_compute; reflexivity|].
  apply (recognize_keeps_the_store RefMath.impl 3%positive false 100%nat
           0%Z 1%Z store_AB).
  assert (Forall (fun t => good_array (heap store_AB) (points t))
                 (templates store_AB)) as Hok by exact store_AB_ok.
  assert (points <$> templates store_AB = [4; 5]%positive) as Hp
    by (vm_compute; reflexivity).
  destruct (templates store_AB) as [|a [|b [|c rest]]]; try done.
  injection Hp as Ha Hb.
  apply Forall_cons in Hok as [(arra & Hla & _) Hok].
  apply Forall_cons in Hok as [(arrb & Hlb & _) _].
  constructor; [split; [by rewrite Ha|by rewrite Hla]|].
  constructor; [split; [by rewrite Hb|by rewrite Hlb]|constructor].
Defined.



(** ** Distances *)

(** X14: no distance the recognizer computes between points or paths is
    negative. *)
Theorem distances_are_not_negative :
  (forall p q, (distance p q <? 0) = false) /\
  (forall points len, pathLength points = Ok len -> (len <? 0) = false) /\
  (forall pts1 pts2 d, pathDistance pts1 pts2 = Ok d -> (d <? 0) = false).
Proof.
  split; [exact distance_not_negative|].
  split; [exact pathLength_not_negative|exact pathDistance_not_negative].
Qed.

(** * The gesture capture (gesture-capture.ts)

    The listeners of [GestureCapture] as functions on the object's state.
    Of the document the state keeps the cursor of [document.body] and the
    number of SVG overlays this object has appended to [document.body] and
    not removed.  An event carries what the handlers read of it; the value
    of [shouldIgnoreTarget(event.target)], a query on the DOM, comes with
    the event, and so does the reading of [Date.now()] that the handler
    makes (each handler makes at most one). *)
Module GestureCapture.

Record ModifierKeys := {
  alt : bool; shift : bool; ctrl : bool; meta : bool
}.

Record GestureCaptureSettings := {
  modifierKeys : ModifierKeys;
  minStrokeLength : float;
  maxStrokeTime : float;
  enableVisualFeedback : bool
}.

(** [Partial<GestureCaptureSettings>] *)
Record PartialSettings := {
  new_modifierKeys : option ModifierKeys;
  new_minStrokeLength : option float;
  new_maxStrokeTime : option float;
  new_enableVisualFeedback : option bool
}.

Record GestureStroke := {
  points : list Point;
  stroke_startTime : float;
  endTime : float;
  modifiers : ModifierKeys
}.

Record KeyboardEvent := {
  altKey : bool; shiftKey : bool; ctrlKey : bool; metaKey : bool;
  key : string;
  key_target_ignored : bool
}.

Record MouseEvent := {
  clientX : float; clientY : float;
  mouse_target_ignored : bool
}.

(** [visualElement] is [None] for [null]; otherwise it holds the points of
    the path the overlay shows. *)
Record state := {
  isCapturing : bool;
  currentStroke : list Point;
  startTime : float;
  settings : GestureCaptureSettings;
  visualElement : option (list Point);
  lastPoint : option Point;
  modifierPressed : bool;
  hasMovedWhilePressed : bool;
  cursor : string;
  overlays : nat
}.

Definition constructor (settings : GestureCaptureSettings) (cursor : string)
  : state :=
  {| isCapturing := false; currentStroke := []; startTime := 0;
     settings := settings; visualElement := None; lastPoint := None;
     modifierPressed := false; hasMovedWhilePressed := false;
     cursor := cursor; overlays := 0 |}.

Definition updateSettings (s : state) (new : PartialSettings) : state :=
  let old := settings s in
  {| isCapturing := isCapturing s; currentStroke := currentStroke s;
     startTime := startTime s;
     settings :=
       {| modifierKeys := default (modifierKeys old) (new_modifierKeys new);
          minStrokeLength :=
            default (minStrokeLength old) (new_minStrokeLength new);
          maxStrokeTime := default (maxStrokeTime old) (new_maxStrokeTime new);
          enableVisualFeedback :=
            default (enableVisualFeedback old) (new_enableVisualFeedback new) |};
     visualElement := visualElement s; lastPoint := lastPoint s;
     modifierPressed := modifierPressed s;
     hasMovedWhilePressed := hasMovedWhilePressed s;
     cursor := cursor s; overlays := overlays s |}.

Definition areModifierKeysPressed (s : state) (event : KeyboardEvent) : bool :=
  let required := modifierKeys (settings s) in
  let isAltGraph := bool_decide (key event = "AltGraph") in
  let altGraphMatches := isAltGraph && alt required && ctrl required in
  (negb (alt required) || altKey event || altGraphMatches) &&
  (negb (shift required) || shiftKey event) &&
  (negb (ctrl required) || ctrlKey event || altGraphMatches) &&
  (negb (meta required) || metaKey event).

Definition getDistance (p1 p2 : Point) : float :=
  let dx := x p2 - x p1 in
  let dy := y p2 - y p1 in
  Math_sqrt (dx * dx + dy * dy).

(** The loop of [calculateStrokeLength] from [i = 1], [prev] being
    [points[i - 1]]. *)
Fixpoint calculateStrokeLength_loop (prev : Point) (rest : list Point)
    (length : float) : float :=
  match rest with
  | [] => length
  | cur :: rest' =>
      calculateStrokeLength_loop cur rest' (length + getDistance prev cur)
  end.

Definition calculateStrokeLength (points : list Point) : float :=
  match points with
  | [] => 0
  | first :: rest => calculateStrokeLength_loop first rest 0
  end.

Definition handleKeyDown (s : state) (event : KeyboardEvent) : state :=
  if areModifierKeysPressed s event then
    if negb (modifierPressed s) then
      {| isCapturing := isCapturing s; currentStroke := currentStroke s;
         startTime := startTime s; settings := settings s;
         visualElement := visualElement s; lastPoint := lastPoint s;
         modifierPressed := true;
         hasMovedWhilePressed := false;
         cursor := if negb (key_target_ignored event) then "crosshair"
                   else cursor s;
         overlays := overlays s |}
    else s
  else s.

(** [updateVisualPath] *)
Definition updateVisualPath (s : state) : state :=
  match visualElement s with
  | None => s
  | Some _ =>
      if (length (currentStroke s) <? 1)%nat then s
      else
        {| isCapturing := isCapturing s; currentStroke := currentStroke s;
           startTime := startTime s; settings := settings s;
           visualElement := Some (currentStroke s);
           lastPoint := lastPoint s; modifierPressed := modifierPressed s;
           hasMovedWhilePressed := hasMovedWhilePressed s;
           cursor := cursor s; overlays := overlays s |}
  end.

Definition createVisualFeedback (s : state) : state :=
  updateVisualPath
    {| isCapturing := isCapturing s; currentStroke := currentStroke s;
       startTime := startTime s; settings := settings s;
       visualElement := Some [];
       lastPoint := lastPoint s; modifierPressed := modifierPressed s;
       hasMovedWhilePressed := hasMovedWhilePressed s;
       cursor := cursor s; overlays := S (overlays s) |}.

Definition updateVisualFeedback (s : state) : state :=
  match visualElement s with
  | None => s
  | Some _ => updateVisualPath s
  end.

Definition removeVisualFeedback (s : state) : state :=
  match visualElement s with
  | Some _ =>
      {| isCapturing := isCapturing s; currentStroke := currentStroke s;
         startTime := startTime s; settings := settings s;
         visualElement := None;
         lastPoint := lastPoint s; modifierPressed := modifierPressed s;
         hasMovedWhilePressed := hasMovedWhilePressed s;
         cursor := cursor s; overlays := pred (overlays s) |}
  | None => s
  end.

Definition startCapture (s : state) (startPoint : Point) (now : float)
  : state :=
  let s1 :=
    {| isCapturing := true; currentStroke := [startPoint];
       startTime := now; settings := settings s;
       visualElement := visualElement s;
       lastPoint := Some startPoint; modifierPressed := modifierPressed s;
       hasMovedWhilePressed := hasMovedWhilePressed s;
       cursor := cursor s; overlays := overlays s |} in
  if enableVisualFeedback (settings s1) then createVisualFeedback s1 else s1.

Definition stopCapture (s : state) : state :=
  let s1 :=
    {| isCapturing := false; currentStroke := [];
       startTime := startTime s; settings := settings s;
       visualElement := visualElement s;
       lastPoint := None; modifierPressed := modifierPressed s;
       hasMovedWhilePressed := hasMovedWhilePressed s;
       cursor := ""; overlays := overlays s |} in
  match visualElement s1 with
  | Some _ => removeVisualFeedback s1
  | None => s1
  end.

(** [completeCapture]; the second component lists the calls of
    [onGestureComplete]. *)
Definition completeCapture (s : state) (now : float)
  : state * list GestureStroke :=
  if (length (currentStroke s) <? 2)%nat then (stopCapture s, [])
  else
    let strokeLength := calculateStrokeLength (currentStroke s) in
    if strokeLength <? minStrokeLength (settings s) then (stopCapture s, [])
    else
      let endTime := now in
      let modifiers :=
        {| alt := alt (modifierKeys (settings s));
           shift := shift (modifierKeys (settings s));
           ctrl := ctrl (modifierKeys (settings s));
           meta := meta (modifierKeys (settings s)) |} in
      let stroke :=
        {| points := currentStroke s;
           stroke_startTime := startTime s;
           endTime := endTime;
           modifiers := modifiers |} in
      (stopCapture s, [stroke]).

Definition handleMouseMove (s : state) (event : MouseEvent) (now : float)
  : state :=
  if negb (modifierPressed s) then s
  else if mouse_target_ignored event then s
  else
    let point := {| x := clientX event; y := clientY event |} in
    if negb (isCapturing s) then startCapture s point now
    else
      let far :=
        match lastPoint s with
        | None => true
        | Some last => gtb (getDistance point last) 2
        end in
      let s1 :=
        if far then
          let s' :=
            {| isCapturing := isCapturing s;
               currentStroke := currentStroke s ++ [point];
               startTime := startTime s; settings := settings s;
               visualElement := visualElement s;
               lastPoint := Some point; modifierPressed := modifierPressed s;
               hasMovedWhilePressed := true;
               cursor := cursor s; overlays := overlays s |} in
          if enableVisualFeedback (settings s') then updateVisualFeedback s'
          else s'
        else s in
      if gtb (now - startTime s1) (maxStrokeTime (settings s1))
      then stopCapture s1 else s1.

Definition handleKeyUp (s : state) (event : KeyboardEvent) (now : float)
  : state * list GestureStroke :=
  if negb (areModifierKeysPressed s event) then
    let s1 :=
      {| isCapturing := isCapturing s; currentStroke := currentStroke s;
         startTime := startTime s; settings := settings s;
         visualElement := visualElement s; lastPoint := lastPoint s;
         modifierPressed := false;
         hasMovedWhilePressed := hasMovedWhilePressed s;
         cursor := ""; overlays := overlays s |} in
    if isCapturing s1 && hasMovedWhilePressed s1 then completeCapture s1 now
    else if isCapturing s1 then (stopCapture s1, [])
    else (s1, [])
  else (s, []).

(** [disable()], as far as the state goes. *)
Definition disable (s : state) : state := stopCapture s.

(** What may happen to the object once constructed. *)
Inductive event :=
| keydown (e : KeyboardEvent)
| keyup (e : KeyboardEvent) (now : float)
| mousemove (e : MouseEvent) (now : float)
| call_updateSettings (new : PartialSettings)
| call_disable.

Definition step (s : state) (e : event) : state * list GestureStroke :=
  match e with
  | keydown e => (handleKeyDown s e, [])
  | keyup e now => handleKeyUp s e now
  | mousemove e now => (handleMouseMove s e now, [])
  | call_updateSettings new => (updateSettings s new, [])
  | call_disable => (disable s, [])
  end.

(** The state after the events, and the strokes delivered on the way. *)
Fixpoint run (s : state) (events : list event) : state * list GestureStroke :=
  match events with
  | [] => (s, [])
  | e :: rest =>
      let '(s1, out1) := step s e in
      let '(s2, out2) := run s1 rest in
      (s2, out1 ++ out2)
  end.

End GestureCapture.

Section CaptureFacts.

Import GestureCapture.

(** Consecutive points are more than 2 apart, as [handleMouseMove] measures
    it: [getDistance(point, lastPoint) > 2]. *)
Definition spaced (l : list Point) : Prop :=
  forall i p q, l !! i = Some p -> l !! S i = Some q ->
                gtb (getDistance q p) 2 = true.

(** What holds of the object between two events. *)
Record capture_invariant (s : state) : Prop := {
  inv_idle : isCapturing s = false ->
             currentStroke s = [] /\ lastPoint s = None /\
             visualElement s = None;
  inv_capturing : isCapturing s = true ->
                  currentStroke s <> [] /\
                  lastPoint s = last (currentStroke s) /\
                  spaced (currentStroke s);
  inv_overlays : overlays s = match visualElement s with
                             | Some _ => 1%nat
                             | None => 0%nat
                             end;
  inv_path : forall path, visualElement s = Some path ->
                          path `prefix_of` currentStroke s
}.

(** What holds of a stroke handed to [onGestureComplete] under the
    settings [st]. *)
Definition delivered (st : GestureCaptureSettings) (stroke : GestureStroke)
  : Prop :=
  (2 <= length (points stroke))%nat /\
  spaced (points stroke) /\
  (calculateStrokeLength (points stroke) <? minStrokeLength st) = false /\
  modifiers stroke = modifierKeys st.

Lemma spaced_singleton p : spaced [p].
Proof. intros [|i] a b Ha Hb; simpl in *; done. Qed.

Lemma spaced_snoc l lp point :
  spaced l -> last l = Some lp ->
  gtb (getDistance point lp) 2 = true ->
  spaced (l ++ [point]).
Proof.
  intros Hl Hlast Hfar i p q Hp Hq.
  destruct (decide (S i < length l)%nat) as [Hin|Hout].
  - rewrite lookup_app_l in Hp by lia. rewrite lookup_app_l in Hq by lia.
    by eapply Hl.
  - assert (S i = length l) as Hi.
    { apply lookup_lt_Some in Hq. rewrite length_app in Hq. simpl in Hq. lia. }
    rewrite lookup_app_l in Hp by lia.
    rewrite lookup_app_r in Hq by lia.
    rewrite Hi, Nat.sub_diag in Hq. injection Hq as <-.
    rewrite last_lookup, <- Hi in Hlast. simpl in Hlast. congruence.
Qed.

Lemma constructor_invariant st c : capture_invariant (constructor st c).
Proof. by constructor. Qed.

Lemma stopCapture_invariant s : capture_invariant s -> capture_invariant (stopCapture s).
Proof.
  intros [_ _ Hov _]. unfold stopCapture, removeVisualFeedback. cbn.
  destruct (visualElement s) as [path|] eqn:Hv; cbn; rewrite ?Hv;
    constructor; cbn; try done.
  - by rewrite Hov.
Qed.

Lemma stopCapture_idle s : isCapturing (stopCapture s) = false.
Proof.
  unfold stopCapture, removeVisualFeedback. cbn.
  by destruct (visualElement s).
Qed.

Lemma updateSettings_invariant s new :
  capture_invariant s -> capture_invariant (updateSettings s new).
Proof. intros [? ? ? ?]. by constructor. Qed.

Lemma handleKeyDown_invariant s e : capture_invariant s -> capture_invariant (handleKeyDown s e).
Proof.
  intros Hinv. unfold handleKeyDown.
  destruct (areModifierKeysPressed s e); [|done].
  destruct (negb (modifierPressed s)); [|done].
  destruct Hinv. by constructor.
Qed.

Lemma startCapture_invariant s p now :
  capture_invariant s -> isCapturing s = false -> capture_invariant (startCapture s p now).
Proof.
  intros [Hidle _ Hov _] Hno. destruct (Hidle Hno) as (_ & _ & Hv).
  unfold startCapture, createVisualFeedback, updateVisualPath. cbn.
  rewrite Hv in Hov.
  destruct (enableVisualFeedback (settings s)); cbn; rewrite ?Hv;
    constructor; cbn; try done.
  - by rewrite Hov.
  - by intros path [= <-].
Qed.

Lemma handleMouseMove_invariant s e now :
  capture_invariant s -> capture_invariant (handleMouseMove s e now).
Proof.
  intros Hinv. unfold handleMouseMove.
  destruct (negb (modifierPressed s)); [done|].
  destruct (mouse_target_ignored e); [done|].
  destruct (isCapturing s) eqn:Hcap; cbn [negb];
    [|by apply startCapture_invariant].
  match goal with
  | |- capture_invariant (if _ then stopCapture ?s1 else ?s1) =>
      assert (capture_invariant s1) as Hs1
  end.
  { pose proof Hinv as [_ Hc Hov Hpath].
    destruct (Hc Hcap) as (Hne & Hlast & Hsp).
    destruct (lastPoint s) as [lp|] eqn:Hlp;
      [|by destruct (currentStroke s) using rev_ind;
           [|rewrite last_snoc in Hlast]].
    destruct (gtb _ 2) eqn:Hfar; [|done].
    unfold updateVisualFeedback, updateVisualPath. cbn.
    assert (spaced (currentStroke s ++ [{| x := clientX e; y := clientY e |}]))
      as Hsp' by by eapply spaced_snoc.
    assert ((length (currentStroke s ++ [{| x := clientX e; y := clientY e |}])
             <? 1)%nat = false) as Hlen.
    { apply Nat.ltb_ge. rewrite length_app. simpl. lia. }
    assert ((length (currentStroke s ++ [{| x := clientX e; y := clientY e |}])
             <=? 0)%nat = false) as Hlen'.
    { apply Nat.leb_gt. rewrite length_app. simpl. lia. }
    destruct (enableVisualFeedback (settings s)); cbn;
      destruct (visualElement s) as [path|] eqn:Hv; cbn;
      rewrite ?Hlen, ?Hlen';
      constructor; cbn; rewrite ?Hv; try done;
      try (intros _; split; [by destruct (currentStroke s)|];
           split; [by rewrite last_snoc|done]).
    - by intros ? [= <-].
    - intros ? [= <-]. by apply prefix_app_r, Hpath. }
  destruct (gtb _ _); [by apply stopCapture_invariant|done].
Qed.

Lemma completeCapture_spec s now :
  capture_invariant s -> isCapturing s = true ->
  let run := completeCapture s now in
  capture_invariant run.1 /\ isCapturing run.1 = false /\
  (length run.2 <= 1)%nat /\
  Forall (fun stroke => delivered (settings s) stroke /\
                        points stroke = currentStroke s /\
                        stroke_startTime stroke = startTime s /\
                        endTime stroke = now) run.2.
Proof.
  intros Hinv Hcap run. subst run. unfold completeCapture.
  pose proof (stopCapture_invariant s Hinv) as Hstop.
  pose proof (stopCapture_idle s) as Hidle.
  destruct (length (currentStroke s) <? 2)%nat eqn:Hshort; cbn [fst snd];
    [split; [done|split; [done|split; [simpl; lia|constructor]]]|].
  destruct (_ <? minStrokeLength (settings s)) eqn:Hmin; cbn [fst snd];
    [split; [done|split; [done|split; [simpl; lia|constructor]]]|].
  split; [done|]. split; [done|]. split; [simpl; lia|].
  constructor; [|done]. unfold delivered. cbn. split; [|done].
  split; [apply Nat.ltb_ge in Hshort; lia|].
  split; [by apply (inv_capturing s Hinv)|]. split; [done|].
  by destruct (modifierKeys (settings s)).
Qed.

Lemma handleKeyUp_spec s e now :
  capture_invariant s ->
  let run := handleKeyUp s e now in
  capture_invariant run.1 /\ (length run.2 <= 1)%nat /\
  Forall (delivered (settings s)) run.2.
Proof.
  intros Hinv run. subst run. unfold handleKeyUp.
  destruct (negb (areModifierKeysPressed s e)); cbn [fst snd];
    [|split; [done|split; [simpl; lia|constructor]]].
  match goal with
  | |- context [isCapturing ?s1 && _] =>
      assert (capture_invariant s1) as Hs1 by (destruct Hinv; by constructor);
      set (s' := s1) in *
  end.
  destruct (isCapturing s') eqn:Hcap; cbn [andb].
  - destruct (hasMovedWhilePressed s').
    + destruct (completeCapture_spec s' now Hs1 Hcap) as (Hi & _ & Hlen & Hout).
      split; [done|]. split; [done|].
      eapply Forall_impl; [exact Hout|]. by intros stroke [? _].
    + cbn [fst snd]. split; [by apply stopCapture_invariant|].
      split; [simpl; lia|constructor].
  - split; [done|]. split; [simpl; lia|constructor].
Qed.

Lemma step_spec s e :
  capture_invariant s ->
  capture_invariant (step s e).1 /\ (length (step s e).2 <= 1)%nat /\
  Forall (delivered (settings s)) (step s e).2.
Proof.
  intros Hinv. destruct e as [e|e now|e now|new|]; cbn [step fst snd].
  - split; [by apply handleKeyDown_invariant|].
    split; [simpl; lia|constructor].
  - by apply handleKeyUp_spec.
  - split; [by apply handleMouseMove_invariant|].
    split; [simpl; lia|constructor].
  - split; [by apply updateSettings_invariant|].
    split; [simpl; lia|constructor].
  - split; [by apply stopCapture_invariant|].
    split; [simpl; lia|constructor].
Qed.

(** Whether the event is a call of [updateSettings]. *)
Definition changes_settings (e : event) : bool :=
  match e with call_updateSettings _ => true | _ => false end.

Lemma step_settings s e :
  changes_settings e = false -> settings (step s e).1 = settings s.
Proof.
  destruct e as [e|e now|e now|new|]; intros Hno; try done;
    cbn [step fst].
  - unfold handleKeyDown. by repeat case_match.
  - unfold handleKeyUp, completeCapture, stopCapture, removeVisualFeedback.
    by repeat (case_match; cbn).
  - unfold handleMouseMove, startCapture, createVisualFeedback,
      updateVisualFeedback, updateVisualPath, stopCapture, removeVisualFeedback.
    by repeat (case_match; cbn).
  - unfold disable, stopCapture, removeVisualFeedback.
    by repeat (case_match; cbn).
Qed.

Lemma run_spec s events :
  capture_invariant s ->
  capture_invariant (run s events).1 /\
  Forall (fun stroke => (2 <= length (points stroke))%nat /\
                        spaced (points stroke)) (run s events).2 /\
  (forallb (fun e => negb (changes_settings e)) events = true ->
   settings (run s events).1 = settings s /\
   Forall (delivered (settings s)) (run s events).2).
Proof.
  revert s. induction events as [|e events IH]; intros s Hinv; cbn [run].
  { split; [done|]. split; [constructor|]. intros _. split; [done|constructor]. }
  destruct (step_spec s e Hinv) as (Hinv1 & _ & Hout1).
  pose proof (step_settings s e) as Hset.
  destruct (step s e) as [s1 out1]. cbn [fst snd] in *.
  destruct (IH s1 Hinv1) as (Hinv2 & Hout2 & Hfixed).
  destruct (run s1 events) as [s2 out2]. cbn [fst snd] in *.
  split; [done|]. split.
  - apply Forall_app. split; [|done].
    eapply Forall_impl; [exact Hout1|]. by intros stroke (? & ? & _).
  - cbn [forallb]. intros [He Hrest]%andb_true_iff.
    apply negb_true_iff in He. destruct (Hfixed Hrest) as [Hs2 Hd2].
    rewrite Hset in Hs2, Hd2 by done. split; [done|].
    apply Forall_app. by split.
Qed.




(** X17: whatever events reach a [GestureCapture], it has at most one
    overlay attached to the document, and none when no capture is in
    progress; then the stroke is empty as well.  An overlay shows a prefix
    of the current stroke. *)
Theorem capture_overlay st c events :
  let s := (run (constructor st c) events).1 in
  (overlays s <= 1)%nat /\
  (isCapturing s = false ->
   overlays s = 0%nat /\ visualElement s = None /\ currentStroke s = [] /\
   lastPoint s = None) /\
  (forall path, visualElement s = Some path ->
                isCapturing s = true /\ path `prefix_of` currentStroke s).
Proof.
  intros s. subst s.
  destruct (run_spec (constructor st c) events (constructor_invariant st c))
    as ([Hidle Hcap Hov Hpath] & _).
  set (s := (run (constructor st c) events).1) in *.
  split; [rewrite Hov; destruct (visualElement s); lia|]. split.
  - intros Hno. destruct (Hidle Hno) as (Hs & Hl & Hv).
    rewrite Hov, Hv. done.
  - intros path Hv. split; [|by apply Hpath].
    destruct (isCapturing s) eqn:Hc; [done|].
    destruct (Hidle eq_refl) as (_ & _ & Hv'). congruence.
Qed.

End CaptureFacts.

(** A run of the capture: Alt goes down, the mouse moves along a line, Alt
    goes up. *)
Definition capture_example : list GestureCapture.event :=
  let alt_down := {| GestureCapture.altKey := true;
                     GestureCapture.shiftKey := false;
                     GestureCapture.ctrlKey := false;
                     GestureCapture.metaKey := false;
                     GestureCapture.key := "Alt";
                     GestureCapture.key_target_ignored := false |} in
  let alt_up := {| GestureCapture.altKey := false;
                   GestureCapture.shiftKey := false;
                   GestureCapture.ctrlKey := false;
                   GestureCapture.metaKey := false;
                   GestureCapture.key := "Alt";
                   GestureCapture.key_target_ignored := false |} in
  let move a b := {| GestureCapture.clientX := a; GestureCapture.clientY := b;
                     GestureCapture.mouse_target_ignored := false |} in
  [GestureCapture.keydown alt_down;
   GestureCapture.mousemove (move 0 0) 1000;
   GestureCapture.mousemove (move 1 0) 1010;
   GestureCapture.mousemove (move 40 0) 1020;
   GestureCapture.mousemove (move 80 0) 1030;
   GestureCapture.keyup alt_up 1040].

Definition capture_settings : GestureCapture.GestureCaptureSettings :=
  {| GestureCapture.modifierKeys :=
       {| GestureCapture.alt := true; GestureCapture.shift := false;
          GestureCapture.ctrl := false; GestureCapture.meta := false |};
     GestureCapture.minStrokeLength := 50;
     GestureCapture.maxStrokeTime := 3000;
     GestureCapture.enableVisualFeedback := true |}.

Lemma capture_example_run :
  GestureCapture.points <$>
    (GestureCapture.run (GestureCapture.constructor capture_settings "")
       capture_example).2
  = [[{| x := 0; y := 0 |}; {| x := 40; y := 0 |}; {| x := 80; y := 0 |}]].
Proof. vm_compute. reflexivity. Qed.

(** * The plugin (main.ts)

    [handleGestureComplete] and [reloadGestures], on the recognizer's store
    and the settings.  What the plugin does to the application is listed as
    effects: the commands it executes and the notices it shows. *)
Module Plugin.

Record GestureMapping := {
  id : string;
  gestureName : string;
  commandId : string;
  commandName : string;
  enabled : bool;
  minScore : float;
  originalPoints : option loc
}.

Record GestureCommanderSettings := {
  modifierKeys : GestureCapture.ModifierKeys;
  minStrokeLength : float;
  maxStrokeTime : float;
  enableVisualFeedback : bool;
  gestureMappings : list GestureMapping;
  recognitionThreshold : float;
  useProtractor : bool
}.

(** The four notices of main.ts, with the values they are formatted from. *)
Inductive notice :=
| Command_executed (commandName : string) (score : float)
| no_command_mapped (name : string) (score : float)
| Gesture_not_recognized (score : float)
| Command_not_found (commandId : string).

Inductive effect :=
| executeCommandById (commandId : string)
| Notice (n : notice).

(** [executeCommand(commandId)]; [commands] lists the ids under which the
    application holds a command. *)
Definition executeCommand (commands : list string) (commandId : string)
  : list effect :=
  if bool_decide (commandId ∈ commands) then [executeCommandById commandId]
  else [Notice (Command_not_found commandId)].

(** The callback of [gestureMappings.find] in [handleGestureComplete]. *)
Definition matches (result : RecognitionResult) (m : GestureMapping) : bool :=
  enabled m && bool_decide (gestureName m = res_name result) &&
  geb (score result) (minScore m).

(** [handleGestureComplete] from the result of [recognize] on. *)
Definition dispatch (settings : GestureCommanderSettings)
    (commands : list string) (result : RecognitionResult) : list effect :=
  if geb (score result) (recognitionThreshold settings) then
    match List.find (matches result) (gestureMappings settings) with
    | Some mapping =>
        executeCommand commands (commandId mapping) ++
        [Notice (Command_executed (commandName mapping) (score result))]
    | None => [Notice (no_command_mapped (res_name result) (score result))]
    end
  else [Notice (Gesture_not_recognized (score result))].

Section Handlers.

Variable Math : JSMath.

(** [handleGestureComplete(stroke)], [points] being [stroke.points]. *)
Definition handleGestureComplete (settings : GestureCommanderSettings)
    (commands : list string) (points : loc) (fuel : nat)
    (startTime endTime : Z) (w : world) : outcome (list effect) * world :=
  let '(r, w') :=
    recognize Math points (useProtractor settings) fuel startTime endTime w in
  (result ← r; Ok (dispatch settings commands result), w').

(** The callback [stroke => this.handleGestureComplete(stroke)] given to
    the capture: [stroke.points] is the array [[...this.currentStroke]], a
    new array of point objects. *)
Definition onGestureComplete (settings : GestureCommanderSettings)
    (commands : list string) (stroke : GestureCapture.GestureStroke)
    (fuel : nat) (startTime endTime : Z) (w : world)
  : outcome (list effect) * world :=
  let l := fresh (dom (heap w)) in
  handleGestureComplete settings commands l fuel startTime endTime
    {| heap := <[l := Some <$> GestureCapture.points stroke]> (heap w);
       templates := templates w |}.

(** The callback of [gestureMappings.forEach] in [reloadGestures]. *)
Definition reloadGestures_callback (fuel : nat) (mapping : GestureMapping)
    (w : world) : outcome unit * world :=
  match originalPoints mapping with
  | None => (Ok tt, w)
  | Some l =>
      match heap w !! l with
      | None => (TypeError, w)
      | Some arr =>
          if (0 <? length arr)%nat then
            let '(r, w') := addGesture Math (gestureName mapping) l fuel w in
            (_ ← r; Ok tt, w')
          else (Ok tt, w)
      end
  end.

Fixpoint reloadGestures_forEach (fuel : nat) (mappings : list GestureMapping)
    (w : world) : outcome unit * world :=
  match mappings with
  | [] => (Ok tt, w)
  | mapping :: rest =>
      match reloadGestures_callback fuel mapping w with
      | (Ok _, w') => reloadGestures_forEach fuel rest w'
      | (TypeError, w') => (TypeError, w')
      | (OutOfFuel, w') => (OutOfFuel, w')
      end
  end.

Definition reloadGestures (settings : GestureCommanderSettings) (fuel : nat)
    (w : world) : outcome unit * world :=
  let w := deleteUserGestures w in
  let w := removeTemplatesByName "circle" w in
  let w := removeTemplatesByName "triangle" w in
  reloadGestures_forEach fuel (gestureMappings settings) w.

End Handlers.

End Plugin.

(** ** Which command a gesture executes *)

Lemma find_first {A} (f : A -> bool) (l : list A) (a : A) :
  List.find f l = Some a <->
  exists i, l !! i = Some a /\ f a = true /\
            forall j b, (j < i)%nat -> l !! j = Some b -> f b = false.
Proof.
  induction l as [|c l IH]; cbn [List.find].
  { split; [done|]. by intros (i & Hi & _). }
  destruct (f c) eqn:Hc.
  - split.
    + intros [= <-]. exists 0%nat. split; [done|]. split; [done|]. lia.
    + intros ([|i] & Hi & Ha & Hfirst).
      * simpl in Hi. congruence.
      * specialize (Hfirst 0%nat c). simpl in Hfirst.
        rewrite Hfirst in Hc by (done || lia). done.
  - rewrite IH. split.
    + intros (i & Hi & Ha & Hfirst). exists (S i). split; [done|].
      split; [done|]. intros [|j] b Hj Hb.
      * simpl in Hb. congruence.
      * apply (Hfirst j); [lia|done].
    + intros ([|i] & Hi & Ha & Hfirst).
      * simpl in Hi. congruence.
      * exists i. split; [done|]. split; [done|]. intros j b Hj Hb.
        apply (Hfirst (S j)); [lia|done].
Qed.

Section Dispatch.

Import Plugin.

Definition is_execution (e : effect) : bool :=
  match e with executeCommandById _ => true | Notice _ => false end.

(** X18: when [handleGestureComplete] returns, it has executed the command
    [c] if and only if the score of the recognition result is at least the
    recognition threshold, the application holds a command [c], and [c] is
    the command of the first mapping that is enabled, carries the name of
    the result and whose minimum score the score reaches; mappings after
    that one are not looked at, and at most one command is executed. *)
Theorem handleGestureComplete_executes Math settings commands l fuel
    startTime endTime w effects :
  (handleGestureComplete Math settings commands l fuel startTime endTime w).1
  = Ok effects ->
  exists result,
    (recognize Math l (useProtractor settings) fuel startTime endTime w).1
    = Ok result /\
    (length (List.filter is_execution effects) <= 1)%nat /\
    forall c,
      executeCommandById c ∈ effects <->
      (recognitionThreshold settings <=? score result) = true /\
      c ∈ commands /\
      exists i m,
        gestureMappings settings !! i = Some m /\ commandId m = c /\
        enabled m = true /\ gestureName m = res_name result /\
        (minScore m <=? score result) = true /\
        forall j m', (j < i)%nat -> gestureMappings settings !! j = Some m' ->
          enabled m' = false \/ gestureName m' <> res_name result \/
          (minScore m' <=? score result) = false.
Proof.
  unfold handleGestureComplete.
  destruct (recognize Math l (useProtractor settings) fuel startTime endTime w)
    as [[result| |] w']; cbn [fst mbind outcome_bind]; [|done..].
  intros [= <-]. exists result. split; [done|].
  assert (forall m, matches result m = true <->
            enabled m = true /\ gestureName m = res_name result /\
            (minScore m <=? score result) = true) as Hmatch.
  { intros m. unfold matches, geb.
    rewrite !andb_true_iff, bool_decide_eq_true. tauto. }
  assert (forall m, matches result m = false ->
            enabled m = false \/ gestureName m <> res_name result \/
            (minScore m <=? score result) = false) as Hnomatch.
  { intros m. unfold matches, geb.
    rewrite !andb_false_iff, bool_decide_eq_false. tauto. }
  unfold dispatch, geb.
  destruct (recognitionThreshold settings <=? score result) eqn:Hthr.
  2:{ split; [simpl; lia|]. intros c. split; [|by intros [? _]].
      intros [=]%list_elem_of_singleton. }
  destruct (List.find (matches result) (gestureMappings settings))
    as [mapping|] eqn:Hfind.
  2:{ split; [simpl; lia|]. intros c. split.
      - intros [=]%list_elem_of_singleton.
      - intros (_ & _ & i & m & Hi & _ & He & Hn & Hs & _).
        assert (matches result m = false) as Hf
          by (apply (List.find_none _ _ Hfind m);
              by eapply list_elem_of_In, list_elem_of_lookup_2).
        assert (matches result m = true) by (by apply Hmatch). congruence. }
  apply find_first in Hfind as (i & Hi & Hm & Hfirst).
  unfold executeCommand.
  destruct (bool_decide (commandId mapping ∈ commands)) eqn:Hcmd.
  - apply bool_decide_eq_true in Hcmd. split; [simpl; lia|]. intros c. split.
    + intros [[= ->]|[=]%list_elem_of_singleton]%elem_of_cons.
      split; [done|]. split; [done|]. exists i, mapping.
      apply Hmatch in Hm as (? & ? & ?). repeat (split; [done|]).
      intros j m' Hj Hm'. apply Hnomatch. by eapply Hfirst.
    + intros (_ & Hc & i' & m & Hi' & <- & He & Hn & Hs & Hfirst').
      assert (i' = i) as ->.
      { destruct (Nat.lt_trichotomy i' i) as [Hlt|[->|Hgt]]; [|done|].
        - assert (matches result m = true) by (apply Hmatch; done).
          pose proof (Hfirst i' m Hlt Hi'). congruence.
        - destruct (Hfirst' i mapping Hgt Hi) as [Hx|[Hx|Hx]];
            apply Hmatch in Hm as (? & ? & ?); congruence. }
      assert (m = mapping) as -> by congruence. by left.
  - apply bool_decide_eq_false in Hcmd. split; [simpl; lia|]. intros c. split.
    + intros [[=]|[=]%list_elem_of_singleton]%elem_of_cons.
    + intros (_ & Hc & i' & m & Hi' & <- & He & Hn & Hs & Hfirst').
      assert (i' = i) as ->.
      { destruct (Nat.lt_trichotomy i' i) as [Hlt|[->|Hgt]]; [|done|].
        - assert (matches result m = true) by (apply Hmatch; done).
          pose proof (Hfirst i' m Hlt Hi'). congruence.
        - destruct (Hfirst' i mapping Hgt Hi) as [Hx|[Hx|Hx]];
            apply Hmatch in Hm as (? & ? & ?); congruence. }
      assert (m = mapping) as -> by congruence. done.
Qed.

(** X19: handling a stroke that the capture delivers leaves the store as it
    was, whether recognition returns or throws: the same templates, each
    with the same points.  The stroke is a new array, so that what
    [resample] inserts goes to no stored array. *)
Theorem onGestureComplete_keeps_the_store Math settings commands stroke fuel
    startTime endTime w :
  Forall (fun t => is_Some (heap w !! points t)) (templates w) ->
  let w' := (onGestureComplete Math settings commands stroke fuel
               startTime endTime w).2 in
  templates w' = templates w /\
  Forall (fun t => heap w' !! points t = heap w !! points t) (templates w).
Proof.
  intros Hstore w'. subst w'. unfold onGestureComplete, handleGestureComplete.
  set (l := fresh (dom (heap w))).
  set (w0 := {| heap := <[l := Some <$> GestureCapture.points stroke]> (heap w);
                templates := templates w |}).
  destruct (recognize_frame Math l (useProtractor settings) fuel startTime
              endTime w0 _ _ (surjective_pairing _)) as [Hts Hframe].
  destruct (recognize Math l (useProtractor settings) fuel startTime endTime w0)
    as [r w1]. cbn [fst snd] in *.
  split; [done|]. apply Forall_forall. intros t Ht.
  destruct (proj1 (Forall_forall _ _) Hstore t Ht) as [arr Harr].
  assert (points t <> l) as Hne.
  { intros Heq. assert (l ∉ dom (heap w)) as Hfresh by apply is_fresh.
    apply Hfresh, elem_of_dom. rewrite <- Heq. by eexists. }
  rewrite Hframe; [|done| |done].
  - cbn [heap w0]. by rewrite lookup_insert_ne.
  - cbn [heap w0]. rewrite lookup_insert_ne by done. by eexists.
Qed.

End Dispatch.

Definition settings_AB : Plugin.GestureCommanderSettings :=
  {| Plugin.modifierKeys := GestureCapture.modifierKeys capture_settings;
     Plugin.minStrokeLength := 50;
     Plugin.maxStrokeTime := 3000;
     Plugin.enableVisualFeedback := true;
     Plugin.gestureMappings :=
       [ {| Plugin.id := "m0"; Plugin.gestureName := "A";
            Plugin.commandId := "editor:fold"; Plugin.commandName := "Fold";
            Plugin.enabled := false; Plugin.minScore := 0x1.199999999999ap-1;
            Plugin.originalPoints := None |};
         {| Plugin.id := "m1"; Plugin.gestureName := "A";
            Plugin.commandId := "editor:save"; Plugin.commandName := "Save";
            Plugin.enabled := true; Plugin.minScore := 0x1.199999999999ap-1;
            Plugin.originalPoints := None |} ];
     Plugin.recognitionThreshold := 0x1.3333333333333p-1;
     Plugin.useProtractor := false |}.

Lemma handleGestureComplete_executes_witness :
  let run := Plugin.handleGestureComplete RefMath.impl settings_AB
               ["editor:fold"; "editor:save"] 3%positive 100 0 1 store_AB in
  exists effects,
    run.1 = Ok effects /\
    List.filter is_execution effects
    = [Plugin.executeCommandById "editor:save"] /\
    exists result,
      (recognize RefMath.impl 3%positive (Plugin.useProtractor settings_AB)
         100 0 1 store_AB).1 = Ok result /\
      (length (List.filter is_execution effects) <= 1)%nat /\
      forall c,
        Plugin.executeCommandById c ∈ effects <->
        (Plugin.recognitionThreshold settings_AB <=? score result) = true /\
        c ∈ ["editor:fold"; "editor:save"] /\
        exists i m,
          Plugin.gestureMappings settings_AB !! i = Some m /\
          Plugin.commandId m = c /\
          Plugin.enabled m = true /\ Plugin.gestureName m = res_name result /\
          (Plugin.minScore m <=? score result) = true /\
          forall j m', (j < i)%nat ->
            Plugin.gestureMappings settings_AB !! j = Some m' ->
            Plugin.enabled m' = false \/
            Plugin.gestureName m' <> res_name result \/
            (Plugin.minScore m' <=? score result) = false.
Proof.
  intros run. eexists. split; [vm_compute; reflexivity|].
  split; [reflexivity|].
  apply (handleGestureComplete_executes RefMath.impl settings_AB
           ["editor:fold"; "editor:save"] 3%positive 100%nat 0%Z 1%Z store_AB).
  vm_compute. reflexivity.
Defined.

Lemma onGestureComplete_keeps_the_store_witness :
  let stroke :=
    {| GestureCapture.points :=
         [{| x := 0; y := 0 |}; {| x := 40; y := 0 |}; {| x := 80; y := 30 |}];
       GestureCapture.stroke_startTime := 1000;
       GestureCapture.endTime := 1040;
       GestureCapture.modifiers := GestureCapture.modifierKeys capture_settings
    |} in
  let w' := (Plugin.onGestureComplete RefMath.impl settings_AB
               ["editor:save"] stroke 100 0 1 store_AB).2 in
  templates w' = templates store_AB /\
  Forall (fun t => heap w' !! points t = heap store_AB !! points t)
         (templates store_AB).
Proof.
  intros stroke.
  apply (onGestureComplete_keeps_the_store RefMath.impl settings_AB
           ["editor:save"] stroke 100%nat 0%Z 1%Z store_AB).
  eapply Forall_impl; [exact store_AB_ok|].
  intros t (arr & Harr & _). by eexists.
Defined.

(** ** Reloading the gestures of the settings *)

(** From [h] to [h'] every array is still there and holds its former
    elements, in order; an array of point objects is still one, and an
    empty array is still empty. *)
Definition arrays_grow (h h' : gmap loc array) : Prop :=
  forall l arr, h !! l = Some arr ->
    exists arr', h' !! l = Some arr' /\ arr `sublist_of` arr' /\
                 (objects arr -> objects arr') /\ (arr = [] -> arr' = []).

Lemma arrays_grow_refl h : arrays_grow h h.
Proof. intros l arr Hl. by exists arr. Qed.

Lemma arrays_grow_trans h1 h2 h3 :
  arrays_grow h1 h2 -> arrays_grow h2 h3 -> arrays_grow h1 h3.
Proof.
  intros H12 H23 l arr Hl.
  destruct (H12 l arr Hl) as (arr2 & Hl2 & Hs2 & Ho2 & He2).
  destruct (H23 l arr2 Hl2) as (arr3 & Hl3 & Hs3 & Ho3 & He3).
  exists arr3. split; [done|]. split; [by etrans|]. split; auto.
Qed.

Lemma resample_arrays_grow l n fuel (h : gmap loc array) arr :
  h !! l = Some arr -> arr <> [] ->
  arrays_grow h (resample l n fuel h).2.
Proof.
  intros Hl Hne l' arr' Hl'.
  destruct (decide (l' = l)) as [->|Hother].
  2:{ exists arr'. rewrite (resample_heap_other l n fuel h _ _ l'
                              (surjective_pairing _) Hother). done. }
  assert (arr' = arr) as -> by congruence.
  unfold resample. rewrite Hl.
  destruct (pathLength arr) as [len| |]; cbn [snd]; [|by exists arr..].
  pose proof (resample_loop_splices fuel (len / (number_of_nat n - 1)) 1 arr
                [at_ arr 0] 0) as [Hsub _].
  pose proof (resample_loop_array fuel (len / (number_of_nat n - 1)) 1 arr
                [at_ arr 0] 0) as Hobj.
  destruct (resample_loop _ _ _ _ _ _) as [r pts']. cbn [fst snd] in *.
  assert (exists arr', (<[l := pts']> h) !! l = Some arr' /\
                       arr `sublist_of` arr' /\
                       (objects arr -> objects arr') /\ (arr = [] -> arr' = []))
    as Hgoal.
  { exists pts'. rewrite lookup_insert_eq. split; [done|]. split; [done|].
    split; [|done]. intros Ho. by destruct (Hobj Ho) as (_ & ? & _). }
  destruct r as [newPoints| |]; [|done..].
  destruct (_ =? n)%nat; [destruct (at_ pts' _)|]; done.
Qed.

Lemma addGesture_arrays_grow Math nm l fuel w arr :
  heap w !! l = Some arr -> arr <> [] ->
  arrays_grow (heap w) (heap (addGesture Math nm l fuel w).2).
Proof.
  intros Hl Hne.
  pose proof (resample_arrays_grow l NUM_POINTS fuel (heap w) arr Hl Hne)
    as Hgrow.
  intros l' arr' Hl'.
  destruct (Hgrow l' arr' Hl') as (arr'' & Hl'' & Hrest).
  exists arr''. split; [|done]. rewrite <- Hl''.
  unfold addGesture.
  destruct (createTemplate Math nm l fuel (heap w)) as [r h1] eqn:Hct.
  rewrite <- (createTemplate_heap_old Math _ _ _ _ _ _ l' Hct)
    by (by rewrite Hl').
  by destruct r.
Qed.

Section Reload.

Import Plugin.

(** The test [mapping.originalPoints && mapping.originalPoints.length > 0]
    in the heap [h]. *)
Definition has_originalPoints (h : gmap loc array) (m : GestureMapping)
  : bool :=
  match originalPoints m with
  | Some l =>
      match h !! l with
      | Some arr => (0 <? length arr)%nat
      | None => false
      end
  | None => false
  end.

(** The [originalPoints] of the mapping, if any, is an array of point
    objects in [h]. *)
Definition points_saved (h : gmap loc array) (m : GestureMapping) : Prop :=
  forall l, originalPoints m = Some l ->
            exists arr, h !! l = Some arr /\ objects arr.

Lemma reloadGestures_forEach_spec Math fuel mappings h0 w :
  arrays_grow h0 (heap w) ->
  Forall (points_saved h0) mappings ->
  let run := reloadGestures_forEach Math fuel mappings w in
  run.1 <> TypeError /\
  arrays_grow h0 (heap run.2) /\
  (run.1 = Ok tt ->
   name <$> templates run.2
   = (name <$> templates w)
     ++ (gestureName <$> List.filter (has_originalPoints h0) mappings)).
Proof.
  intros Hgrow Hsaved. revert w Hgrow.
  induction Hsaved as [|m mappings Hm _ IH]; intros w Hgrow;
    cbn [reloadGestures_forEach List.filter].
  { split; [done|]. split; [done|]. intros _. cbn. by rewrite app_nil_r. }
  unfold reloadGestures_callback, has_originalPoints.
  destruct (originalPoints m) as [l|] eqn:Hop; [|by apply IH].
  destruct (Hm l Hop) as (arr0 & Hl0 & Hobj0).
  destruct (Hgrow l arr0 Hl0) as (arr & Hl & Hsub & Hobj & Hempty).
  rewrite Hl0, Hl.
  assert ((0 <? length arr)%nat = (0 <? length arr0)%nat) as Hsame.
  { destruct arr0 as [|e arr0]; [by rewrite Hempty|].
    destruct arr; [by apply sublist_nil_r in Hsub|done]. }
  rewrite Hsame. destruct (0 <? length arr0)%nat eqn:Hlen; [|by apply IH].
  assert (arr <> []) as Hne.
  { destruct arr; [|done]. simpl in Hsame. done. }
  pose proof (addGesture_arrays_grow Math (gestureName m) l fuel w arr Hl Hne)
    as Hgrow1.
  destruct (addGesture_good Math (gestureName m) l fuel w _ _
              (ex_intro _ arr (conj Hl (conj Hne (Hobj Hobj0))))
              (surjective_pairing _)) as (Hr & _ & _ & Hnames).
  destruct (addGesture Math (gestureName m) l fuel w) as [r w1].
  cbn [fst snd] in *.
  destruct r as [count| |]; cbn [mbind outcome_bind]; [|done|].
  - destruct (IH w1 (arrays_grow_trans _ _ _ Hgrow Hgrow1))
      as (Hr2 & Hgrow2 & Hnames2).
    split; [done|]. split; [done|]. intros Hok.
    rewrite (Hnames2 Hok), Hnames. cbn [fmap list_fmap].
    by rewrite <- app_assoc.
  - cbn [fst snd]. split; [done|]. split; [|done].
    by eapply arrays_grow_trans.
Qed.

(** X20: when every [originalPoints] saved in the settings is an array of
    point objects, [reloadGestures] never throws; when it returns, the
    store holds one template per mapping that has a non-empty
    [originalPoints], under the mapping's gesture name and in the order of
    the mappings, and nothing else.  Every array that existed before still
    holds its elements, in order: the saved points are not replaced, they
    can only have grown. *)
Theorem reloadGestures_store Math settings fuel w :
  Forall (points_saved (heap w)) (gestureMappings settings) ->
  let run := reloadGestures Math settings fuel w in
  run.1 <> TypeError /\
  (run.1 = Ok tt ->
   name <$> templates run.2
   = gestureName <$> List.filter (has_originalPoints (heap w))
                       (gestureMappings settings)) /\
  forall l arr, heap w !! l = Some arr ->
    exists arr', heap run.2 !! l = Some arr' /\ arr `sublist_of` arr'.
Proof.
  intros Hsaved run. subst run. unfold reloadGestures.
  set (w0 := removeTemplatesByName _ _).
  destruct (reloadGestures_forEach_spec Math fuel (gestureMappings settings)
              (heap w) w0 (arrays_grow_refl _) Hsaved) as (Hr & Hgrow & Hnames).
  split; [done|]. split; [done|].
  intros l arr Hl. destruct (Hgrow l arr Hl) as (arr' & ? & ? & _). eauto.
Qed.

End Reload.

Definition reload_settings : Plugin.GestureCommanderSettings :=
  let mapping name saved :=
    {| Plugin.id := name; Plugin.gestureName := name;
       Plugin.commandId := name; Plugin.commandName := name;
       Plugin.enabled := true; Plugin.minScore := 0x1.199999999999ap-1;
       Plugin.originalPoints := saved |} in
  {| Plugin.modifierKeys := GestureCapture.modifierKeys capture_settings;
     Plugin.minStrokeLength := 50;
     Plugin.maxStrokeTime := 3000;
     Plugin.enableVisualFeedback := true;
     Plugin.gestureMappings :=
       [mapping "editor:save" (Some 1%positive);
        mapping "editor:fold" None;
        mapping "app:go-back" (Some 2%positive)];
     Plugin.recognitionThreshold := 0x1.3333333333333p-1;
     Plugin.useProtractor := false |}.

Definition reload_world : world :=
  world_of [(1%positive, stroke_corner); (2%positive, [])].

Lemma reloadGestures_store_witness :
  let run := Plugin.reloadGestures RefMath.impl reload_settings 100
               reload_world in
  run.1 = Ok tt /\
  name <$> templates run.2 = ["editor:save"] /\
  length <$> heap run.2 !! 1%positive = Some 66%nat /\
  (run.1 <> TypeError /\
   (run.1 = Ok tt ->
    name <$> templates run.2
    = Plugin.gestureName <$>
        List.filter (has_originalPoints (heap reload_world))
          (Plugin.gestureMappings reload_settings)) /\
   forall l arr, heap reload_world !! l = Some arr ->
     exists arr', heap run.2 !! l = Some arr' /\ arr `sublist_of` arr').
Proof.
  cbv zeta. split; [vm_compute; reflexivity|].
  split; [vm_compute; reflexivity|]. split; [vm_compute; reflexivity|].
  apply (reloadGestures_store RefMath.impl reload_settings 100%nat reload_world).
  repeat constructor.
  - intros l [= <-]. exists stroke_corner. split; [reflexivity|].
    repeat constructor; eauto.
  - intros l [=].
  - intros l [= <-]. exists []. split; [reflexivity|constructor].
Defined.

(** * Saving a drawn gesture (gesture-creation-modal.ts)

    [saveGesture] on the fields of the modal it reads and writes, the
    recognizer's store and the mappings of the settings.  The id that
    [generateId] makes of the clock and [Math.random], and whether the
    promise of [saveSettings] is fulfilled, come from outside. *)
Module GestureCreationModal.



Inductive notice :=
| Please_select_a_command
| Please_draw_a_gesture
| Gesture_updated
| Gesture_created
| Error_saving_gesture.





Section SaveGesture.

Variable Math : JSMath.



End SaveGesture.

End GestureCreationModal.


Section SaveGestureFacts.

Local Abbreviation template_name := name.

Import GestureCreationModal.


End SaveGestureFacts.




